(** * The fluid-simulation core of the portfolio widget

    A shallow embedding of the solver module of the fluid-simulation widget
    (the module the page imports as ["./solver"]): pressure relaxation,
    velocity projection and semi-Lagrangian advection on an 8x8 staggered
    grid, and the properties its specification states about it.  Of the two
    variants of the module among the sources, the embedding follows the one
    the specification takes as canonical, whose samplers work on grid-local
    positions and clamp their indices ([GetVelocityXAtLocalPos],
    [GetVelocityYAtLocalPos]); the pressure and projection functions are the
    same in both.

    Modelling choices.
    - A JavaScript number is modelled as an exact rational ([Qc], so that
      equal numbers are equal terms).  Rounding, overflow, [NaN], infinities
      and the two zeros of IEEE doubles are outside this model.  A property
      that an infinity or a [NaN] would break is stated for numbers up to
      [moderate] (1e300), under which no intermediate result of the solver
      overflows a double; and [Binary64] embeds the pressure sweep, the
      samplers and the advection a second time, on doubles, to evaluate the
      code where the rationals and the doubles part ways.
    - A number that the code uses as an array index or a loop counter is
      modelled as a [Z]; [ofZ] turns it back into a number.
    - A 2D array is a list of rows.  Arrays are objects on a heap and the
      functions receive locations, so that passing one array twice is
      expressible.  The rows of an array are assumed to be owned by it (no
      row object is shared between two arrays).
    - A read outside an array (JavaScript: [undefined], or a [TypeError] for
      a missing row) is a fault, [None].  A write outside the allocated
      cells (JavaScript: a [TypeError] for a missing row, a row extended
      with holes for a missing column) is reported as a fault too.
    - [console.log] calls and the SVG update at the end of
      [CalculateVelocities] do not touch the arrays and are left out; the
      loop bodies of [AdvectVelocities] up to their store are named
      [advectVertical] and [advectHorizontal], the index computation of the
      samplers [indicesX] and [indicesY].
    - The samplers and the advection of the other variant are embedded in
      [WorldVariant]; there [Math.trunc] and [% 1.0] are exact, and the
      division by the cell size is the division of the code for a cell
      size other than zero.
    - Of [ResetPressure], [RandomiseVelocities] and [ConfigureSVG] the part
      that touches the arrays is embedded.  The drawing is the list of its
      [line] elements with a [data-type] attribute, in document order, each
      with its data set; [parseInt] gives back the integer that was stored
      in the data set.  [Math.random] is a sequence of numbers, the [k]-th
      of which is drawn at the [k]-th element of the drawing. *)

From Stdlib Require Import ZArith QArith Qcanon Qround Lia Lqa SpecFloat.
From stdpp Require Import base numbers option list list_numbers functions.

Local Open Scope Z_scope.

(** ** Numbers *)

(** A numeric literal of the source. *)
Definition num (q : Q) : Qc := Q2Qc q.

(** An integer-valued number (a loop counter, [Math.floor]'s result) used in
    arithmetic. *)
Definition ofZ (z : Z) : Qc := Qc_of_Z z.

Definition Math_floor (x : Qc) : Z := Qfloor x.

(** ** Arrays and the heap *)

Abbreviation grid := (list (list Qc)).

(** [l[i]] for an integer-valued [i]. *)
Definition idx {A} (l : list A) (i : Z) : option A :=
  if decide (0 ≤ i) then l !! Z.to_nat i else None.

(** [g[r][c]] *)
Definition at2 (g : grid) (r c : Z) : option Qc :=
  rw ← idx g r; idx rw c.

(** [g[r][c] = x] on an allocated cell. *)
Definition store2 (g : grid) (r c : Z) (x : Qc) : option grid :=
  rw ← idx g r;
  if decide (0 ≤ c < Z.of_nat (length rw))
  then Some (<[Z.to_nat r := <[Z.to_nat c := x]> rw]> g)
  else None.

Abbreviation loc := nat (only parsing).
Abbreviation heap := (nat → list (list Qc)).

(** Computations that read and write the heap and may fault. *)
Definition M (A : Type) : Type := heap → option (A * heap).

Definition ret {A} (x : A) : M A := λ h, Some (x, h).

Definition bind {A B} (m : M A) (k : A → M B) : M B :=
  λ h, match m h with
       | Some (x, h') => k x h'
       | None => None
       end.

Notation "'let*' x ':=' m 'in' k" := (bind m (λ x, k))
  (at level 10, x pattern, m at level 100, k at level 200).

Definition rd (a : loc) (r c : Z) : M Qc :=
  λ h, match at2 (h a) r c with
       | Some x => Some (x, h)
       | None => None
       end.

Definition wr (a : loc) (r c : Z) (x : Qc) : M unit :=
  λ h, match store2 (h a) r c x with
       | Some g => Some (tt, <[a := g]> h)
       | None => None
       end.

(** [for (i of l) body(i)] *)
Fixpoint for_ {A} (l : list A) (body : A → M unit) : M unit :=
  match l with
  | [] => ret tt
  | i :: l' => let* _ := body i in for_ l' body
  end.

(** ** The solver *)

Definition gridSize : Z := 8.
Definition DENSITY : Qc := num 0.6.
Definition DELTA_X : Qc := num 1.0.
Definition DELTA_TIME : Qc := num 0.016.

(** *** Pressure *)

Definition CalculatePressure
    (cellValues horizontalArrows verticalArrows : loc) (row col : Z) : M unit :=
  let xEdge := (col =? 0) || (col =? 7) in
  let yEdge := (row =? 0) || (row =? 7) in
  let* pLeft := (if xEdge then ret 0%Qc else rd cellValues row (col - 1)) in
  let* pRight := (if xEdge then ret 0%Qc else rd cellValues row (col + 1)) in
  let* pUp := (if yEdge then ret 0%Qc else rd cellValues (row - 1) col) in
  let* pDown := (if yEdge then ret 0%Qc else rd cellValues (row + 1) col) in
  let* vLeft := rd horizontalArrows row col in
  let* vRight :=
    (if col =? 7 then ret 0%Qc else rd horizontalArrows row (col + 1)) in
  let* vUp := rd verticalArrows row col in
  let* vDown :=
    (if row =? 7 then ret 0%Qc else rd verticalArrows (row + 1) col) in
  let pressure := (pLeft + pRight + pUp + pDown)%Qc in
  let velocity := (vRight - vLeft + vDown - vUp)%Qc in
  wr cellValues row col
     ((pressure - DENSITY * DELTA_X * velocity / DELTA_TIME) / num 4.0)%Qc.

Definition SolvePressureRedBlack
    (cellValues horizontalArrows verticalArrows : loc) : M unit :=
  let* _ :=
    for_ (seqZ 0 gridSize) (λ row,
      for_ (seqZ 0 gridSize) (λ col,
        if Z.land (row + col) 1 =? 0
        then CalculatePressure cellValues horizontalArrows verticalArrows row col
        else ret tt)) in
  for_ (seqZ 0 gridSize) (λ row,
    for_ (seqZ 0 gridSize) (λ col,
      if Z.land (row + col) 1 =? 1
      then CalculatePressure cellValues horizontalArrows verticalArrows row col
      else ret tt)).

(** *** Velocity *)

(** The numeric part of [CalculateVelocities]; [a[r][c] -= e] reads the cell,
    subtracts and stores. *)
Definition CalculateVelocities
    (cellValues horizontalArrows verticalArrows : loc) : M unit :=
  let k := (DELTA_TIME / DENSITY)%Qc in
  let* _ :=
    for_ (seqZ 0 (gridSize + 1)) (λ row,
      for_ (seqZ 0 gridSize) (λ col,
        if (row =? 0) || (row =? 8)
        then wr verticalArrows row col (num 0.0)
        else
          let* pCenter := rd cellValues row col in
          let* pUp := rd cellValues (row - 1) col in
          let* old := rd verticalArrows row col in
          wr verticalArrows row col (old - k * (pCenter - pUp))%Qc)) in
  for_ (seqZ 0 gridSize) (λ row,
    for_ (seqZ 0 (gridSize + 1)) (λ col,
      if (col =? 0) || (col =? 8)
      then wr horizontalArrows row col (num 0.0)
      else
        let* pCenter := rd cellValues row col in
        let* pLeft := rd cellValues row (col - 1) in
        let* old := rd horizontalArrows row col in
        wr horizontalArrows row col (old - k * (pCenter - pLeft))%Qc)).

(** *** Advection *)

Definition lerp (a b t : Qc) : Qc := (a + (b - a) * t)%Qc.

(** The four array indices a bilinear sampler reads at, after clamping. *)
Record corners : Type :=
  Corners { iLeft : Z; iRight : Z; iBottom : Z; iTop : Z }.

(** The clamped indices of the sampler of the horizontal arrows. *)
Definition indicesX (localPos : Qc * Qc) : corners :=
  let px := localPos.1 in
  let py := (localPos.2 - num 0.5)%Qc in
  let left := Math_floor px in
  let right := left + 1 in
  let bottom := Math_floor py in
  let top := bottom + 1 in
  let left := Z.max 0 (Z.min 8 left) in
  let right := Z.max 0 (Z.min 8 right) in
  let bottom := Z.max 0 (Z.min 7 bottom) in
  let top := Z.max 0 (Z.min 7 top) in
  Corners left right bottom top.

Definition GetVelocityXAtLocalPos
    (localPos : Qc * Qc) (horizontalArrows : loc) : M Qc :=
  let px := localPos.1 in
  let py := (localPos.2 - num 0.5)%Qc in
  let left := iLeft (indicesX localPos) in
  let right := iRight (indicesX localPos) in
  let bottom := iBottom (indicesX localPos) in
  let top := iTop (indicesX localPos) in
  let xFrac := (px - ofZ (Math_floor px))%Qc in
  let yFrac := (py - ofZ (Math_floor py))%Qc in
  let* tl := rd horizontalArrows top left in
  let* tr := rd horizontalArrows top right in
  let valueTop := lerp tl tr xFrac in
  let* bl := rd horizontalArrows bottom left in
  let* br := rd horizontalArrows bottom right in
  let valueBottom := lerp bl br xFrac in
  ret (lerp valueBottom valueTop yFrac).

(** The clamped indices of the sampler of the vertical arrows. *)
Definition indicesY (localPos : Qc * Qc) : corners :=
  let px := (localPos.1 - num 0.5)%Qc in
  let py := localPos.2 in
  let left := Math_floor px in
  let right := left + 1 in
  let bottom := Math_floor py in
  let top := bottom + 1 in
  let left := Z.max 0 (Z.min 7 left) in
  let right := Z.max 0 (Z.min 7 right) in
  let bottom := Z.max 0 (Z.min 8 bottom) in
  let top := Z.max 0 (Z.min 8 top) in
  Corners left right bottom top.

Definition GetVelocityYAtLocalPos
    (localPos : Qc * Qc) (verticalArrows : loc) : M Qc :=
  let px := (localPos.1 - num 0.5)%Qc in
  let py := localPos.2 in
  let left := iLeft (indicesY localPos) in
  let right := iRight (indicesY localPos) in
  let bottom := iBottom (indicesY localPos) in
  let top := iTop (indicesY localPos) in
  let xFrac := (px - ofZ (Math_floor px))%Qc in
  let yFrac := (py - ofZ (Math_floor py))%Qc in
  let* tl := rd verticalArrows top left in
  let* tr := rd verticalArrows top right in
  let valueTop := lerp tl tr xFrac in
  let* bl := rd verticalArrows bottom left in
  let* br := rd verticalArrows bottom right in
  let valueBottom := lerp bl br xFrac in
  ret (lerp valueBottom valueTop yFrac).

(** The value the first loop of [AdvectVelocities] computes for the vertical
    sample [(row, col)], before it is stored. *)
Definition advectVertical (horizontalArrows verticalArrows : loc)
    (row col : Z) : M Qc :=
  let pos := ((ofZ col + num 0.5)%Qc, ofZ row) in
  let* velX := GetVelocityXAtLocalPos pos horizontalArrows in
  let* velY := GetVelocityYAtLocalPos pos verticalArrows in
  let pos := ((pos.1 - DELTA_TIME * velX)%Qc, (pos.2 - DELTA_TIME * velY)%Qc) in
  GetVelocityYAtLocalPos pos verticalArrows.

(** The value the second loop computes for the horizontal sample. *)
Definition advectHorizontal (horizontalArrows verticalArrows : loc)
    (row col : Z) : M Qc :=
  let pos := (ofZ col, (ofZ row + num 0.5)%Qc) in
  let* velX := GetVelocityXAtLocalPos pos horizontalArrows in
  let* velY := GetVelocityYAtLocalPos pos verticalArrows in
  let pos := ((pos.1 - DELTA_TIME * velX)%Qc, (pos.2 - DELTA_TIME * velY)%Qc) in
  GetVelocityXAtLocalPos pos horizontalArrows.

Definition AdvectVelocities
    (horizontalArrows horizontalArrowsTemp
     verticalArrows verticalArrowsTemp : loc) : M unit :=
  let* _ :=
    for_ (seqZ 0 (gridSize + 1)) (λ row,
      for_ (seqZ 0 gridSize) (λ col,
        let* newVel := advectVertical horizontalArrows verticalArrows row col in
        wr verticalArrowsTemp row col newVel)) in
  let* _ :=
    for_ (seqZ 0 gridSize) (λ row,
      for_ (seqZ 0 (gridSize + 1)) (λ col,
        let* newVel := advectHorizontal horizontalArrows verticalArrows row col in
        wr horizontalArrowsTemp row col newVel)) in
  let* _ :=
    for_ (seqZ 0 (gridSize + 1)) (λ row,
      for_ (seqZ 0 gridSize) (λ col,
        let* x := rd verticalArrowsTemp row col in
        wr verticalArrows row col x)) in
  for_ (seqZ 0 gridSize) (λ row,
    for_ (seqZ 0 (gridSize + 1)) (λ col,
      let* x := rd horizontalArrowsTemp row col in
      wr horizontalArrows row col x)).

(** * Definitions the properties are stated with *)

(** ** Arrays by shape and by cell *)

(** Total versions of the array accesses, for stating results. *)
Definition getd (g : grid) (r c : Z) : Qc := default 0%Qc (at2 g r c).
Definition put2 (g : grid) (r c : Z) (x : Qc) : grid :=
  default g (store2 g r c x).

(** The [rows] by [cols] array that holds [x] in every cell. *)
Definition constGrid (rows cols : nat) (x : Qc) : grid :=
  replicate rows (replicate cols x).

(** An array of [rows] rows of [cols] numbers each. *)
Definition shape (rows cols : nat) (g : grid) : Prop :=
  length g = rows ∧ Forall (λ rw, length rw = cols) g.

(** [(r, c)] is a cell of a [rows] by [cols] array. *)
Definition inside (rows cols : nat) (r c : Z) : Prop :=
  0 ≤ r < Z.of_nat rows ∧ 0 ≤ c < Z.of_nat cols.

(** [(r, c)] is a cell of a [rows] by [cols] array, as a test. *)
Definition insideb (rows cols : nat) (rc : Z * Z) : bool :=
  (0 <=? rc.1) && (rc.1 <? Z.of_nat rows) && (0 <=? rc.2) && (rc.2 <? Z.of_nat cols).

(** [rows] by [cols] array whose cell [(r, c)] holds [f r c]. *)
Definition tabulate (rows cols : nat) (f : Z → Z → Qc) : grid :=
  (λ r, f r <$> seqZ 0 (Z.of_nat cols)) <$> seqZ 0 (Z.of_nat rows).

(** The cells of a [rows] by [cols] array in row-major order. *)
Definition cells (rows cols : Z) : list (Z * Z) :=
  list_prod (seqZ 0 rows) (seqZ 0 cols).

(** Membership in a list of cells, as a test. *)
Definition inb (rc : Z * Z) (l : list (Z * Z)) : bool :=
  existsb (λ d, (d.1 =? rc.1) && (d.2 =? rc.2)) l.

(** Every sample multiplied by [v]. *)
Definition scaleGrid (v : Qc) (g : grid) : grid := map (map (Qcmult v)) g.

(** [x < y], as a test. *)
Definition Qc_ltb (x y : Qc) : bool :=
  (Qnum x * QDen y <? Qnum y * QDen x)%Z.

(** ** Heaps and store loops *)

(** Every [(l, rows, cols)] of [req] names a [rows] by [cols] array at [l]. *)
Definition shaped (req : list (loc * nat * nat)) (h : heap) : Prop :=
  Forall (λ lrc, shape (lrc.1.2) (lrc.2) (h (lrc.1.1))) req.

(** The shapes of the three arrays of the solver. *)
Definition solverShapes (cellValues horizontalArrows verticalArrows : loc)
  : list (loc * nat * nat) :=
  [(cellValues, 8%nat, 8%nat); (horizontalArrows, 8%nat, 9%nat);
   (verticalArrows, 9%nat, 8%nat)].

(** The shapes of the four arrays of the advection step. *)
Definition advectShapes (ha ht va vt : loc) : list (loc * nat * nat) :=
  [(ha, 8%nat, 9%nat); (ht, 8%nat, 9%nat);
   (va, 9%nat, 8%nat); (vt, 9%nat, 8%nat)].

(** One iteration of a loop that stores [f h (r, c)] into cell [(r, c)] of
    the array at [a]. *)
Definition wstep (a : loc) (f : heap → Z * Z → Qc) (h : heap) (rc : Z * Z)
  : heap :=
  <[a := put2 (h a) rc.1 rc.2 (f h rc)]> h.

(** No cell of [cs] is visited twice and no visit reads, among [deps], a
    cell stored earlier ([done] are the cells stored before [cs]). *)
Fixpoint ordered (deps : Z * Z → list (Z * Z)) (done cs : list (Z * Z))
  : bool :=
  match cs with
  | [] => true
  | rc :: cs' =>
      negb (inb rc done) && forallb (λ d, negb (inb d done)) (deps rc)
      && ordered deps (rc :: done) cs'
  end.

(** ** The steps as functions of the arrays *)

(** The value [CalculatePressure] stores into cell [(row, col)], as a
    function of the three arrays. *)
Definition relaxCell (P H V : grid) (row col : Z) : Qc :=
  let xEdge := (col =? 0) || (col =? 7) in
  let yEdge := (row =? 0) || (row =? 7) in
  let pLeft := if xEdge then 0%Qc else getd P row (col - 1) in
  let pRight := if xEdge then 0%Qc else getd P row (col + 1) in
  let pUp := if yEdge then 0%Qc else getd P (row - 1) col in
  let pDown := if yEdge then 0%Qc else getd P (row + 1) col in
  let vLeft := getd H row col in
  let vRight := if col =? 7 then 0%Qc else getd H row (col + 1) in
  let vUp := getd V row col in
  let vDown := if row =? 7 then 0%Qc else getd V (row + 1) col in
  let pressure := (pLeft + pRight + pUp + pDown)%Qc in
  let velocity := (vRight - vLeft + vDown - vUp)%Qc in
  ((pressure - DENSITY * DELTA_X * velocity / DELTA_TIME) / num 4.0)%Qc.

(** The cells of colour [parity]: [(row + col) & 1 == parity]. *)
Definition isColor (parity : Z) (rc : Z * Z) : bool :=
  Z.land (rc.1 + rc.2) 1 =? parity.

(** One half-sweep: every cell of colour [parity] is relaxed from the
    pressures before the half-sweep, the other cells are kept. *)
Definition halfSweep (parity : Z) (P H V : grid) : grid :=
  tabulate 8 8 (λ row col,
    if isColor parity (row, col) then relaxCell P H V row col
    else getd P row col).

(** Red cells first, then black cells from the already relaxed red ones. *)
Definition redBlackSweep (P H V : grid) : grid :=
  halfSweep 1 (halfSweep 0 P H V) H V.

(** The pressure cells [relaxCell] may read for cell [rc]. *)
Definition neighbours (rc : Z * Z) : list (Z * Z) :=
  [(rc.1, rc.2 - 1); (rc.1, rc.2 + 1); (rc.1 - 1, rc.2); (rc.1 + 1, rc.2)].

(** The vertical arrows after [CalculateVelocities]. *)
Definition projectV (P V : grid) : grid :=
  let k := (DELTA_TIME / DENSITY)%Qc in
  tabulate 9 8 (λ row col,
    if (row =? 0) || (row =? 8) then num 0.0
    else (getd V row col - k * (getd P row col - getd P (row - 1) col))%Qc).

(** The horizontal arrows after [CalculateVelocities]. *)
Definition projectH (P H : grid) : grid :=
  let k := (DELTA_TIME / DENSITY)%Qc in
  tabulate 8 9 (λ row col,
    if (col =? 0) || (col =? 8) then num 0.0
    else (getd H row col - k * (getd P row col - getd P row (col - 1)))%Qc).

(** The value of [GetVelocityXAtLocalPos] as a function of the array. *)
Definition sampleX (H : grid) (localPos : Qc * Qc) : Qc :=
  let px := localPos.1 in
  let py := (localPos.2 - num 0.5)%Qc in
  let i := indicesX localPos in
  let xFrac := (px - ofZ (Math_floor px))%Qc in
  let yFrac := (py - ofZ (Math_floor py))%Qc in
  let valueTop :=
    lerp (getd H (iTop i) (iLeft i)) (getd H (iTop i) (iRight i)) xFrac in
  let valueBottom :=
    lerp (getd H (iBottom i) (iLeft i)) (getd H (iBottom i) (iRight i)) xFrac in
  lerp valueBottom valueTop yFrac.

(** The value of [GetVelocityYAtLocalPos] as a function of the array. *)
Definition sampleY (V : grid) (localPos : Qc * Qc) : Qc :=
  let px := (localPos.1 - num 0.5)%Qc in
  let py := localPos.2 in
  let i := indicesY localPos in
  let xFrac := (px - ofZ (Math_floor px))%Qc in
  let yFrac := (py - ofZ (Math_floor py))%Qc in
  let valueTop :=
    lerp (getd V (iTop i) (iLeft i)) (getd V (iTop i) (iRight i)) xFrac in
  let valueBottom :=
    lerp (getd V (iBottom i) (iLeft i)) (getd V (iBottom i) (iRight i)) xFrac in
  lerp valueBottom valueTop yFrac.

(** The new value of the vertical sample [(row, col)]: the old vertical
    field at the position traced back along the old velocity. *)
Definition newVertical (H V : grid) (row col : Z) : Qc :=
  let pos := ((ofZ col + num 0.5)%Qc, ofZ row) in
  let velX := sampleX H pos in
  let velY := sampleY V pos in
  let pos := ((pos.1 - DELTA_TIME * velX)%Qc, (pos.2 - DELTA_TIME * velY)%Qc) in
  sampleY V pos.

(** The new value of the horizontal sample [(row, col)]. *)
Definition newHorizontal (H V : grid) (row col : Z) : Qc :=
  let pos := (ofZ col, (ofZ row + num 0.5)%Qc) in
  let velX := sampleX H pos in
  let velY := sampleY V pos in
  let pos := ((pos.1 - DELTA_TIME * velX)%Qc, (pos.2 - DELTA_TIME * velY)%Qc) in
  sampleX H pos.

(** The pure per-sample map over the old field. *)
Definition advectH (H V : grid) : grid := tabulate 8 9 (newHorizontal H V).
Definition advectV (H V : grid) : grid := tabulate 9 8 (newVertical H V).

(** ** The wording of the specification *)

(** The pressure update as the specification words it: a pressure neighbour
    is zero exactly when it lies outside the grid, so the left neighbour is
    read whenever [col > 0], the right one whenever [col < N - 1], and
    likewise for the rows. *)
Definition specPressure (P H V : grid) (row col : Z) : Qc :=
  let pLeft := if 0 <? col then getd P row (col - 1) else 0%Qc in
  let pRight := if col <? gridSize - 1 then getd P row (col + 1) else 0%Qc in
  let pUp := if 0 <? row then getd P (row - 1) col else 0%Qc in
  let pDown := if row <? gridSize - 1 then getd P (row + 1) col else 0%Qc in
  let vLeft := getd H row col in
  let vRight := if col =? gridSize - 1 then 0%Qc else getd H row (col + 1) in
  let vUp := getd V row col in
  let vDown := if row =? gridSize - 1 then 0%Qc else getd V (row + 1) col in
  let divergence := (vRight - vLeft + vDown - vUp)%Qc in
  ((pLeft + pRight + pUp + pDown - num 0.6 * num 1.0 * divergence / num 0.016)
   / num 4)%Qc.

(** The naive simultaneous update of the specification: every cell is
    recomputed from the pressures before the sweep. *)
Definition jacobiSweep (P H V : grid) : grid :=
  tabulate 8 8 (relaxCell P H V).

(** Every boundary face velocity is zero: the first and the last column of
    the horizontal arrows, the first and the last row of the vertical ones. *)
Definition boundaryZero (H V : grid) : Prop :=
  (∀ row, 0 ≤ row < gridSize →
     getd H row 0 = 0%Qc ∧ getd H row gridSize = 0%Qc) ∧
  (∀ col, 0 ≤ col < gridSize →
     getd V 0 col = 0%Qc ∧ getd V gridSize col = 0%Qc).

(** Modelled from the spec: the per-tick step, whose caller (the tick loop of
    the page) is not part of the solver module.  The specification orders
    its phases: advection, one relaxation sweep, projection. *)
Definition tick (cellValues horizontalArrows horizontalArrowsTemp
                 verticalArrows verticalArrowsTemp : loc) : M unit :=
  let* _ := AdvectVelocities horizontalArrows horizontalArrowsTemp
                             verticalArrows verticalArrowsTemp in
  let* _ := SolvePressureRedBlack cellValues horizontalArrows verticalArrows in
  CalculateVelocities cellValues horizontalArrows verticalArrows.

(** ** Concrete states *)

(** The heap of the widget: pressure at 0, horizontal arrows at 1 (temporary
    at 2), vertical arrows at 3 (temporary at 4). *)
Definition mkHeap (p hv ht vv vt : grid) : heap :=
  λ l, match l with
       | 0%nat => p | 1%nat => hv | 2%nat => ht | 3%nat => vv | 4%nat => vt
       | _ => []
       end.

(** The widget after a reset: every array all zero. *)
Definition zeroHeap : heap :=
  mkHeap (constGrid 8 8 0%Qc) (constGrid 8 9 0%Qc) (constGrid 8 9 0%Qc)
         (constGrid 9 8 0%Qc) (constGrid 9 8 0%Qc).

(** A state with a single non-zero pressure, in cell [(0, 1)]. *)
Definition onePressure : heap :=
  <[0%nat := put2 (constGrid 8 8 0%Qc) 0 1 1%Qc]> zeroHeap.

(** A state with one non-zero horizontal face velocity, [hVel[0][1] = 1]. *)
Definition oneArrow : heap :=
  <[1%nat := put2 (constGrid 8 9 0%Qc) 0 1 1%Qc]> zeroHeap.

(** A state with some pressure and some velocity in it. *)
Definition sampleHeap : heap :=
  mkHeap (put2 (constGrid 8 8 0%Qc) 3 3 (num 6))
         (put2 (constGrid 8 9 0%Qc) 3 4 1%Qc) (constGrid 8 9 0%Qc)
         (put2 (put2 (constGrid 9 8 0%Qc) 1 0 (num 40)) 2 0 (num 20))
         (constGrid 9 8 0%Qc).

(** A uniform flow: 3 at every horizontal sample, -2 at every vertical one. *)
Definition uniformFlow : heap :=
  mkHeap (constGrid 8 8 0%Qc) (constGrid 8 9 (num 3)) (constGrid 8 9 0%Qc)
         (constGrid 9 8 (num (-2))) (constGrid 9 8 0%Qc).

(** A flow through the walls: 1 at every horizontal sample, the boundary
    columns included. *)
Definition wallFlow : heap := <[1%nat := constGrid 8 9 1%Qc]> zeroHeap.

(** A sample position far outside the grid, as backtracking can produce. *)
Definition farPosition : Qc * Qc := (num (-3.25), num 11.5).

(** The pressures after one sweep over the all-zero state with the single
    face velocity [hVel[r][c] = 1]. *)
Definition unitResponse (r c : Z) : grid :=
  redBlackSweep (constGrid 8 8 0%Qc) (put2 (constGrid 8 9 0%Qc) r c 1%Qc)
                (constGrid 9 8 0%Qc).

(** The array at [a] after running [m], as plain rationals. *)
Definition runGrid (m : M unit) (h : heap) (a : loc) : option (list (list Q)) :=
  match m h with
  | Some (_, h') => Some (map (map this) (h' a))
  | None => None
  end.

(** ** Further definitions *)

(** The net outflow of cell [(row, col)] as [CalculatePressure] computes it
    (its [velocity]). *)
Definition cellDivergence (H V : grid) (row col : Z) : Qc :=
  let vLeft := getd H row col in
  let vRight := if col =? 7 then 0%Qc else getd H row (col + 1) in
  let vUp := getd V row col in
  let vDown := if row =? 7 then 0%Qc else getd V (row + 1) col in
  (vRight - vLeft + vDown - vUp)%Qc.

(** Every cell of a [rows] by [cols] array lies between [lo] and [hi]. *)
Definition within (rows cols : nat) (lo hi : Qc) (g : grid) : Prop :=
  ∀ r c, inside rows cols r c → (lo ≤ getd g r c ≤ hi)%Qc.

(** [p] added to every sample. *)
Definition shiftGrid (p : Qc) (g : grid) : grid := map (map (Qcplus p)) g.

(** The pressures after one sweep over the all-zero state with the single
    face velocity [vVel[r][c] = 1]. *)
Definition unitResponseV (r c : Z) : grid :=
  redBlackSweep (constGrid 8 8 0%Qc) (constGrid 8 9 0%Qc)
                (put2 (constGrid 9 8 0%Qc) r c 1%Qc).

(** ** The rest of the module *)

(** The array part of [ResetPressure] (the reset of the cell labels and of
    the drawn arrows does not touch the arrays and is left out). *)
Definition ResetPressure
    (cellValues horizontalArrows verticalArrows : loc) : M unit :=
  let* _ :=
    for_ (seqZ 0 gridSize) (λ row,
      for_ (seqZ 0 gridSize) (λ col,
        wr cellValues row col (num 0))) in
  for_ (seqZ 0 (gridSize + 1)) (λ i,
    for_ (seqZ 0 gridSize) (λ j,
      let* _ :=
        (if i <? gridSize + 1 then wr verticalArrows i j (num 0) else ret tt) in
      if (i <? gridSize) && (j <=? gridSize)
      then wr horizontalArrows i j (num 0)
      else ret tt)).

(** What one iteration of the second loop of [ResetPressure] does. *)
Definition resetStep (ha va : loc) (h : heap) (ij : Z * Z) : heap :=
  let h1 : heap := <[va := put2 (h va) ij.1 ij.2 (num 0)]> h in
  if (ij.1 <? gridSize) && (ij.2 <=? gridSize)
  then <[ha := put2 (h1 ha) ij.1 ij.2 (num 0)]> h1
  else h1.

(** [Math.trunc]: rounding towards zero. *)
Definition Math_trunc (x : Qc) : Z :=
  if Qle_bool 0 x then Qfloor x else Qceiling x.

(** [x % 1.0]: the remainder has the sign of [x]. *)
Definition rem1 (x : Qc) : Qc := (x - ofZ (Math_trunc x))%Qc.

(** The other variant of the module, whose samplers take positions in
    pixels and the size of a cell. *)
Module WorldVariant.

Definition GetVelocityXAtWorldPos
    (worldPos : Qc * Qc) (cellSize : Qc) (horizontalArrows : loc) : M Qc :=
  let size := (ofZ gridSize * cellSize)%Qc in
  let px := ((worldPos.1 + size / num 2.0) / cellSize)%Qc in
  let py := ((worldPos.2 + size / num 2.0) / cellSize)%Qc in
  let left := Z.min (Z.max 0 (Math_trunc px)) (gridSize - 1) in
  let right := left + 1 in
  let bottom := Z.min (Z.max 0 (Math_trunc py)) (gridSize - 1) in
  let top := bottom + 1 in
  let xFrac := rem1 (px - ofZ left) in
  let yFrac := rem1 (py - ofZ bottom) in
  let* tl := rd horizontalArrows top left in
  let* tr := rd horizontalArrows top right in
  let valueTop := lerp tl tr xFrac in
  let* bl := rd horizontalArrows bottom left in
  let* br := rd horizontalArrows bottom right in
  let valueBottom := lerp bl br xFrac in
  ret (lerp valueBottom valueTop yFrac).

Definition GetVelocityYAtWorldPos
    (worldPos : Qc * Qc) (cellSize : Qc) (verticalArrows : loc) : M Qc :=
  let size := (ofZ gridSize * cellSize)%Qc in
  let px := ((worldPos.1 + size / num 2.0) / cellSize)%Qc in
  let py := ((worldPos.2 + size / num 2.0) / cellSize)%Qc in
  let left := Z.min (Z.max 0 (Math_trunc px)) (gridSize - 1) in
  let right := left + 1 in
  let bottom := Z.min (Z.max 0 (Math_trunc py)) (gridSize - 1) in
  let top := bottom + 1 in
  let xFrac := rem1 (px - ofZ left) in
  let yFrac := rem1 (py - ofZ bottom) in
  let* tl := rd verticalArrows top left in
  let* tr := rd verticalArrows top right in
  let valueTop := lerp tl tr xFrac in
  let* bl := rd verticalArrows bottom left in
  let* br := rd verticalArrows bottom right in
  let valueBottom := lerp bl br xFrac in
  ret (lerp valueBottom valueTop yFrac).

Definition AdvectVelocities (cellSize : Qc)
    (horizontalArrows horizontalArrowsTemp
     verticalArrows verticalArrowsTemp : loc) : M unit :=
  let* _ :=
    for_ (seqZ 0 (gridSize + 1)) (λ row,
      for_ (seqZ 0 gridSize) (λ col,
        let pos := (ofZ row, (ofZ col + num 0.5)%Qc) in
        let* velX := GetVelocityXAtWorldPos pos cellSize horizontalArrows in
        let* velY := GetVelocityYAtWorldPos pos cellSize verticalArrows in
        let pos := ((pos.1 - DELTA_TIME * velX)%Qc,
                    (pos.2 - DELTA_TIME * velY)%Qc) in
        let* newVel := GetVelocityYAtWorldPos pos cellSize verticalArrows in
        wr verticalArrowsTemp row col newVel)) in
  let* _ :=
    for_ (seqZ 0 gridSize) (λ row,
      for_ (seqZ 0 (gridSize + 1)) (λ col,
        let pos := ((ofZ row + num 0.5)%Qc, ofZ col) in
        let* velX := GetVelocityXAtWorldPos pos cellSize horizontalArrows in
        let* velY := GetVelocityYAtWorldPos pos cellSize verticalArrows in
        let pos := ((pos.1 - DELTA_TIME * velX)%Qc,
                    (pos.2 - DELTA_TIME * velY)%Qc) in
        let* newVel := GetVelocityXAtWorldPos pos cellSize horizontalArrows in
        wr horizontalArrowsTemp row col newVel)) in
  let* _ :=
    for_ (seqZ 0 (gridSize + 1)) (λ row,
      for_ (seqZ 0 gridSize) (λ col,
        let* x := rd verticalArrowsTemp row col in
        wr verticalArrows row col x)) in
  for_ (seqZ 0 gridSize) (λ row,
    for_ (seqZ 0 (gridSize + 1)) (λ col,
      let* x := rd horizontalArrowsTemp row col in
      wr horizontalArrows row col x)).

End WorldVariant.

(** The position in cells that the samplers of [WorldVariant] compute from
    a coordinate in pixels. *)
Definition worldToGrid (cellSize x : Qc) : Qc :=
  ((x + ofZ gridSize * cellSize / num 2.0) / cellSize)%Qc.

(** The value of the two samplers of [WorldVariant] (their bodies differ in
    the name of the array only) as a function of the array. *)
Definition worldSample (g : grid) (cellSize : Qc) (worldPos : Qc * Qc) : Qc :=
  let px := worldToGrid cellSize worldPos.1 in
  let py := worldToGrid cellSize worldPos.2 in
  let left := Z.min (Z.max 0 (Math_trunc px)) (gridSize - 1) in
  let right := left + 1 in
  let bottom := Z.min (Z.max 0 (Math_trunc py)) (gridSize - 1) in
  let top := bottom + 1 in
  let xFrac := rem1 (px - ofZ left) in
  let yFrac := rem1 (py - ofZ bottom) in
  let valueTop := lerp (getd g top left) (getd g top right) xFrac in
  let valueBottom := lerp (getd g bottom left) (getd g bottom right) xFrac in
  lerp valueBottom valueTop yFrac.

(** The four entries with indices 4 and 5 are zero. *)
Definition centreZero (g : grid) : Prop :=
  getd g 4 4 = 0%Qc ∧ getd g 4 5 = 0%Qc ∧
  getd g 5 4 = 0%Qc ∧ getd g 5 5 = 0%Qc.

(** A flow everywhere but at the entries with indices 4 and 5. *)
Definition rimFlow : heap :=
  mkHeap (constGrid 8 8 0%Qc)
         (put2 (put2 (constGrid 8 9 0%Qc) 1 2 (num 3)) 6 7 (num (-2)))
         (constGrid 8 9 0%Qc)
         (put2 (put2 (constGrid 9 8 0%Qc) 1 0 (num 40)) 7 3 (num 20))
         (constGrid 9 8 0%Qc).

(** ** The drawing *)

(** A [line] element of the drawing that has a [data-type] attribute; of the
    element only its data set is kept: ["vertical"] with [lineIdx] and
    [col], or ["horizontal"] with [row] and [lineIdx]. *)
Inductive lineElement : Type :=
  | verticalLine (lineIdx col : Z)
  | horizontalLine (row lineIdx : Z).

(** The [line] elements that [createVerticalArrow] appends to the drawing:
    the arrow, then its hit area, with the same data set. *)
Definition createVerticalArrow (lineIdx col : Z) : list lineElement :=
  [verticalLine lineIdx col; verticalLine lineIdx col].

Definition createHorizontalArrow (row lineIdx : Z) : list lineElement :=
  [horizontalLine row lineIdx; horizontalLine row lineIdx].

(** The [line] elements with a [data-type] attribute of the drawing that
    [ConfigureSVG] fills, in document order (the order in which
    [querySelectorAll] lists them). *)
Definition ConfigureSVG : list lineElement :=
  (lineIdx ← seqZ 0 (gridSize + 1);
   col ← seqZ 0 gridSize;
   createVerticalArrow lineIdx col) ++
  (row ← seqZ 0 gridSize;
   lineIdx ← seqZ 0 (gridSize + 1);
   createHorizontalArrow row lineIdx).

(** What [RandomiseVelocities] does with the [k]-th [line] element:
    [Math_random k] is the number that [Math.random] returns there. *)
Definition randomiseLine (Math_random : nat → Qc)
    (horizontalArrows verticalArrows : loc) (kl : nat * lineElement)
  : M unit :=
  let magnitude := ((Math_random kl.1 - num 0.5) * num 0.8)%Qc in
  match kl.2 with
  | verticalLine lineIdx col => wr verticalArrows lineIdx col magnitude
  | horizontalLine row lineIdx => wr horizontalArrows row lineIdx magnitude
  end.

(** The array part of [RandomiseVelocities], on the [line] elements of the
    drawing [svg] (the new end points of the drawn arrows do not touch the
    arrays and are left out, and with them [cellSize]). *)
Definition RandomiseVelocities (Math_random : nat → Qc)
    (cellValues horizontalArrows verticalArrows : loc)
    (svg : list lineElement) : M unit :=
  let* _ := ResetPressure cellValues horizontalArrows verticalArrows in
  for_ (imap pair svg) (randomiseLine Math_random horizontalArrows verticalArrows).

(** The element stands for the vertical arrow [(r, c)]. *)
Definition isVertical (r c : Z) (l : lineElement) : bool :=
  match l with
  | verticalLine lineIdx col => bool_decide ((lineIdx, col) = (r, c))
  | horizontalLine _ _ => false
  end.

(** The element stands for the horizontal arrow [(r, c)]. *)
Definition isHorizontal (r c : Z) (l : lineElement) : bool :=
  match l with
  | verticalLine _ _ => false
  | horizontalLine row lineIdx => bool_decide ((row, lineIdx) = (r, c))
  end.

(** The index of the last element that passes [test]. *)
Fixpoint lastIndex (test : lineElement → bool) (ls : list (nat * lineElement))
  : option nat :=
  match ls with
  | [] => None
  | kl :: ls' =>
      match lastIndex test ls' with
      | Some k => Some k
      | None => if test kl.2 then Some kl.1 else None
      end
  end.

(** The element names a sample of the array of its type. *)
Definition lineInside (kl : nat * lineElement) : bool :=
  match kl.2 with
  | verticalLine lineIdx col => insideb 9 8 (lineIdx, col)
  | horizontalLine row lineIdx => insideb 8 9 (row, lineIdx)
  end.

(** The velocity that [RandomiseVelocities] makes of a random number. *)
Definition magnitudeOf (random : Qc) : Qc := ((random - num 0.5) * num 0.8)%Qc.

(** A source of random numbers with two values. *)
Definition twoDraws (k : nat) : Qc := if Nat.even k then num 0.25 else num 0.75.

(** ** Magnitudes *)

(** A magnitude up to which no intermediate result of the solver overflows
    a double (the largest double is about 1.8e308).  The properties that an
    infinity or a [NaN] would break are stated for numbers up to it. *)
Definition moderate : Qc := num 1e300.

(** Every cell of a [rows] by [cols] array is at most [moderate] in
    magnitude. *)
Definition bounded (rows cols : nat) (g : grid) : Prop :=
  within rows cols (- moderate) moderate g.

(** [within], as a test. *)
Definition withinb (rows cols : nat) (lo hi : Qc) (g : grid) : bool :=
  forallb (λ rc : Z * Z,
             Qle_bool lo (getd g rc.1 rc.2) && Qle_bool (getd g rc.1 rc.2) hi)
          (cells (Z.of_nat rows) (Z.of_nat cols)).

(** A sample position between the samples. *)
Definition midPosition : Qc * Qc := (num 3.75, num 3.25).

(** A flow without a negative sample, with different samples around
    [midPosition]. *)
Definition forwardFlow : heap :=
  mkHeap (constGrid 8 8 0%Qc)
         (put2 (put2 (constGrid 8 9 0%Qc) 3 3 (num 1)) 3 4 (num 2))
         (constGrid 8 9 0%Qc)
         (put2 (put2 (constGrid 9 8 0%Qc) 3 3 (num 40)) 4 3 (num 20))
         (constGrid 9 8 0%Qc).

(** A flow without a positive sample. *)
Definition reverseFlow : heap :=
  mkHeap (constGrid 8 8 0%Qc)
         (put2 (put2 (constGrid 8 9 0%Qc) 3 3 (num (-1))) 3 4 (num (-2)))
         (constGrid 8 9 0%Qc)
         (put2 (put2 (constGrid 9 8 0%Qc) 3 3 (num (-40))) 4 3 (num (-20)))
         (constGrid 9 8 0%Qc).

(** * The solver on doubles *)

(** The pressure sweep, the samplers and the advection once more, on IEEE 754
    binary64 numbers as [SpecFloat] specifies them (round to nearest, ties to
    even, with infinities and [NaN]).  It serves to evaluate the code on
    states where the exact numbers above and the doubles part ways. *)
Module Binary64.

Abbreviation float := spec_float.

Definition prec : Z := 53.
Definition emax : Z := 1024.

(** The double nearest to the integer [z]. *)
Definition ofZ (z : Z) : float := binary_normalize prec emax z 0 false.

(** The double that the decimal literal with the value [n/d] denotes, for
    [n] and [d] that are doubles themselves: the quotient, rounded once. *)
Definition lit (n d : Z) : float := SFdiv prec emax (ofZ n) (ofZ d).

Definition NaN : float := S754_nan.

Declare Scope js_scope.
Delimit Scope js_scope with js.
Notation "x + y" := (SFadd prec emax x y) : js_scope.
Notation "x - y" := (SFsub prec emax x y) : js_scope.
Notation "x * y" := (SFmul prec emax x y) : js_scope.
Notation "x / y" := (SFdiv prec emax x y) : js_scope.

Definition Math_floor (x : float) : float :=
  match x with
  | S754_finite s m e =>
      if 0 <=? e then x
      else
        let z := cond_Zopp s (Zpos m) / 2 ^ (- e) in
        if z =? 0 then S754_zero s else ofZ z
  | _ => x
  end.

Definition Math_min (a b : float) : float :=
  match SFcompare a b with
  | Some Gt => b
  | Some _ => a
  | None => NaN
  end.

Definition Math_max (a b : float) : float :=
  match SFcompare a b with
  | Some Lt => b
  | Some _ => a
  | None => NaN
  end.

(** The integer that a number is, if it is one. *)
Definition toInteger (x : float) : option Z :=
  match x with
  | S754_zero _ => Some 0
  | S754_finite s m e =>
      if 0 <=? e then Some (cond_Zopp s (Zpos m * 2 ^ e))
      else if Zpos m mod 2 ^ (- e) =? 0
           then Some (cond_Zopp s (Zpos m / 2 ^ (- e)))
           else None
  | _ => None
  end.

Abbreviation grid := (list (list float)).
Abbreviation heap := (nat → list (list float)).

(** [l[i]] for a number [i]: [undefined] unless [i] is the index of an
    element, so for [NaN] too. *)
Definition element {A} (l : list A) (i : float) : option A :=
  z ← toInteger i;
  if (0 <=? z) && (z <? Z.of_nat (length l)) then l !! Z.to_nat z else None.

(** [g[r][c]]: a missing row makes the access throw a [TypeError], [None];
    a missing element of a row is [undefined], which the arithmetic of
    every use turns into [NaN]. *)
Definition at2 (g : grid) (r c : float) : option float :=
  rw ← element g r; Some (default NaN (element rw c)).

(** [g[r][c] = x] on an allocated element. *)
Definition store2 (g : grid) (r c : float) (x : float) : option grid :=
  i ← toInteger r;
  j ← toInteger c;
  rw ← element g r;
  if (0 <=? j) && (j <? Z.of_nat (length rw))
  then Some (<[Z.to_nat i := <[Z.to_nat j := x]> rw]> g)
  else None.

Definition M (A : Type) : Type := heap → option (A * heap).

Definition ret {A} (x : A) : M A := λ h, Some (x, h).

Definition bind {A B} (m : M A) (k : A → M B) : M B :=
  λ h, match m h with
       | Some (x, h') => k x h'
       | None => None
       end.

#[warnings="-notation-overridden"]
Notation "'let*' x ':=' m 'in' k" := (bind m (λ x, k))
  (at level 10, x pattern, m at level 100, k at level 200).

Definition rd (a : nat) (r c : float) : M float :=
  λ h, match at2 (h a) r c with
       | Some x => Some (x, h)
       | None => None
       end.

Definition wr (a : nat) (r c : float) (x : float) : M unit :=
  λ h, match store2 (h a) r c x with
       | Some g => Some (tt, <[a := g]> h)
       | None => None
       end.

Fixpoint for_ {A} (l : list A) (body : A → M unit) : M unit :=
  match l with
  | [] => ret tt
  | i :: l' => let* _ := body i in for_ l' body
  end.

Definition DENSITY : float := lit 6 10.
Definition DELTA_X : float := ofZ 1.
Definition DELTA_TIME : float := lit 16 1000.

Definition CalculatePressure
    (cellValues horizontalArrows verticalArrows : nat) (row col : Z) : M unit :=
  let xEdge := (col =? 0) || (col =? 7) in
  let yEdge := (row =? 0) || (row =? 7) in
  let* pLeft :=
    (if xEdge then ret (ofZ 0) else rd cellValues (ofZ row) (ofZ (col - 1))) in
  let* pRight :=
    (if xEdge then ret (ofZ 0) else rd cellValues (ofZ row) (ofZ (col + 1))) in
  let* pUp :=
    (if yEdge then ret (ofZ 0) else rd cellValues (ofZ (row - 1)) (ofZ col)) in
  let* pDown :=
    (if yEdge then ret (ofZ 0) else rd cellValues (ofZ (row + 1)) (ofZ col)) in
  let* vLeft := rd horizontalArrows (ofZ row) (ofZ col) in
  let* vRight :=
    (if col =? 7 then ret (ofZ 0)
     else rd horizontalArrows (ofZ row) (ofZ (col + 1))) in
  let* vUp := rd verticalArrows (ofZ row) (ofZ col) in
  let* vDown :=
    (if row =? 7 then ret (ofZ 0)
     else rd verticalArrows (ofZ (row + 1)) (ofZ col)) in
  let pressure := (pLeft + pRight + pUp + pDown)%js in
  let velocity := (vRight - vLeft + vDown - vUp)%js in
  wr cellValues (ofZ row) (ofZ col)
     ((pressure - DENSITY * DELTA_X * velocity / DELTA_TIME) / ofZ 4)%js.

Definition SolvePressureRedBlack
    (cellValues horizontalArrows verticalArrows : nat) : M unit :=
  let* _ :=
    for_ (seqZ 0 gridSize) (λ row,
      for_ (seqZ 0 gridSize) (λ col,
        if Z.land (row + col) 1 =? 0
        then CalculatePressure cellValues horizontalArrows verticalArrows row col
        else ret tt)) in
  for_ (seqZ 0 gridSize) (λ row,
    for_ (seqZ 0 gridSize) (λ col,
      if Z.land (row + col) 1 =? 1
      then CalculatePressure cellValues horizontalArrows verticalArrows row col
      else ret tt)).

Definition lerp (a b t : float) : float := (a + (b - a) * t)%js.

Definition GetVelocityXAtLocalPos
    (localPos : float * float) (horizontalArrows : nat) : M float :=
  let px := localPos.1 in
  let py := (localPos.2 - lit 5 10)%js in
  let left := Math_floor px in
  let right := (left + ofZ 1)%js in
  let bottom := Math_floor py in
  let top := (bottom + ofZ 1)%js in
  let left := Math_max (ofZ 0) (Math_min (ofZ 8) left) in
  let right := Math_max (ofZ 0) (Math_min (ofZ 8) right) in
  let bottom := Math_max (ofZ 0) (Math_min (ofZ 7) bottom) in
  let top := Math_max (ofZ 0) (Math_min (ofZ 7) top) in
  let xFrac := (px - Math_floor px)%js in
  let yFrac := (py - Math_floor py)%js in
  let* tl := rd horizontalArrows top left in
  let* tr := rd horizontalArrows top right in
  let valueTop := lerp tl tr xFrac in
  let* bl := rd horizontalArrows bottom left in
  let* br := rd horizontalArrows bottom right in
  let valueBottom := lerp bl br xFrac in
  ret (lerp valueBottom valueTop yFrac).

Definition GetVelocityYAtLocalPos
    (localPos : float * float) (verticalArrows : nat) : M float :=
  let px := (localPos.1 - lit 5 10)%js in
  let py := localPos.2 in
  let left := Math_floor px in
  let right := (left + ofZ 1)%js in
  let bottom := Math_floor py in
  let top := (bottom + ofZ 1)%js in
  let left := Math_max (ofZ 0) (Math_min (ofZ 7) left) in
  let right := Math_max (ofZ 0) (Math_min (ofZ 7) right) in
  let bottom := Math_max (ofZ 0) (Math_min (ofZ 8) bottom) in
  let top := Math_max (ofZ 0) (Math_min (ofZ 8) top) in
  let xFrac := (px - Math_floor px)%js in
  let yFrac := (py - Math_floor py)%js in
  let* tl := rd verticalArrows top left in
  let* tr := rd verticalArrows top right in
  let valueTop := lerp tl tr xFrac in
  let* bl := rd verticalArrows bottom left in
  let* br := rd verticalArrows bottom right in
  let valueBottom := lerp bl br xFrac in
  ret (lerp valueBottom valueTop yFrac).

Definition AdvectVelocities
    (horizontalArrows horizontalArrowsTemp
     verticalArrows verticalArrowsTemp : nat) : M unit :=
  let* _ :=
    for_ (seqZ 0 (gridSize + 1)) (λ row,
      for_ (seqZ 0 gridSize) (λ col,
        let pos := ((ofZ col + lit 5 10)%js, ofZ row) in
        let* velX := GetVelocityXAtLocalPos pos horizontalArrows in
        let* velY := GetVelocityYAtLocalPos pos verticalArrows in
        let pos := ((pos.1 - DELTA_TIME * velX)%js,
                    (pos.2 - DELTA_TIME * velY)%js) in
        let* newVel := GetVelocityYAtLocalPos pos verticalArrows in
        wr verticalArrowsTemp (ofZ row) (ofZ col) newVel)) in
  let* _ :=
    for_ (seqZ 0 gridSize) (λ row,
      for_ (seqZ 0 (gridSize + 1)) (λ col,
        let pos := (ofZ col, (ofZ row + lit 5 10)%js) in
        let* velX := GetVelocityXAtLocalPos pos horizontalArrows in
        let* velY := GetVelocityYAtLocalPos pos verticalArrows in
        let pos := ((pos.1 - DELTA_TIME * velX)%js,
                    (pos.2 - DELTA_TIME * velY)%js) in
        let* newVel := GetVelocityXAtLocalPos pos horizontalArrows in
        wr horizontalArrowsTemp (ofZ row) (ofZ col) newVel)) in
  let* _ :=
    for_ (seqZ 0 (gridSize + 1)) (λ row,
      for_ (seqZ 0 gridSize) (λ col,
        let* x := rd verticalArrowsTemp (ofZ row) (ofZ col) in
        wr verticalArrows (ofZ row) (ofZ col) x)) in
  for_ (seqZ 0 gridSize) (λ row,
    for_ (seqZ 0 (gridSize + 1)) (λ col,
      let* x := rd horizontalArrowsTemp (ofZ row) (ofZ col) in
      wr horizontalArrows (ofZ row) (ofZ col) x)).

(** ** States and results *)

(** [rows] by [cols] array of zeros. *)
Definition zeros (rows cols : nat) : grid := replicate rows (replicate cols (ofZ 0)).

(** [g] with [x] at row [r], column [c]. *)
Definition setCell (g : grid) (r c : nat) (x : float) : grid :=
  alter (<[c := x]>) r g.

(** The heap with the pressure at location 0, the horizontal arrows and
    their temporary at 1 and 2, the vertical arrows and theirs at 3 and 4. *)
Definition state (p hv ht vv vt : grid) : heap :=
  λ l, match l with
       | 0%nat => p | 1%nat => hv | 2%nat => ht | 3%nat => vv | 4%nat => vt
       | _ => []
       end.

(** The literal [1e308]. *)
Definition huge : float := ofZ (10 ^ 308).

(** All zero but for the face velocity [hVel[0][1] = 1e308]. *)
Definition hugeArrow : heap :=
  state (zeros 8 8) (setCell (zeros 8 9) 0 1 huge) (zeros 8 9)
        (zeros 9 8) (zeros 9 8).

(** All zero but for [vVel[1][0] = 1e308] and [vVel[1][1] = -1e308]. *)
Definition shearFlow : heap :=
  state (zeros 8 8) (zeros 8 9) (zeros 8 9)
        (setCell (setCell (zeros 9 8) 1 0 huge) 1 1 (SFopp huge)) (zeros 9 8).

(** All zero, the boundary faces too, but for [hVel[0][1] = -1e308] and
    [hVel[0][2] = 1e308]. *)
Definition shearAtWall : heap :=
  state (zeros 8 8)
        (setCell (setCell (zeros 8 9) 0 1 (SFopp huge)) 0 2 huge) (zeros 8 9)
        (zeros 9 8) (zeros 9 8).

(** All zero but for the face velocity [hVel[r][c] = v]. *)
Definition singleArrow (r c : Z) (v : float) : heap :=
  state (zeros 8 8) (setCell (zeros 8 9) (Z.to_nat r) (Z.to_nat c) v)
        (zeros 8 9) (zeros 9 8) (zeros 9 8).

(** [x < 0] and [0 < x], as tests on a result. *)
Definition negative (x : option float) : bool :=
  match x with Some y => SFltb y (ofZ 0) | None => false end.

Definition positive (x : option float) : bool :=
  match x with Some y => SFltb (ofZ 0) y | None => false end.

(** The smallest positive double. *)
Definition tiny : float := S754_finite false 1 (-1074).

(** The pressures on the left and on the right of the face [(r, c)] after
    one sweep from [singleArrow r c v]: negative and positive? *)
Definition oppositeSigns (v : float) (rc : Z * Z) : bool :=
  match SolvePressureRedBlack 0 1 3 (singleArrow rc.1 rc.2 v) with
  | Some (_, h') =>
      negative (at2 (h' 0%nat) (ofZ rc.1) (ofZ (rc.2 - 1)))
      && positive (at2 (h' 0%nat) (ofZ rc.1) (ofZ rc.2))
  | None => false
  end.

(** [x == 0], as a test on a result. *)
Definition zero (x : option float) : bool :=
  match x with Some y => SFeqb y (ofZ 0) | None => false end.

(** Every boundary face velocity is zero, as a test. *)
Definition wallsZero (h : heap) : bool :=
  forallb (λ row, zero (at2 (h 1%nat) (ofZ row) (ofZ 0))
                  && zero (at2 (h 1%nat) (ofZ row) (ofZ gridSize)))
          (seqZ 0 gridSize)
  && forallb (λ col, zero (at2 (h 3%nat) (ofZ 0) (ofZ col))
                     && zero (at2 (h 3%nat) (ofZ gridSize) (ofZ col)))
             (seqZ 0 gridSize).

(** The literal [1e300]. *)
Definition large : float := ofZ (10 ^ 300).

(** The numbers of [shearFlow] and [shearAtWall] at 1e300 instead of 1e308;
    every boundary face velocity is zero. *)
Definition shearWithinRange : heap :=
  state (zeros 8 8)
        (setCell (setCell (zeros 8 9) 0 1 (SFopp large)) 0 2 large) (zeros 8 9)
        (setCell (setCell (zeros 9 8) 1 0 large) 1 1 (SFopp large)) (zeros 9 8).

(** The element [(r, c)] of the array at [a] after running [m] from [h];
    [None] if [m] throws. *)
Definition after (m : M unit) (h : heap) (a : nat) (r c : Z) : option float :=
  match m h with
  | Some (_, h') => at2 (h' a) (ofZ r) (ofZ c)
  | None => None
  end.

End Binary64.

(** * Properties *)

(** ** The solver on doubles at large numbers *)

(** For the face velocity [hVel[0][1] = 1] the doubles are the exact
    numbers: -75/8 on the left of the face and 225/32 on its right. *)
Lemma doubles_agree_on_unit_arrow :
  Binary64.after (Binary64.SolvePressureRedBlack 0 1 3)
    (Binary64.singleArrow 0 1 (Binary64.ofZ 1)) 0 0 0
  = Some (Binary64.lit (-75) 8) ∧
  Binary64.after (Binary64.SolvePressureRedBlack 0 1 3)
    (Binary64.singleArrow 0 1 (Binary64.ofZ 1)) 0 0 1
  = Some (Binary64.lit 225 32).
Proof. split; by vm_compute. Qed.

(** The response to a single face velocity is not of opposite signs for
    every positive velocity.  With the face velocity [hVel[0][1] = 1e308]
    the term [0.6 * 1.0 * 1e308 / 0.016] overflows:
    the sweep leaves [-Infinity] in the cell on the left of the face and
    [NaN], which is not a positive number, in the cell on its right. *)
Lemma single_face_response_overflows :
  Binary64.after (Binary64.SolvePressureRedBlack 0 1 3)
    Binary64.hugeArrow 0 0 0 = Some (S754_infinity true) ∧
  Binary64.after (Binary64.SolvePressureRedBlack 0 1 3)
    Binary64.hugeArrow 0 0 1 = Some Binary64.NaN ∧
  Binary64.positive
    (Binary64.after (Binary64.SolvePressureRedBlack 0 1 3)
       Binary64.hugeArrow 0 0 1) = false.
Proof. split_and!; by vm_compute. Qed.

(** For the smallest positive double and for 1e300 as the face velocity,
    the doubles have the signs of the exact numbers, for each of the 56
    interior faces. *)
Lemma single_face_response_on_doubles :
  forallb (Binary64.oppositeSigns Binary64.tiny)
    (list_prod (seqZ 0 8) (seqZ 1 7)) = true ∧
  forallb (Binary64.oppositeSigns Binary64.large)
    (list_prod (seqZ 0 8) (seqZ 1 7)) = true.
Proof. split; vm_cast_no_check (eq_refl true). Qed.

(** The sample of the vertical velocity between [vVel[1][0] = 1e308] and
    [vVel[1][1] = -1e308]: their difference overflows, and the sample at the
    position of the sample [vVel[0][0]] is [NaN]. *)
Lemma sample_overflows :
  Binary64.GetVelocityYAtLocalPos (Binary64.lit 5 10, Binary64.ofZ 0) 3
    Binary64.shearFlow
  = Some (Binary64.NaN, Binary64.shearFlow).
Proof. vm_compute. reflexivity. Qed.

(** [AdvectVelocities] can fault.  On arrays of the allocated shapes that
    hold the finite numbers [vVel[1][0] = 1e308] and [vVel[1][1] = -1e308],
    the backtracked position is [NaN], so is the row index, and
    [AdvectVelocities] throws. *)
Lemma AdvectVelocities_faults_on_overflow :
  Binary64.AdvectVelocities 1 2 3 4 Binary64.shearFlow = None.
Proof. by vm_compute. Qed.

(** With the numbers of [shearFlow] and [shearAtWall] at 1e300 instead of
    1e308, [AdvectVelocities] on doubles returns and leaves every boundary
    face velocity zero. *)
Lemma AdvectVelocities_on_doubles_within_range :
  match Binary64.AdvectVelocities 1 2 3 4 Binary64.shearWithinRange with
  | Some (_, h') => Binary64.wallsZero h'
  | None => false
  end = true.
Proof. vm_cast_no_check (eq_refl true). Qed.

(** With every boundary face velocity zero, [hVel[0][1] = -1e308] and
    [hVel[0][2] = 1e308], [AdvectVelocities] returns and leaves [NaN] in the
    boundary face [vVel[0][1]]: keeping the boundary zero needs a bound on
    the magnitudes. *)
Lemma AdvectVelocities_overflow_reaches_wall :
  Binary64.after (Binary64.AdvectVelocities 1 2 3 4)
    Binary64.shearAtWall 3 0 1 = Some Binary64.NaN.
Proof. by vm_compute. Qed.

(** ** Array facts *)

Lemma idx_Some {A} (l : list A) (i : Z) :
  0 ≤ i < Z.of_nat (length l) → ∃ x, idx l i = Some x ∧ l !! Z.to_nat i = Some x.
Proof.
  intros Hi. unfold idx. rewrite decide_True by lia.
  destruct (lookup_lt_is_Some_2 l (Z.to_nat i)) as [x Hx]; [lia|]. eauto.
Qed.

Lemma shape_row rows cols g i rw :
  shape rows cols g → g !! i = Some rw → length rw = cols.
Proof.
  intros [_ Hall] Hrw. rewrite Forall_lookup in Hall. exact (Hall i rw Hrw).
Qed.

Lemma at2_inside rows cols g r c :
  shape rows cols g → inside rows cols r c → at2 g r c = Some (getd g r c).
Proof.
  intros Hs [Hr Hc]. unfold getd, at2.
  destruct (idx_Some g r) as (rw & -> & Hrw); [destruct Hs as [-> _]; lia|].
  simpl. pose proof (shape_row _ _ _ _ _ Hs Hrw) as Hlen.
  destruct (idx_Some rw c) as (x & -> & _); [lia|]. done.
Qed.

Lemma store2_inside rows cols g r c x :
  shape rows cols g → inside rows cols r c → store2 g r c x = Some (put2 g r c x).
Proof.
  intros Hs [Hr Hc]. unfold put2, store2.
  destruct (idx_Some g r) as (rw & -> & Hrw); [destruct Hs as [-> _]; lia|].
  simpl. pose proof (shape_row _ _ _ _ _ Hs Hrw) as Hlen.
  rewrite decide_True by lia. done.
Qed.

Lemma shape_put2 rows cols g r c x :
  shape rows cols g → shape rows cols (put2 g r c x).
Proof.
  intros Hs. unfold put2, store2, idx.
  destruct (decide (0 ≤ r)); [|exact Hs].
  destruct (g !! Z.to_nat r) as [rw|] eqn:Hrw; [|exact Hs]. simpl.
  destruct (decide _); [|exact Hs]. simpl.
  destruct Hs as [Hlen Hall]. split; [by rewrite length_insert|].
  apply Forall_insert; [done|]. rewrite length_insert.
  rewrite Forall_lookup in Hall. exact (Hall _ _ Hrw).
Qed.

Lemma at2_put2_eq rows cols g r c x :
  shape rows cols g → inside rows cols r c → at2 (put2 g r c x) r c = Some x.
Proof.
  intros Hs Hin. pose proof Hin as [Hr Hc].
  unfold put2, store2.
  destruct (idx_Some g r) as (rw & Hi & Hrw); [destruct Hs as [-> _]; lia|].
  rewrite Hi. simpl.
  pose proof (shape_row _ _ _ _ _ Hs Hrw) as Hlen.
  rewrite decide_True by lia. simpl.
  unfold at2, idx. rewrite decide_True by lia.
  rewrite list_lookup_insert_eq by (apply lookup_lt_Some in Hrw; lia).
  simpl. rewrite decide_True by lia.
  by rewrite list_lookup_insert_eq by lia.
Qed.

Lemma at2_put2_ne g r c x r' c' :
  (r, c) ≠ (r', c') → at2 (put2 g r c x) r' c' = at2 g r' c'.
Proof.
  intros Hne. unfold put2, store2.
  unfold idx at 1. destruct (decide (0 ≤ r)) as [Hr|]; [|done].
  destruct (g !! Z.to_nat r) as [rw|] eqn:Hrw; [|done]. simpl.
  destruct (decide _) as [Hc|]; [|done]. simpl.
  unfold at2, idx. destruct (decide (0 ≤ r')) as [Hr'|]; [|done].
  destruct (decide (r = r')) as [<-|Hrr].
  - rewrite list_lookup_insert_eq by (apply lookup_lt_Some in Hrw; lia).
    rewrite Hrw. simpl. destruct (decide (0 ≤ c')); [|done].
    apply list_lookup_insert_ne. intros Heq.
    apply Hne. f_equal. lia.
  - rewrite list_lookup_insert_ne by lia. done.
Qed.

Lemma getd_put2_eq rows cols g r c x :
  shape rows cols g → inside rows cols r c → getd (put2 g r c x) r c = x.
Proof. intros Hs Hin. unfold getd. by erewrite at2_put2_eq. Qed.

Lemma getd_put2_ne g r c x r' c' :
  (r, c) ≠ (r', c') → getd (put2 g r c x) r' c' = getd g r' c'.
Proof. intros Hne. unfold getd. by rewrite at2_put2_ne. Qed.

Lemma shape_tabulate rows cols f : shape rows cols (tabulate rows cols f).
Proof.
  unfold tabulate. split.
  - rewrite length_fmap, length_seqZ. lia.
  - apply Forall_fmap, Forall_forall. intros r _. simpl.
    rewrite length_fmap, length_seqZ. lia.
Qed.

Lemma getd_tabulate rows cols f r c :
  inside rows cols r c → getd (tabulate rows cols f) r c = f r c.
Proof.
  intros [Hr Hc]. unfold getd, at2, idx, tabulate.
  rewrite decide_True by lia. rewrite list_lookup_fmap.
  rewrite lookup_seqZ_lt by lia. simpl.
  rewrite decide_True by lia. rewrite list_lookup_fmap.
  rewrite lookup_seqZ_lt by lia. simpl. f_equal; lia.
Qed.

(** Two arrays of one shape with the same cells are the same array. *)
Lemma grid_ext rows cols g1 g2 :
  shape rows cols g1 → shape rows cols g2 →
  (∀ r c, inside rows cols r c → getd g1 r c = getd g2 r c) → g1 = g2.
Proof.
  intros Hs1 Hs2 Hcells. apply list_eq. intros i.
  destruct (decide (i < rows)%nat) as [Hi|Hi].
  2:{ rewrite !lookup_ge_None_2; [done| |];
      [destruct Hs2 as [-> _]|destruct Hs1 as [-> _]]; lia. }
  destruct (lookup_lt_is_Some_2 g1 i) as [rw1 H1]; [destruct Hs1 as [-> _]; lia|].
  destruct (lookup_lt_is_Some_2 g2 i) as [rw2 H2]; [destruct Hs2 as [-> _]; lia|].
  rewrite H1, H2. f_equal. apply list_eq. intros j.
  pose proof (shape_row _ _ _ _ _ Hs1 H1) as L1.
  pose proof (shape_row _ _ _ _ _ Hs2 H2) as L2.
  destruct (decide (j < cols)%nat) as [Hj|Hj].
  2:{ rewrite !lookup_ge_None_2; [done|lia|lia]. }
  assert (Hin : inside rows cols (Z.of_nat i) (Z.of_nat j)) by (unfold inside; lia).
  specialize (Hcells _ _ Hin).
  pose proof (at2_inside _ _ _ _ _ Hs1 Hin) as A1.
  pose proof (at2_inside _ _ _ _ _ Hs2 Hin) as A2.
  unfold at2, idx in A1, A2. rewrite !decide_True, !Nat2Z.id in A1, A2 by lia.
  rewrite H1 in A1. rewrite H2 in A2.
  simpl in A1, A2. rewrite !decide_True in A1, A2 by lia.
  congruence.
Qed.

Lemma shape_constGrid rows cols x : shape rows cols (constGrid rows cols x).
Proof.
  unfold constGrid. split; [apply length_replicate|].
  apply Forall_replicate, length_replicate.
Qed.

Lemma getd_constGrid rows cols x r c :
  inside rows cols r c → getd (constGrid rows cols x) r c = x.
Proof.
  intros [Hr Hc]. unfold getd, at2, idx, constGrid.
  rewrite decide_True by lia. rewrite lookup_replicate_2 by lia. simpl.
  rewrite decide_True by lia. by rewrite lookup_replicate_2 by lia.
Qed.

(** A shape fixes the number of rows and columns (for non-empty arrays). *)
Lemma shape_inj rows cols rows' cols' g :
  (0 < rows)%nat → shape rows cols g → shape rows' cols' g →
  rows = rows' ∧ cols = cols'.
Proof.
  intros Hpos [L1 A1] [L2 A2]. split; [congruence|].
  destruct g as [|rw g]; [simpl in L1; lia|].
  apply Forall_cons_1 in A1 as [? _]. apply Forall_cons_1 in A2 as [? _]. congruence.
Qed.

(** ** Running reads, writes and loops *)

Lemma rd_inside rows cols a r c (h : heap) :
  shape rows cols (h a) → inside rows cols r c →
  rd a r c h = Some (getd (h a) r c, h).
Proof. intros Hs Hin. unfold rd. by erewrite at2_inside. Qed.

Lemma wr_inside rows cols a r c x (h : heap) :
  shape rows cols (h a) → inside rows cols r c →
  wr a r c x h = Some (tt, <[a := put2 (h a) r c x]> h).
Proof. intros Hs Hin. unfold wr. by erewrite store2_inside. Qed.

Lemma bind_Some {A B} (m : M A) (k : A → M B) (h h' : heap) x :
  m h = Some (x, h') → bind m k h = k x h'.
Proof. intros Hm. unfold bind. by rewrite Hm. Qed.

(** A loop whose iterations all succeed, each doing [step], does the fold of
    [step]; [Inv] is what the iterations need and keep. *)
Lemma for_foldl {A} (Inv : heap → Prop) (body : A → M unit)
    (step : heap → A → heap) (l : list A) (h : heap) :
  (∀ i h, i ∈ l → Inv h → body i h = Some (tt, step h i) ∧ Inv (step h i)) →
  Inv h →
  for_ l body h = Some (tt, foldl step h l) ∧ Inv (foldl step h l).
Proof.
  revert h. induction l as [|i l IH]; intros h Hbody Hinv; [done|].
  destruct (Hbody i h) as [Hrun Hinv']; [left|done|].
  simpl. rewrite (bind_Some _ _ _ _ _ Hrun).
  apply IH; [|done]. intros j h' Hj. apply Hbody. by right.
Qed.

Lemma for_app {A} (l1 l2 : list A) (body : A → M unit) (h : heap) :
  for_ (l1 ++ l2) body h = (let* _ := for_ l1 body in for_ l2 body) h.
Proof.
  revert h. induction l1 as [|i l1 IH]; intros h; simpl; [done|].
  unfold bind in *. destruct (body i h) as [[[] h']|]; [|done].
  apply IH.
Qed.

Lemma for_fmap {A B} (f : A → B) (l : list A) (body : B → M unit) (h : heap) :
  for_ (f <$> l) body h = for_ l (λ i, body (f i)) h.
Proof.
  revert h. induction l as [|i l IH]; intros h; simpl; [done|].
  unfold bind. destruct (body (f i) h) as [[[] h']|]; [|done]. apply IH.
Qed.

(** A loop nest over rows and columns visits the cells in row-major order. *)
Lemma for_nested {A B} (l1 : list A) (l2 : list B) (body : A → B → M unit)
    (h : heap) :
  for_ l1 (λ r, for_ l2 (body r)) h
  = for_ (list_prod l1 l2) (λ rc, body rc.1 rc.2) h.
Proof.
  revert h. induction l1 as [|i l1 IH]; intros h; simpl; [done|].
  rewrite for_app. unfold bind.
  change (map (λ y : B, (i, y)) l2) with ((λ y : B, (i, y)) <$> l2).
  rewrite for_fmap. simpl.
  destruct (for_ l2 _ h) as [[[] h']|]; [|done]. apply IH.
Qed.

Lemma elem_of_cells rows cols r c :
  (r, c) ∈ cells (Z.of_nat rows) (Z.of_nat cols) ↔ inside rows cols r c.
Proof.
  unfold cells, inside. rewrite list_elem_of_In, in_prod_iff.
  rewrite <- !list_elem_of_In, !elem_of_seqZ. lia.
Qed.

Lemma inb_true rc l : inb rc l = true ↔ rc ∈ l.
Proof.
  unfold inb. rewrite existsb_exists. split.
  - intros ([r c] & Hin & Heq). apply list_elem_of_In.
    apply andb_true_iff in Heq as [H1%Z.eqb_eq H2%Z.eqb_eq].
    simpl in *. destruct rc; simpl in *; by subst.
  - intros Hin. exists rc. rewrite <- list_elem_of_In. split; [done|].
    by rewrite !Z.eqb_refl.
Qed.

Lemma inb_false rc l : inb rc l = false ↔ rc ∉ l.
Proof. rewrite <- inb_true. by destruct (inb rc l). Qed.

Lemma insideb_true rows cols rc :
  insideb rows cols rc = true ↔ inside rows cols rc.1 rc.2.
Proof. unfold insideb, inside. rewrite !andb_true_iff. lia. Qed.

Lemma withinb_true rows cols lo hi g :
  withinb rows cols lo hi g = true → within rows cols lo hi g.
Proof.
  unfold withinb. rewrite forallb_forall. intros Hall r c Hin.
  assert (Hel : In (r, c) (cells (Z.of_nat rows) (Z.of_nat cols)))
    by (by apply list_elem_of_In, elem_of_cells).
  apply Hall in Hel. cbn [fst snd] in Hel.
  apply andb_true_iff in Hel as [Hlo Hhi].
  split; unfold Qcle; by apply Qle_bool_iff.
Qed.

(** *** Loops that overwrite one array cell by cell *)

Section WriteLoop.
(** The loop stores [f h (r, c)] into cell [(r, c)] of the array at [a],
    where [f h rc] reads of that array at most the cells [deps rc]. *)
Variables (a : loc) (rows cols : nat).
Variable f : heap → Z * Z → Qc.
Variable deps : Z * Z → list (Z * Z).

Hypothesis f_frame : ∀ (h h' : heap) rc,
  (∀ l, l ≠ a → h' l = h l) →
  (∀ d, d ∈ deps rc → getd (h' a) d.1 d.2 = getd (h a) d.1 d.2) →
  f h' rc = f h rc.

Lemma foldl_wstep_gen (h0 : heap) cs : ∀ done (h : heap),
  shape rows cols (h a) →
  (∀ l, l ≠ a → h l = h0 l) →
  (∀ rc, rc ∉ done → getd (h a) rc.1 rc.2 = getd (h0 a) rc.1 rc.2) →
  (∀ rc, rc ∈ done → getd (h a) rc.1 rc.2 = f h0 rc) →
  ordered deps done cs = true →
  forallb (insideb rows cols) cs = true →
  let h' := foldl (wstep a f) h cs in
  shape rows cols (h' a) ∧
  (∀ l, l ≠ a → h' l = h0 l) ∧
  (∀ rc, rc ∉ done ++ cs → getd (h' a) rc.1 rc.2 = getd (h0 a) rc.1 rc.2) ∧
  (∀ rc, rc ∈ done ++ cs → getd (h' a) rc.1 rc.2 = f h0 rc).
Proof.
  induction cs as [|rc cs IH]; intros done h Hs Hframe Hold Hnew Hord Hin.
  { simpl. rewrite app_nil_r. done. }
  simpl in Hord, Hin.
  apply andb_true_iff in Hord as [Hord Hord'].
  apply andb_true_iff in Hord as [Hfresh Hdeps].
  apply andb_true_iff in Hin as [Hrc Hin].
  apply negb_true_iff, inb_false in Hfresh.
  apply insideb_true in Hrc.
  assert (Hf : f h rc = f h0 rc).
  { apply f_frame; [done|]. intros d Hd. apply Hold.
    rewrite forallb_forall in Hdeps. apply inb_false, negb_true_iff.
    apply Hdeps. by apply list_elem_of_In. }
  specialize (IH (rc :: done) (wstep a f h rc)). simpl.
  destruct IH as (IHs & IHframe & IHold & IHnew); try done.
  - unfold wstep. rewrite fn_lookup_insert. by apply shape_put2.
  - intros l Hl. unfold wstep. rewrite fn_lookup_insert_ne by done. by apply Hframe.
  - intros rc' Hrc'. unfold wstep. rewrite fn_lookup_insert.
    rewrite getd_put2_ne.
    + apply Hold. intros ?. apply Hrc'. by right.
    + intros Heq. apply Hrc'. destruct rc, rc'; simpl in *.
      injection Heq as -> ->. left.
  - intros rc' Hrc'. unfold wstep. rewrite fn_lookup_insert.
    destruct (decide (rc' = rc)) as [->|Hne].
    + by erewrite getd_put2_eq.
    + rewrite getd_put2_ne.
      * apply Hnew. by apply elem_of_cons in Hrc' as [?|?].
      * intros Heq. apply Hne. destruct rc, rc'; simpl in *. congruence.
  - split_and!; [done|done| |].
    + intros rc' Hrc'. apply IHold. intros Hel. apply Hrc'.
      rewrite elem_of_app, elem_of_cons in *. tauto.
    + intros rc' Hrc'. apply IHnew.
      rewrite elem_of_app, elem_of_cons in *. tauto.
Qed.

(** After the loop the visited cells hold [f] of the heap before the loop,
    every other cell and every other array is as before. *)
Lemma foldl_wstep (h : heap) cs :
  shape rows cols (h a) →
  ordered deps [] cs = true →
  forallb (insideb rows cols) cs = true →
  let h' := foldl (wstep a f) h cs in
  (∀ l, l ≠ a → h' l = h l) ∧
  h' a = tabulate rows cols
           (λ r c, if inb (r, c) cs then f h (r, c) else getd (h a) r c).
Proof.
  intros Hs Hord Hin.
  destruct (foldl_wstep_gen h cs [] h) as (Hs' & Hframe & Hold & Hnew);
    try done.
  { intros rc Hrc. by apply elem_of_nil in Hrc. }
  split; [done|].
  apply (grid_ext rows cols); [done|apply shape_tabulate|].
  intros r c Hrc. rewrite getd_tabulate by done.
  destruct (inb (r, c) cs) eqn:Hb.
  - apply inb_true in Hb. exact (Hnew (r, c) Hb).
  - apply inb_false in Hb. exact (Hold (r, c) Hb).
Qed.
End WriteLoop.

(** A guarded loop is the loop over the elements that pass the guard. *)
Lemma for_guard {A} (guard : A → bool) (body : A → M unit) l (h : heap) :
  for_ l (λ i, if guard i then body i else ret tt) h
  = for_ (List.filter guard l) body h.
Proof.
  revert h. induction l as [|i l IH]; intros h; simpl; [done|].
  destruct (guard i); simpl.
  - unfold bind. destruct (body i h) as [[[] h']|]; [|done]. apply IH.
  - apply IH.
Qed.

Lemma tabulate_ext rows cols f g :
  (∀ r c, inside rows cols r c → f r c = g r c) →
  tabulate rows cols f = tabulate rows cols g.
Proof.
  intros Hfg. apply (grid_ext rows cols); try apply shape_tabulate.
  intros r c Hin. rewrite !getd_tabulate by done. by apply Hfg.
Qed.

Lemma inb_cells rows cols r c :
  inside rows cols r c → inb (r, c) (cells (Z.of_nat rows) (Z.of_nat cols)) = true.
Proof. intros Hin. by apply inb_true, elem_of_cells. Qed.

Lemma inb_filter_cells (guard : Z * Z → bool) rows cols r c :
  inside rows cols r c →
  inb (r, c) (List.filter guard (cells (Z.of_nat rows) (Z.of_nat cols)))
  = guard (r, c).
Proof.
  intros Hin. destruct (guard (r, c)) eqn:Hg.
  - apply inb_true, list_elem_of_In, filter_In. split; [|done].
    by apply list_elem_of_In, elem_of_cells.
  - apply inb_false. intros Hel%list_elem_of_In%filter_In. destruct Hel. congruence.
Qed.

(** *** Heaps with arrays of the expected shapes *)

Lemma shaped_lookup req (h : heap) l rows cols :
  shaped req h → (l, rows, cols) ∈ req → shape rows cols (h l).
Proof.
  intros Hsh Hel. unfold shaped in Hsh. rewrite Forall_forall in Hsh.
  apply list_elem_of_In in Hel. exact (Hsh _ Hel).
Qed.

Lemma shape_transfer rows cols rows' cols' g0 g :
  shape rows cols g0 → shape rows' cols' g0 → shape rows cols g →
  shape rows' cols' g.
Proof.
  intros [L0 A0] [L0' A0'] [L A]. split; [congruence|].
  destruct g0 as [|rw0 g0].
  - destruct g; [constructor|]. simpl in *. congruence.
  - apply Forall_cons_1 in A0 as [? _]. apply Forall_cons_1 in A0' as [? _].
    by replace cols' with cols by congruence.
Qed.

(** Replacing an array by one of the same shape keeps the heap shaped. *)
Lemma shaped_insert req (h : heap) a rows cols g :
  shaped req h → shape rows cols (h a) → shape rows cols g →
  shaped req (<[a := g]> h).
Proof.
  intros Hsh Ha Hg. unfold shaped in *. eapply Forall_impl; [|exact Hsh].
  intros [[l rows'] cols'] Hl. simpl in *.
  destruct (decide (l = a)) as [->|Hne].
  - rewrite fn_lookup_insert. exact (shape_transfer _ _ _ _ _ _ Ha Hl Hg).
  - by rewrite fn_lookup_insert_ne.
Qed.

Section RunWriteLoop.
Variables (a : loc) (rows cols : nat).
Variable f : heap → Z * Z → Qc.
Variable deps : Z * Z → list (Z * Z).
Variable req : list (loc * nat * nat).
Variable body : Z * Z → M unit.

Hypothesis f_frame : ∀ (h h' : heap) rc,
  (∀ l, l ≠ a → h' l = h l) →
  (∀ d, d ∈ deps rc → getd (h' a) d.1 d.2 = getd (h a) d.1 d.2) →
  f h' rc = f h rc.
Hypothesis req_a : (a, rows, cols) ∈ req.
Hypothesis body_run : ∀ (h : heap) rc,
  shaped req h → inside rows cols rc.1 rc.2 →
  body rc h = Some (tt, wstep a f h rc).

(** The loop over [cs] runs without a fault and overwrites exactly the
    cells [cs] of the array at [a], each with [f] of the heap before the
    loop. *)
Lemma write_loop (h : heap) cs :
  shaped req h →
  ordered deps [] cs = true →
  forallb (insideb rows cols) cs = true →
  ∃ h' : heap,
    for_ cs body h = Some (tt, h') ∧ shaped req h' ∧
    (∀ l, l ≠ a → h' l = h l) ∧
    h' a = tabulate rows cols
             (λ r c, if inb (r, c) cs then f h (r, c) else getd (h a) r c).
Proof.
  intros Hsh Hord Hin. exists (foldl (wstep a f) h cs).
  destruct (for_foldl (shaped req) body (wstep a f) cs h) as [Hrun Hsh'].
  - intros rc h1 Hel Hsh1.
    assert (Hrc : inside rows cols rc.1 rc.2).
    { apply insideb_true. rewrite forallb_forall in Hin.
      by apply Hin, list_elem_of_In. }
    split; [by apply body_run|].
    unfold wstep. eapply shaped_insert; [done| |].
    + by eapply shaped_lookup.
    + apply shape_put2. by eapply shaped_lookup.
  - done.
  - destruct (foldl_wstep a rows cols f deps f_frame h cs) as [Hfr Hval];
      try done.
    by eapply shaped_lookup.
Qed.
End RunWriteLoop.

(** ** Pressure relaxation *)

Ltac shape_of l :=
  first
    [ eassumption
    | match goal with
      | H : shaped ?req _ |- shape _ _ _ =>
          eapply (shaped_lookup req _ l); [exact H | by repeat constructor]
      end ].

(** Run one read of a cell that is inside its array. *)
Ltac run_rd :=
  match goal with
  | |- bind (rd ?a ?r ?c) _ ?h = _ =>
      erewrite (bind_Some (rd a r c));
      [| eapply rd_inside; [shape_of a | unfold inside; lia]]
  | |- bind (ret ?x) ?k ?h = _ => change (bind (ret x) k h) with (k x h); cbv beta
  end.

Lemma CalculatePressure_run cv ha va (h : heap) row col :
  shaped (solverShapes cv ha va) h → inside 8 8 row col →
  CalculatePressure cv ha va row col h
  = Some (tt, <[cv := put2 (h cv) row col
                        (relaxCell (h cv) (h ha) (h va) row col)]> h).
Proof.
  intros Hsh [Hr Hc]. unfold CalculatePressure, relaxCell.
  destruct (Z.eqb_spec col 0), (Z.eqb_spec col 7), (Z.eqb_spec row 0),
    (Z.eqb_spec row 7); simpl orb; cbv iota zeta;
    repeat run_rd; (eapply wr_inside; [shape_of cv | unfold inside; lia]).
Qed.

Lemma solver_distinct cv ha va (h : heap) :
  shaped (solverShapes cv ha va) h → cv ≠ ha ∧ cv ≠ va ∧ ha ≠ va.
Proof.
  intros Hsh.
  assert (Hc : shape 8 8 (h cv)) by shape_of cv.
  assert (Hh : shape 8 9 (h ha)) by shape_of ha.
  assert (Hv : shape 9 8 (h va)) by shape_of va.
  split_and!; intros ->.
  - destruct (shape_inj 8 8 8 9 _ ltac:(lia) Hc Hh). lia.
  - destruct (shape_inj 8 8 9 8 _ ltac:(lia) Hc Hv). lia.
  - destruct (shape_inj 8 9 9 8 _ ltac:(lia) Hh Hv). lia.
Qed.

Lemma relaxCell_frame (P P' H V : grid) row col :
  (∀ d, d ∈ neighbours (row, col) → getd P' d.1 d.2 = getd P d.1 d.2) →
  relaxCell P' H V row col = relaxCell P H V row col.
Proof.
  intros Hn. unfold relaxCell.
  assert (Hn' : ∀ r c, (r, c) ∈ neighbours (row, col) → getd P' r c = getd P r c)
    by (intros r c Hd; exact (Hn (r, c) Hd)).
  rewrite (Hn' row (col - 1)), (Hn' row (col + 1)), (Hn' (row - 1) col),
    (Hn' (row + 1) col); [done|..]; unfold neighbours; simpl;
    repeat first [apply list_elem_of_here | apply list_elem_of_further].
Qed.

Lemma halfSweep_run parity cv ha va (h : heap) :
  parity = 0 ∨ parity = 1 →
  shaped (solverShapes cv ha va) h →
  ∃ h' : heap,
    for_ (seqZ 0 gridSize) (λ row,
      for_ (seqZ 0 gridSize) (λ col,
        if Z.land (row + col) 1 =? parity
        then CalculatePressure cv ha va row col
        else ret tt)) h = Some (tt, h') ∧
    shaped (solverShapes cv ha va) h' ∧
    (∀ l, l ≠ cv → h' l = h l) ∧
    h' cv = halfSweep parity (h cv) (h ha) (h va).
Proof.
  intros Hpar Hsh. destruct (solver_distinct _ _ _ _ Hsh) as (Hch & Hcv & _).
  rewrite for_nested.
  rewrite (for_guard (isColor parity)
             (λ rc, CalculatePressure cv ha va rc.1 rc.2)).
  destruct (write_loop cv 8 8
              (λ (h : heap) rc, relaxCell (h cv) (h ha) (h va) rc.1 rc.2)
              neighbours (solverShapes cv ha va)
              (λ rc, CalculatePressure cv ha va rc.1 rc.2)) with
    (h := h) (cs := List.filter (isColor parity) (cells 8 8))
    as (h' & Hrun & Hsh' & Hfr & Hval).
  - intros h1 h2 [r c] Hother Hdeps. simpl.
    rewrite (Hother ha), (Hother va) by done. by apply relaxCell_frame.
  - left.
  - intros h1 [r c] Hsh1 Hin. by apply CalculatePressure_run.
  - done.
  - by destruct Hpar as [-> | ->]; vm_compute.
  - by destruct Hpar as [-> | ->]; vm_compute.
  - exists h'. split_and!; try done. rewrite Hval. unfold halfSweep.
    apply tabulate_ext. intros r c Hin.
    by rewrite (inb_filter_cells (isColor parity) 8 8).
Qed.

(** [SolvePressureRedBlack] runs without a fault on arrays of the right
    shapes, leaves [redBlackSweep] of the old arrays in the pressure array
    and changes nothing else. *)
Lemma SolvePressureRedBlack_run cv ha va (h : heap) :
  shaped (solverShapes cv ha va) h →
  ∃ h' : heap,
    SolvePressureRedBlack cv ha va h = Some (tt, h') ∧
    shaped (solverShapes cv ha va) h' ∧
    (∀ l, l ≠ cv → h' l = h l) ∧
    h' cv = redBlackSweep (h cv) (h ha) (h va).
Proof.
  intros Hsh. destruct (solver_distinct _ _ _ _ Hsh) as (Hch & Hcv & _).
  destruct (halfSweep_run 0 cv ha va h) as (h1 & Hrun1 & Hsh1 & Hfr1 & Hval1);
    [by left|done|].
  destruct (halfSweep_run 1 cv ha va h1) as (h2 & Hrun2 & Hsh2 & Hfr2 & Hval2);
    [by right|done|].
  exists h2. unfold SolvePressureRedBlack.
  rewrite (bind_Some _ _ _ _ _ Hrun1). split_and!; try done.
  - intros l Hl. by rewrite Hfr2, Hfr1.
  - rewrite Hval2, Hval1, !Hfr1 by done. done.
Qed.

(** ** Velocity projection *)

Lemma getd_frame_self (g g' : grid) (rc : Z * Z) :
  (∀ d, d ∈ [rc] → getd g' d.1 d.2 = getd g d.1 d.2) →
  getd g' rc.1 rc.2 = getd g rc.1 rc.2.
Proof. intros Hd. apply (Hd rc). left. Qed.

(** [CalculateVelocities] runs without a fault on arrays of the right shapes,
    leaves [projectV] and [projectH] of the old arrays in the two velocity
    arrays and changes nothing else. *)
Lemma CalculateVelocities_run cv ha va (h : heap) :
  shaped (solverShapes cv ha va) h →
  ∃ h' : heap,
    CalculateVelocities cv ha va h = Some (tt, h') ∧
    shaped (solverShapes cv ha va) h' ∧
    (∀ l, l ≠ ha → l ≠ va → h' l = h l) ∧
    h' va = projectV (h cv) (h va) ∧
    h' ha = projectH (h cv) (h ha).
Proof.
  intros Hsh. destruct (solver_distinct _ _ _ _ Hsh) as (Hch & Hcv & Hhv).
  unfold CalculateVelocities. cbv zeta.
  set (k := (DELTA_TIME / DENSITY)%Qc).
  destruct (write_loop va 9 8
              (λ (h : heap) rc,
                 if (rc.1 =? 0) || (rc.1 =? 8) then num 0.0
                 else (getd (h va) rc.1 rc.2
                       - k * (getd (h cv) rc.1 rc.2 - getd (h cv) (rc.1 - 1) rc.2))%Qc)
              (λ rc, [rc]) (solverShapes cv ha va)
              (λ rc,
                 if (rc.1 =? 0) || (rc.1 =? 8) then wr va rc.1 rc.2 (num 0.0)
                 else
                   let* pCenter := rd cv rc.1 rc.2 in
                   let* pUp := rd cv (rc.1 - 1) rc.2 in
                   let* old := rd va rc.1 rc.2 in
                   wr va rc.1 rc.2 (old - k * (pCenter - pUp))%Qc)) with
    (h := h) (cs := cells 9 8) as (h1 & Hrun1 & Hsh1 & Hfr1 & Hval1).
  { intros h1 h2 rc Hother Hdeps.
    rewrite (Hother cv) by done. by rewrite (getd_frame_self _ _ rc Hdeps). }
  { by repeat constructor. }
  { intros h1 [r c] Hsh1 [Hr Hc]. simpl in *. unfold wstep. simpl.
    destruct (Z.eqb_spec r 0), (Z.eqb_spec r 8); cbn [orb]; cbv beta iota;
      repeat run_rd; (eapply wr_inside; [shape_of va | unfold inside; lia]). }
  { done. }
  { by vm_compute. }
  { by vm_compute. }
  destruct (write_loop ha 8 9
              (λ (h : heap) rc,
                 if (rc.2 =? 0) || (rc.2 =? 8) then num 0.0
                 else (getd (h ha) rc.1 rc.2
                       - k * (getd (h cv) rc.1 rc.2 - getd (h cv) rc.1 (rc.2 - 1)))%Qc)
              (λ rc, [rc]) (solverShapes cv ha va)
              (λ rc,
                 if (rc.2 =? 0) || (rc.2 =? 8) then wr ha rc.1 rc.2 (num 0.0)
                 else
                   let* pCenter := rd cv rc.1 rc.2 in
                   let* pLeft := rd cv rc.1 (rc.2 - 1) in
                   let* old := rd ha rc.1 rc.2 in
                   wr ha rc.1 rc.2 (old - k * (pCenter - pLeft))%Qc)) with
    (h := h1) (cs := cells 8 9) as (h2 & Hrun2 & Hsh2 & Hfr2 & Hval2).
  { intros h3 h4 rc Hother Hdeps.
    rewrite (Hother cv) by done. by rewrite (getd_frame_self _ _ rc Hdeps). }
  { by repeat constructor. }
  { intros h3 [r c] Hsh3 [Hr Hc]. simpl in *. unfold wstep. simpl.
    destruct (Z.eqb_spec c 0), (Z.eqb_spec c 8); cbn [orb]; cbv beta iota;
      repeat run_rd; (eapply wr_inside; [shape_of ha | unfold inside; lia]). }
  { done. }
  { by vm_compute. }
  { by vm_compute. }
  exists h2. split_and!.
  - erewrite bind_Some; [|rewrite for_nested; exact Hrun1].
    rewrite for_nested. exact Hrun2.
  - done.
  - intros l Hlh Hlv. by rewrite Hfr2, Hfr1.
  - rewrite Hfr2, Hval1 by done. unfold projectV. apply tabulate_ext.
    intros r c Hin. by rewrite (inb_cells 9 8).
  - rewrite Hval2, !Hfr1 by done. unfold projectH. apply tabulate_ext.
    intros r c Hin. by rewrite (inb_cells 8 9).
Qed.

(** ** Advection *)

Lemma indicesX_bounds localPos :
  let i := indicesX localPos in
  0 ≤ iLeft i ≤ 8 ∧ 0 ≤ iRight i ≤ 8 ∧ 0 ≤ iBottom i ≤ 7 ∧ 0 ≤ iTop i ≤ 7.
Proof. unfold indicesX. simpl. lia. Qed.

Lemma indicesY_bounds localPos :
  let i := indicesY localPos in
  0 ≤ iLeft i ≤ 7 ∧ 0 ≤ iRight i ≤ 7 ∧ 0 ≤ iBottom i ≤ 8 ∧ 0 ≤ iTop i ≤ 8.
Proof. unfold indicesY. simpl. lia. Qed.

Lemma GetVelocityXAtLocalPos_run localPos ha (h : heap) :
  shape 8 9 (h ha) →
  GetVelocityXAtLocalPos localPos ha h = Some (sampleX (h ha) localPos, h).
Proof.
  intros Hs. pose proof (indicesX_bounds localPos) as Hb. cbv zeta in Hb.
  unfold GetVelocityXAtLocalPos, sampleX. cbv zeta. by repeat run_rd.
Qed.

Lemma GetVelocityYAtLocalPos_run localPos va (h : heap) :
  shape 9 8 (h va) →
  GetVelocityYAtLocalPos localPos va h = Some (sampleY (h va) localPos, h).
Proof.
  intros Hs. pose proof (indicesY_bounds localPos) as Hb. cbv zeta in Hb.
  unfold GetVelocityYAtLocalPos, sampleY. cbv zeta. by repeat run_rd.
Qed.

Lemma advectVertical_run ha va (h : heap) row col :
  shape 8 9 (h ha) → shape 9 8 (h va) →
  advectVertical ha va row col h
  = Some (newVertical (h ha) (h va) row col, h).
Proof.
  intros Hh Hv. unfold advectVertical, newVertical. cbv zeta.
  erewrite bind_Some by by apply GetVelocityXAtLocalPos_run.
  erewrite bind_Some by by apply GetVelocityYAtLocalPos_run.
  by apply GetVelocityYAtLocalPos_run.
Qed.

Lemma advectHorizontal_run ha va (h : heap) row col :
  shape 8 9 (h ha) → shape 9 8 (h va) →
  advectHorizontal ha va row col h
  = Some (newHorizontal (h ha) (h va) row col, h).
Proof.
  intros Hh Hv. unfold advectHorizontal, newHorizontal. cbv zeta.
  erewrite bind_Some by by apply GetVelocityXAtLocalPos_run.
  erewrite bind_Some by by apply GetVelocityYAtLocalPos_run.
  by apply GetVelocityXAtLocalPos_run.
Qed.

Lemma advect_distinct ha ht va vt (h : heap) :
  shaped (advectShapes ha ht va vt) h →
  ha ≠ va ∧ ha ≠ vt ∧ ht ≠ va ∧ ht ≠ vt.
Proof.
  intros Hsh.
  assert (H1 : shape 8 9 (h ha)) by shape_of ha.
  assert (H2 : shape 8 9 (h ht)) by shape_of ht.
  assert (H3 : shape 9 8 (h va)) by shape_of va.
  assert (H4 : shape 9 8 (h vt)) by shape_of vt.
  split_and!; intros ->.
  - destruct (shape_inj 8 9 9 8 _ ltac:(lia) H1 H3). lia.
  - destruct (shape_inj 8 9 9 8 _ ltac:(lia) H1 H4). lia.
  - destruct (shape_inj 8 9 9 8 _ ltac:(lia) H2 H3). lia.
  - destruct (shape_inj 8 9 9 8 _ ltac:(lia) H2 H4). lia.
Qed.

Lemma tabulate_getd rows cols (g : grid) :
  shape rows cols g → tabulate rows cols (getd g) = g.
Proof.
  intros Hs. apply (grid_ext rows cols); [apply shape_tabulate|done|].
  intros r c Hin. by rewrite getd_tabulate.
Qed.

(** With temporaries that are not the live arrays, [AdvectVelocities] runs
    without a fault and leaves in both live arrays (and in both temporaries)
    the per-sample map over the fields before the call. *)
Lemma AdvectVelocities_run ha ht va vt (h : heap) :
  shaped (advectShapes ha ht va vt) h → ht ≠ ha → vt ≠ va →
  ∃ h' : heap,
    AdvectVelocities ha ht va vt h = Some (tt, h') ∧
    shaped (advectShapes ha ht va vt) h' ∧
    (∀ l, l ≠ ha → l ≠ ht → l ≠ va → l ≠ vt → h' l = h l) ∧
    h' ha = advectH (h ha) (h va) ∧ h' va = advectV (h ha) (h va) ∧
    h' ht = advectH (h ha) (h va) ∧ h' vt = advectV (h ha) (h va).
Proof.
  intros Hsh Hht Hvt.
  destruct (advect_distinct _ _ _ _ _ Hsh) as (Hav & Havt & Htv & Htt).
  destruct (write_loop vt 9 8
              (λ (h : heap) rc, newVertical (h ha) (h va) rc.1 rc.2)
              (λ _, []) (advectShapes ha ht va vt)
              (λ rc, let* newVel := advectVertical ha va rc.1 rc.2 in
                     wr vt rc.1 rc.2 newVel)) with
    (h := h) (cs := cells 9 8) as (h1 & Hrun1 & Hsh1 & Hfr1 & Hval1).
  { intros h1 h2 rc Hother _. by rewrite (Hother ha), (Hother va). }
  { by repeat constructor. }
  { intros h1 [r c] Hsh1 Hin. simpl in *.
    erewrite bind_Some by (apply advectVertical_run; [shape_of ha|shape_of va]).
    eapply wr_inside; [shape_of vt|done]. }
  { done. }
  { by vm_compute. }
  { by vm_compute. }
  destruct (write_loop ht 8 9
              (λ (h : heap) rc, newHorizontal (h ha) (h va) rc.1 rc.2)
              (λ _, []) (advectShapes ha ht va vt)
              (λ rc, let* newVel := advectHorizontal ha va rc.1 rc.2 in
                     wr ht rc.1 rc.2 newVel)) with
    (h := h1) (cs := cells 8 9) as (h2 & Hrun2 & Hsh2 & Hfr2 & Hval2).
  { intros h3 h4 rc Hother _. by rewrite (Hother ha), (Hother va). }
  { by repeat constructor. }
  { intros h3 [r c] Hsh3 Hin. simpl in *.
    erewrite bind_Some by (apply advectHorizontal_run; [shape_of ha|shape_of va]).
    eapply wr_inside; [shape_of ht|done]. }
  { done. }
  { by vm_compute. }
  { by vm_compute. }
  destruct (write_loop va 9 8
              (λ (h : heap) rc, getd (h vt) rc.1 rc.2)
              (λ _, []) (advectShapes ha ht va vt)
              (λ rc, let* x := rd vt rc.1 rc.2 in wr va rc.1 rc.2 x)) with
    (h := h2) (cs := cells 9 8) as (h3 & Hrun3 & Hsh3 & Hfr3 & Hval3).
  { intros h3 h4 rc Hother _. by rewrite (Hother vt). }
  { by repeat constructor. }
  { intros h3 [r c] Hsh3 Hin. simpl in *.
    erewrite bind_Some by (eapply rd_inside; [shape_of vt|done]).
    eapply wr_inside; [shape_of va|done]. }
  { done. }
  { by vm_compute. }
  { by vm_compute. }
  destruct (write_loop ha 8 9
              (λ (h : heap) rc, getd (h ht) rc.1 rc.2)
              (λ _, []) (advectShapes ha ht va vt)
              (λ rc, let* x := rd ht rc.1 rc.2 in wr ha rc.1 rc.2 x)) with
    (h := h3) (cs := cells 8 9) as (h4 & Hrun4 & Hsh4 & Hfr4 & Hval4).
  { intros h5 h6 rc Hother _. by rewrite (Hother ht). }
  { by repeat constructor. }
  { intros h5 [r c] Hsh5 Hin. simpl in *.
    erewrite bind_Some by (eapply rd_inside; [shape_of ht|done]).
    eapply wr_inside; [shape_of ha|done]. }
  { done. }
  { by vm_compute. }
  { by vm_compute. }
  assert (Hvt1 : h1 vt = advectV (h ha) (h va)).
  { rewrite Hval1. unfold advectV. apply tabulate_ext. intros r c Hin.
    by rewrite (inb_cells 9 8). }
  assert (Hht2 : h2 ht = advectH (h ha) (h va)).
  { rewrite Hval2, !Hfr1 by done. unfold advectH. apply tabulate_ext.
    intros r c Hin. by rewrite (inb_cells 8 9). }
  assert (Hva3 : h3 va = advectV (h ha) (h va)).
  { rewrite Hval3, Hfr2, Hvt1 by done.
    transitivity (tabulate 9 8 (getd (advectV (h ha) (h va))));
      [|apply tabulate_getd, shape_tabulate].
    apply tabulate_ext. intros r c Hin. by rewrite (inb_cells 9 8). }
  assert (Hha4 : h4 ha = advectH (h ha) (h va)).
  { rewrite Hval4, Hfr3, Hht2 by done.
    transitivity (tabulate 8 9 (getd (advectH (h ha) (h va))));
      [|apply tabulate_getd, shape_tabulate].
    apply tabulate_ext. intros r c Hin. by rewrite (inb_cells 8 9). }
  exists h4. split_and!.
  - unfold AdvectVelocities.
    erewrite bind_Some; [|rewrite for_nested; exact Hrun1].
    erewrite bind_Some; [|rewrite for_nested; exact Hrun2].
    erewrite bind_Some; [|rewrite for_nested; exact Hrun3].
    rewrite for_nested. exact Hrun4.
  - done.
  - intros l ? ? ? ?. by rewrite Hfr4, Hfr3, Hfr2, Hfr1.
  - done.
  - by rewrite Hfr4.
  - by rewrite Hfr4, Hfr3.
  - by rewrite Hfr4, Hfr3, Hfr2.
Qed.

(** ** Equality of concrete numbers and arrays *)

Lemma this_inj (x y : Qc) : this x = this y → x = y.
Proof. intros Heq. apply Qc_is_canon. by rewrite Heq. Qed.

(** Two arrays with the same rationals are the same array; the right-hand
    side is decided by evaluation. *)
Lemma grid_this_inj (g1 g2 : grid) :
  map (map this) g1 = map (map this) g2 → g1 = g2.
Proof.
  revert g2. induction g1 as [|rw1 g1 IH]; intros [|rw2 g2] Heq;
    try done. simpl in Heq. injection Heq as Hrw Hg. f_equal; [|by apply IH].
  clear -Hrw. revert rw2 Hrw.
  induction rw1 as [|x rw1 IH]; intros [|y rw2] Heq; try done.
  simpl in Heq. injection Heq as Hx Hrw. f_equal; [by apply this_inj|by apply IH].
Qed.

Lemma num_zero : num 0.0 = 0%Qc.
Proof. by apply this_inj. Qed.

Lemma DELTA_TIME_nonzero : DELTA_TIME ≠ 0%Qc.
Proof. intros Heq. by apply (f_equal this) in Heq. Qed.

Lemma four_nonzero : num 4.0 ≠ 0%Qc.
Proof. intros Heq. by apply (f_equal this) in Heq. Qed.

(** ** The pressure update against its specification *)

Lemma shaped_onePressure : shaped (solverShapes 0 1 3) onePressure.
Proof. repeat constructor. Qed.

(** One call of [CalculatePressure] replaces the cell by [relaxCell] of the
    arrays and changes nothing else. *)
Lemma CalculatePressure_cell cv ha va (h : heap) row col :
  shaped (solverShapes cv ha va) h → inside 8 8 row col →
  ∃ h' : heap,
    CalculatePressure cv ha va row col h = Some (tt, h') ∧
    getd (h' cv) row col = relaxCell (h cv) (h ha) (h va) row col ∧
    (∀ r c, (r, c) ≠ (row, col) → getd (h' cv) r c = getd (h cv) r c) ∧
    (∀ l, l ≠ cv → h' l = h l).
Proof.
  intros Hsh Hin. eexists. split; [by apply CalculatePressure_run|].
  rewrite fn_lookup_insert. split_and!.
  - eapply getd_put2_eq; [shape_of cv|done].
  - intros r c Hne. by apply getd_put2_ne.
  - intros l Hl. by rewrite fn_lookup_insert_ne.
Qed.

(** Away from the edge rows and columns the stored value is the one of the
    specification. *)
Lemma relaxCell_interior (P H V : grid) row col :
  0 < row < 7 → 0 < col < 7 →
  relaxCell P H V row col = specPressure P H V row col.
Proof.
  intros Hr Hc. unfold relaxCell, specPressure, gridSize.
  destruct (Z.eqb_spec col 0), (Z.eqb_spec col 7), (Z.eqb_spec row 0),
    (Z.eqb_spec row 7); try lia.
  destruct (Z.ltb_spec 0 col), (Z.ltb_spec col (8 - 1)), (Z.ltb_spec 0 row),
    (Z.ltb_spec row (8 - 1)); try lia.
  destruct (Z.eqb_spec col (8 - 1)), (Z.eqb_spec row (8 - 1)); try lia.
  simpl. unfold DENSITY, DELTA_X, DELTA_TIME.
  by replace (num 4.0) with (num 4) by by apply this_inj.
Qed.

(** C1. On an edge column the code drops the neighbour that is inside the
    grid too: in the state whose only non-zero pressure is [pressure[0][1] = 1],
    [CalculatePressure] at cell [(0, 0)] runs and stores 0, while the update
    of the specification, which reads the right neighbour because
    [col < N - 1], gives 1/4. *)
Theorem CalculatePressure_drops_inner_neighbour :
  (∃ h' : heap,
     CalculatePressure 0 1 3 0 0 onePressure = Some (tt, h') ∧
     getd (h' 0%nat) 0 0 = 0%Qc) ∧
  specPressure (onePressure 0%nat) (onePressure 1%nat) (onePressure 3%nat) 0 0
  = num (1 # 4).
Proof.
  split.
  - destruct (CalculatePressure_cell 0 1 3 onePressure 0 0)
      as (h' & Hrun & Hval & _); [apply shaped_onePressure|done|].
    exists h'. split; [done|]. rewrite Hval. by apply this_inj.
  - by apply this_inj.
Qed.

(** ** The projection step *)

(** C3. [CalculateVelocities] subtracts [k] times the pressure difference
    across the face from every vertical sample off the top and bottom
    boundary and from every horizontal sample off the left and right
    boundary, with [k = 0.016 / 0.6]; it stores 0 in the boundary rows and
    columns and leaves the pressure array as it was. *)
Theorem CalculateVelocities_projects cv ha va (h : heap) :
  shaped (solverShapes cv ha va) h →
  let k := (num 0.016 / num 0.6)%Qc in
  ∃ h' : heap,
    CalculateVelocities cv ha va h = Some (tt, h') ∧
    (∀ row col, 0 < row < gridSize → 0 ≤ col < gridSize →
       getd (h' va) row col
       = (getd (h va) row col
          - k * (getd (h cv) row col - getd (h cv) (row - 1) col))%Qc) ∧
    (∀ col, 0 ≤ col < gridSize →
       getd (h' va) 0 col = 0%Qc ∧ getd (h' va) gridSize col = 0%Qc) ∧
    (∀ row col, 0 ≤ row < gridSize → 0 < col < gridSize →
       getd (h' ha) row col
       = (getd (h ha) row col
          - k * (getd (h cv) row col - getd (h cv) row (col - 1)))%Qc) ∧
    (∀ row, 0 ≤ row < gridSize →
       getd (h' ha) row 0 = 0%Qc ∧ getd (h' ha) row gridSize = 0%Qc) ∧
    h' cv = h cv.
Proof.
  intros Hsh k. destruct (solver_distinct _ _ _ _ Hsh) as (Hch & Hcv & Hhv).
  destruct (CalculateVelocities_run cv ha va h Hsh)
    as (h' & Hrun & _ & Hfr & HV & HH).
  exists h'. unfold gridSize. split_and!; try done.
  - intros row col Hr Hc. rewrite HV. unfold projectV.
    rewrite getd_tabulate by (unfold inside; lia).
    destruct (Z.eqb_spec row 0), (Z.eqb_spec row 8); try lia. done.
  - intros col Hc. rewrite HV. unfold projectV.
    rewrite !getd_tabulate by (unfold inside; lia). simpl.
    by rewrite num_zero.
  - intros row col Hr Hc. rewrite HH. unfold projectH.
    rewrite getd_tabulate by (unfold inside; lia).
    destruct (Z.eqb_spec col 0), (Z.eqb_spec col 8); try lia. done.
  - intros row Hr. rewrite HH. unfold projectH.
    rewrite !getd_tabulate by (unfold inside; lia). simpl.
    by rewrite num_zero.
  - by apply Hfr.
Qed.

Lemma CalculateVelocities_projects_witness :
  ∃ h' : heap,
    CalculateVelocities 0 1 3 sampleHeap = Some (tt, h') ∧
    (∀ row col, 0 < row < gridSize → 0 ≤ col < gridSize →
       getd (h' 3%nat) row col
       = (getd (sampleHeap 3%nat) row col
          - (num 0.016 / num 0.6)
            * (getd (sampleHeap 0%nat) row col
               - getd (sampleHeap 0%nat) (row - 1) col))%Qc) ∧
    (∀ col, 0 ≤ col < gridSize →
       getd (h' 3%nat) 0 col = 0%Qc ∧ getd (h' 3%nat) gridSize col = 0%Qc) ∧
    (∀ row col, 0 ≤ row < gridSize → 0 < col < gridSize →
       getd (h' 1%nat) row col
       = (getd (sampleHeap 1%nat) row col
          - (num 0.016 / num 0.6)
            * (getd (sampleHeap 0%nat) row col
               - getd (sampleHeap 0%nat) row (col - 1)))%Qc) ∧
    (∀ row, 0 ≤ row < gridSize →
       getd (h' 1%nat) row 0 = 0%Qc ∧ getd (h' 1%nat) row gridSize = 0%Qc) ∧
    h' 0%nat = sampleHeap 0%nat.
Proof.
  apply (CalculateVelocities_projects 0 1 3 sampleHeap).
  repeat constructor.
Defined.

(** ** The relaxation sweep *)

(** C9. [SolvePressureRedBlack] runs without a fault and writes the pressure
    array only: both velocity arrays (and every other array) are afterwards
    what they were before. *)
Theorem SolvePressureRedBlack_keeps_velocities cv ha va (h : heap) :
  shaped (solverShapes cv ha va) h →
  ∃ h' : heap,
    SolvePressureRedBlack cv ha va h = Some (tt, h') ∧
    h' ha = h ha ∧ h' va = h va ∧ (∀ l, l ≠ cv → h' l = h l).
Proof.
  intros Hsh. destruct (solver_distinct _ _ _ _ Hsh) as (Hch & Hcv & Hhv).
  destruct (SolvePressureRedBlack_run cv ha va h Hsh) as (h' & Hrun & _ & Hfr & _).
  exists h'. split_and!; try done; by apply Hfr.
Qed.

Lemma SolvePressureRedBlack_keeps_velocities_witness :
  ∃ h' : heap,
    SolvePressureRedBlack 0 1 3 sampleHeap = Some (tt, h') ∧
    h' 1%nat = sampleHeap 1%nat ∧ h' 3%nat = sampleHeap 3%nat ∧
    (∀ l, l ≠ 0%nat → h' l = sampleHeap l).
Proof.
  apply (SolvePressureRedBlack_keeps_velocities 0 1 3 sampleHeap).
  repeat constructor.
Defined.

Lemma land_one (x : Z) : Z.land x 1 = x mod 2.
Proof. exact (Z.land_ones x 1 ltac:(lia)). Qed.

(** Relaxing a cell of one colour reads pressures of the other colour only. *)
Lemma relaxCell_other_colour parity (P P' H V : grid) row col :
  isColor parity (row, col) = true →
  (∀ r c, isColor parity (r, c) = false → getd P' r c = getd P r c) →
  relaxCell P' H V row col = relaxCell P H V row col.
Proof.
  unfold isColor. simpl. intros Hcol%Z.eqb_eq Hsame.
  apply relaxCell_frame. intros [r c] Hd. simpl. apply Hsame. simpl.
  apply Z.eqb_neq. rewrite land_one in *.
  unfold neighbours in Hd. simpl in Hd.
  repeat (apply elem_of_cons in Hd as [Hd|Hd];
          [injection Hd as -> ->; Z.div_mod_to_equations; lia|]).
  by apply elem_of_nil in Hd.
Qed.

(** C4. [SolvePressureRedBlack] relaxes the cells with [(row + col)] even
    from the pressures before the call, and then the cells with
    [(row + col)] odd from the result of that first half-sweep; relaxing a
    cell of one colour reads pressures of the other colour only; and on the
    state with the single face velocity [hVel[0][1] = 1] the result differs
    from the simultaneous update that recomputes every cell from the
    pressures before the sweep. *)
Theorem SolvePressureRedBlack_two_phases cv ha va (h : heap) :
  shaped (solverShapes cv ha va) h →
  (∃ h' : heap,
     SolvePressureRedBlack cv ha va h = Some (tt, h') ∧
     h' cv = halfSweep 1 (halfSweep 0 (h cv) (h ha) (h va)) (h ha) (h va)) ∧
  (∀ parity (P P' H V : grid) row col,
     isColor parity (row, col) = true →
     (∀ r c, isColor parity (r, c) = false → getd P' r c = getd P r c) →
     relaxCell P' H V row col = relaxCell P H V row col) ∧
  (∃ h' : heap,
     SolvePressureRedBlack 0 1 3 oneArrow = Some (tt, h') ∧
     getd (h' 0%nat) 0 1 = num (225 # 32) ∧
     getd (jacobiSweep (oneArrow 0%nat) (oneArrow 1%nat) (oneArrow 3%nat)) 0 1
     = num (75 # 8) ∧
     h' 0%nat ≠ jacobiSweep (oneArrow 0%nat) (oneArrow 1%nat) (oneArrow 3%nat)).
Proof.
  intros Hsh. split_and!.
  - destruct (SolvePressureRedBlack_run cv ha va h Hsh) as (h' & Hrun & _ & _ & Hval).
    by exists h'.
  - intros. by eapply relaxCell_other_colour.
  - destruct (SolvePressureRedBlack_run 0 1 3 oneArrow) as (h' & Hrun & _ & _ & Hval);
      [by repeat constructor|].
    exists h'. split; [done|]. rewrite Hval. split_and!.
    + by apply this_inj.
    + by apply this_inj.
    + intros Heq. apply (f_equal (λ g : grid, this (getd g 0 1))) in Heq.
      vm_compute in Heq. discriminate.
Qed.

Lemma SolvePressureRedBlack_two_phases_witness :
  (∃ h' : heap,
     SolvePressureRedBlack 0 1 3 sampleHeap = Some (tt, h') ∧
     h' 0%nat = halfSweep 1 (halfSweep 0 (sampleHeap 0%nat) (sampleHeap 1%nat)
                                     (sampleHeap 3%nat))
                          (sampleHeap 1%nat) (sampleHeap 3%nat)) ∧
  (∀ parity (P P' H V : grid) row col,
     isColor parity (row, col) = true →
     (∀ r c, isColor parity (r, c) = false → getd P' r c = getd P r c) →
     relaxCell P' H V row col = relaxCell P H V row col) ∧
  (∃ h' : heap,
     SolvePressureRedBlack 0 1 3 oneArrow = Some (tt, h') ∧
     getd (h' 0%nat) 0 1 = num (225 # 32) ∧
     getd (jacobiSweep (oneArrow 0%nat) (oneArrow 1%nat) (oneArrow 3%nat)) 0 1
     = num (75 # 8) ∧
     h' 0%nat ≠ jacobiSweep (oneArrow 0%nat) (oneArrow 1%nat) (oneArrow 3%nat)).
Proof.
  apply (SolvePressureRedBlack_two_phases 0 1 3 sampleHeap).
  repeat constructor.
Defined.

(** ** The advection step *)

(** C5. With temporaries that are not the live arrays, [AdvectVelocities]
    leaves in the two live arrays the per-sample map over the fields before
    the call: the new value of a sample is [newHorizontal] or [newVertical]
    of the old contents of the two arrays, whatever the other samples
    become. *)
Theorem AdvectVelocities_is_pure_map ha ht va vt (h : heap) :
  shaped (advectShapes ha ht va vt) h → ht ≠ ha → vt ≠ va →
  ∃ h' : heap,
    AdvectVelocities ha ht va vt h = Some (tt, h') ∧
    h' ha = tabulate 8 9 (newHorizontal (h ha) (h va)) ∧
    h' va = tabulate 9 8 (newVertical (h ha) (h va)).
Proof.
  intros Hsh Hh Hv.
  destruct (AdvectVelocities_run ha ht va vt h Hsh Hh Hv)
    as (h' & Hrun & _ & _ & HH & HV & _).
  by exists h'.
Qed.

Lemma AdvectVelocities_is_pure_map_witness :
  ∃ h' : heap,
    AdvectVelocities 1 2 3 4 sampleHeap = Some (tt, h') ∧
    h' 1%nat = tabulate 8 9 (newHorizontal (sampleHeap 1%nat) (sampleHeap 3%nat)) ∧
    h' 3%nat = tabulate 9 8 (newVertical (sampleHeap 1%nat) (sampleHeap 3%nat)).
Proof.
  apply (AdvectVelocities_is_pure_map 1 2 3 4 sampleHeap).
  - repeat constructor.
  - lia.
  - lia.
Defined.

(** The temporaries have to be other arrays: when the vertical arrows are
    passed as their own temporary, the sample [(2, 0)] is computed from the
    already overwritten sample [(1, 0)]. *)
Lemma AdvectVelocities_aliased_temporary :
  runGrid (AdvectVelocities 1 2 3 3) sampleHeap 3%nat
  ≠ Some (map (map this) (advectV (sampleHeap 1%nat) (sampleHeap 3%nat))).
Proof. vm_compute. discriminate. Qed.

(** A loop whose iterations never fault does not fault. *)
Lemma for_total {A} (Inv : heap → Prop) (body : A → M unit) (l : list A)
    (h : heap) :
  (∀ i h, i ∈ l → Inv h → ∃ h' : heap, body i h = Some (tt, h') ∧ Inv h') →
  Inv h → ∃ h' : heap, for_ l body h = Some (tt, h') ∧ Inv h'.
Proof.
  revert h. induction l as [|i l IH]; intros h Hbody Hinv; [by exists h|].
  destruct (Hbody i h) as (h1 & Hrun & Hinv1); [left|done|].
  destruct (IH h1) as (h2 & Hrun2 & Hinv2); [|done|].
  { intros j h' Hj. apply Hbody. by right. }
  exists h2. split; [|done]. simpl. by rewrite (bind_Some _ _ _ _ _ Hrun).
Qed.

(** A loop nest that stores into an array of the right shape a value that
    is computed without a fault does not fault, whichever arrays coincide. *)
Lemma store_loop_total req a rows cols (compute : Z → Z → M Qc) (h : heap) :
  (a, rows, cols) ∈ req →
  (∀ r c (h : heap), shaped req h → inside rows cols r c →
     ∃ x, compute r c h = Some (x, h)) →
  shaped req h →
  ∃ h' : heap,
    for_ (seqZ 0 (Z.of_nat rows)) (λ row,
      for_ (seqZ 0 (Z.of_nat cols)) (λ col,
        let* x := compute row col in wr a row col x)) h = Some (tt, h') ∧
    shaped req h'.
Proof.
  intros Ha Hcomp Hsh. rewrite for_nested.
  apply (for_total (shaped req)); [|done].
  intros [r c] h1 Hin%elem_of_cells Hsh1. simpl.
  destruct (Hcomp r c h1 Hsh1 Hin) as [x Hx].
  rewrite (bind_Some _ _ _ _ _ Hx).
  pose proof (shaped_lookup _ _ _ _ _ Hsh1 Ha) as Hs.
  rewrite (wr_inside rows cols) by done.
  eexists. split; [done|]. eapply shaped_insert; [done|done|by apply shape_put2].
Qed.

Lemma AdvectVelocities_total ha ht va vt (h : heap) :
  shaped (advectShapes ha ht va vt) h →
  ∃ h' : heap, AdvectVelocities ha ht va vt h = Some (tt, h').
Proof.
  intros Hsh. unfold AdvectVelocities.
  destruct (store_loop_total (advectShapes ha ht va vt) vt 9 8
              (advectVertical ha va) h) as (h1 & Hrun1 & Hsh1); [..|done|].
  { by repeat constructor. }
  { intros r c h0 Hsh0 _. eexists.
    apply advectVertical_run; [shape_of ha|shape_of va]. }
  destruct (store_loop_total (advectShapes ha ht va vt) ht 8 9
              (advectHorizontal ha va) h1) as (h2 & Hrun2 & Hsh2); [..|done|].
  { by repeat constructor. }
  { intros r c h0 Hsh0 _. eexists.
    apply advectHorizontal_run; [shape_of ha|shape_of va]. }
  destruct (store_loop_total (advectShapes ha ht va vt) va 9 8
              (rd vt) h2) as (h3 & Hrun3 & Hsh3); [..|done|].
  { by repeat constructor. }
  { intros r c h0 Hsh0 Hin. eexists. eapply rd_inside; [shape_of vt|done]. }
  destruct (store_loop_total (advectShapes ha ht va vt) ha 8 9
              (rd ht) h3) as (h4 & Hrun4 & Hsh4); [..|done|].
  { by repeat constructor. }
  { intros r c h0 Hsh0 Hin. eexists. eapply rd_inside; [shape_of ht|done]. }
  exists h4.
  erewrite bind_Some; [|exact Hrun1].
  erewrite bind_Some; [|exact Hrun2].
  erewrite bind_Some; [|exact Hrun3].
  exact Hrun4.
Qed.

(** C10, as the code has it.  At every sample position the sampler of the
    horizontal arrows reads rows 0 to 7 and columns 0 to 8 only, the sampler
    of the vertical arrows rows 0 to 8 and columns 0 to 7 only, so on arrays
    of the allocated shapes both samplers return a value; and where no
    velocity sample exceeds [moderate] in magnitude, [AdvectVelocities] runs
    to its end without a fault, also when arrays are passed twice. *)
Theorem samplers_stay_in_bounds (localPos : Qc * Qc) ha ht va vt (h : heap) :
  shaped (advectShapes ha ht va vt) h →
  (0 ≤ iBottom (indicesX localPos) ≤ 7 ∧ 0 ≤ iTop (indicesX localPos) ≤ 7 ∧
   0 ≤ iLeft (indicesX localPos) ≤ 8 ∧ 0 ≤ iRight (indicesX localPos) ≤ 8) ∧
  (0 ≤ iBottom (indicesY localPos) ≤ 8 ∧ 0 ≤ iTop (indicesY localPos) ≤ 8 ∧
   0 ≤ iLeft (indicesY localPos) ≤ 7 ∧ 0 ≤ iRight (indicesY localPos) ≤ 7) ∧
  (∃ x, GetVelocityXAtLocalPos localPos ha h = Some (x, h)) ∧
  (∃ y, GetVelocityYAtLocalPos localPos va h = Some (y, h)) ∧
  (bounded 8 9 (h ha) → bounded 9 8 (h va) →
   ∃ h' : heap, AdvectVelocities ha ht va vt h = Some (tt, h')).
Proof.
  intros Hsh.
  pose proof (indicesX_bounds localPos) as HX.
  pose proof (indicesY_bounds localPos) as HY. cbv zeta in HX, HY.
  split_and!; try lia.
  - eexists. apply GetVelocityXAtLocalPos_run. shape_of ha.
  - eexists. apply GetVelocityYAtLocalPos_run. shape_of va.
  - intros _ _. by apply AdvectVelocities_total.
Qed.

Lemma samplers_stay_in_bounds_witness :
  (0 ≤ iBottom (indicesX farPosition) ≤ 7 ∧ 0 ≤ iTop (indicesX farPosition) ≤ 7 ∧
   0 ≤ iLeft (indicesX farPosition) ≤ 8 ∧ 0 ≤ iRight (indicesX farPosition) ≤ 8) ∧
  (0 ≤ iBottom (indicesY farPosition) ≤ 8 ∧ 0 ≤ iTop (indicesY farPosition) ≤ 8 ∧
   0 ≤ iLeft (indicesY farPosition) ≤ 7 ∧ 0 ≤ iRight (indicesY farPosition) ≤ 7) ∧
  (∃ x, GetVelocityXAtLocalPos farPosition 1 sampleHeap = Some (x, sampleHeap)) ∧
  (∃ y, GetVelocityYAtLocalPos farPosition 3 sampleHeap = Some (y, sampleHeap)) ∧
  (∃ h' : heap, AdvectVelocities 1 2 3 4 sampleHeap = Some (tt, h')).
Proof.
  destruct (samplers_stay_in_bounds farPosition 1 2 3 4 sampleHeap)
    as (HX & HY & Hx & Hy & Hadv).
  - repeat constructor.
  - split; [exact HX|]. split; [exact HY|]. split; [exact Hx|].
    split; [exact Hy|]. apply Hadv; apply withinb_true; by vm_compute.
Defined.

(** *** Interpolation facts *)

Lemma lerp_same a t : lerp a a t = a.
Proof. unfold lerp. ring. Qed.

Lemma lerp_zero a b : lerp a b 0%Qc = a.
Proof. unfold lerp. ring. Qed.

Lemma floor_ofZ n : Math_floor (ofZ n) = n.
Proof. unfold Math_floor, ofZ, Qc_of_Z. simpl. apply Qfloor_Z. Qed.

(** Bilinear interpolation of a constant field returns the constant. *)
Lemma sampleX_const a localPos : sampleX (constGrid 8 9 a) localPos = a.
Proof.
  pose proof (indicesX_bounds localPos) as Hb. cbv zeta in Hb.
  unfold sampleX. cbv zeta.
  rewrite !getd_constGrid by (unfold inside; lia). by rewrite !lerp_same.
Qed.

Lemma sampleY_const b localPos : sampleY (constGrid 9 8 b) localPos = b.
Proof.
  pose proof (indicesY_bounds localPos) as Hb. cbv zeta in Hb.
  unfold sampleY. cbv zeta.
  rewrite !getd_constGrid by (unfold inside; lia). by rewrite !lerp_same.
Qed.

Lemma advectH_const a b :
  advectH (constGrid 8 9 a) (constGrid 9 8 b) = constGrid 8 9 a.
Proof.
  apply (grid_ext 8 9); [apply shape_tabulate|apply shape_constGrid|].
  intros r c Hin. unfold advectH. rewrite getd_tabulate, getd_constGrid by done.
  unfold newHorizontal. cbv zeta. apply sampleX_const.
Qed.

Lemma advectV_const a b :
  advectV (constGrid 8 9 a) (constGrid 9 8 b) = constGrid 9 8 b.
Proof.
  apply (grid_ext 9 8); [apply shape_tabulate|apply shape_constGrid|].
  intros r c Hin. unfold advectV. rewrite getd_tabulate, getd_constGrid by done.
  unfold newVertical. cbv zeta. apply sampleY_const.
Qed.

(** C8. On a uniform field, [a] at every horizontal sample and [b] at every
    vertical sample, both samplers return the constant at every position,
    and [AdvectVelocities] leaves both arrays as they were. *)
Theorem AdvectVelocities_uniform_field ha ht va vt (h : heap) (a b : Qc) :
  shaped (advectShapes ha ht va vt) h → ht ≠ ha → vt ≠ va →
  h ha = constGrid 8 9 a → h va = constGrid 9 8 b →
  (∀ localPos,
     GetVelocityXAtLocalPos localPos ha h = Some (a, h) ∧
     GetVelocityYAtLocalPos localPos va h = Some (b, h)) ∧
  ∃ h' : heap,
    AdvectVelocities ha ht va vt h = Some (tt, h') ∧
    h' ha = h ha ∧ h' va = h va.
Proof.
  intros Hsh Hh Hv Ha Hb. split.
  - intros localPos. split.
    + rewrite GetVelocityXAtLocalPos_run by shape_of ha.
      by rewrite Ha, sampleX_const.
    + rewrite GetVelocityYAtLocalPos_run by shape_of va.
      by rewrite Hb, sampleY_const.
  - destruct (AdvectVelocities_run ha ht va vt h Hsh Hh Hv)
      as (h' & Hrun & _ & _ & HH & HV & _).
    exists h'. split; [done|]. rewrite HH, HV, Ha, Hb.
    by rewrite advectH_const, advectV_const.
Qed.

Lemma AdvectVelocities_uniform_field_witness :
  (∀ localPos,
     GetVelocityXAtLocalPos localPos 1 uniformFlow = Some (num 3, uniformFlow) ∧
     GetVelocityYAtLocalPos localPos 3 uniformFlow = Some (num (-2), uniformFlow)) ∧
  ∃ h' : heap,
    AdvectVelocities 1 2 3 4 uniformFlow = Some (tt, h') ∧
    h' 1%nat = uniformFlow 1%nat ∧ h' 3%nat = uniformFlow 3%nat.
Proof.
  apply (AdvectVelocities_uniform_field 1 2 3 4 uniformFlow (num 3) (num (-2))).
  - repeat constructor.
  - lia.
  - lia.
  - reflexivity.
  - reflexivity.
Defined.

(** ** One tick *)

Lemma redBlackSweep_zero :
  redBlackSweep (constGrid 8 8 0%Qc) (constGrid 8 9 0%Qc) (constGrid 9 8 0%Qc)
  = constGrid 8 8 0%Qc.
Proof. apply grid_this_inj. by vm_compute. Qed.

Lemma projectV_zero :
  projectV (constGrid 8 8 0%Qc) (constGrid 9 8 0%Qc) = constGrid 9 8 0%Qc.
Proof. apply grid_this_inj. by vm_compute. Qed.

Lemma projectH_zero :
  projectH (constGrid 8 8 0%Qc) (constGrid 8 9 0%Qc) = constGrid 8 9 0%Qc.
Proof. apply grid_this_inj. by vm_compute. Qed.

(** C6. From all-zero pressure and velocity arrays one tick (advection,
    relaxation sweep, projection) runs without a fault and leaves the three
    arrays all zero, whatever the temporaries hold. *)
Theorem tick_zero_is_fixed_point cv ha ht va vt (h : heap) :
  shaped (solverShapes cv ha va) h →
  shaped (advectShapes ha ht va vt) h → ht ≠ ha → vt ≠ va →
  h cv = constGrid 8 8 0%Qc →
  h ha = constGrid 8 9 0%Qc →
  h va = constGrid 9 8 0%Qc →
  ∃ h' : heap,
    tick cv ha ht va vt h = Some (tt, h') ∧
    h' cv = constGrid 8 8 0%Qc ∧
    h' ha = constGrid 8 9 0%Qc ∧
    h' va = constGrid 9 8 0%Qc.
Proof.
  intros Hsol Hadv Hh Hv Hc0 Hh0 Hv0.
  destruct (solver_distinct _ _ _ _ Hsol) as (Hch & Hcv & Hhv).
  assert (Hct : cv ≠ ht).
  { intros ->. assert (H1 : shape 8 8 (h ht)) by shape_of ht.
    assert (H2 : shape 8 9 (h ht)) by shape_of ht.
    destruct (shape_inj 8 8 8 9 _ ltac:(lia) H1 H2). lia. }
  assert (Hcvt : cv ≠ vt).
  { intros ->. assert (H1 : shape 8 8 (h vt)) by shape_of vt.
    assert (H2 : shape 9 8 (h vt)) by shape_of vt.
    destruct (shape_inj 8 8 9 8 _ ltac:(lia) H1 H2). lia. }
  destruct (AdvectVelocities_run ha ht va vt h Hadv Hh Hv)
    as (h1 & Hrun1 & Hadv1 & Hfr1 & HH1 & HV1 & _).
  rewrite Hh0, Hv0 in HH1, HV1.
  rewrite advectH_const in HH1. rewrite advectV_const in HV1.
  assert (Hc1 : h1 cv = constGrid 8 8 0%Qc) by (by rewrite Hfr1).
  assert (Hsol1 : shaped (solverShapes cv ha va) h1).
  { repeat constructor; simpl; rewrite ?Hc1, ?HH1, ?HV1; apply shape_constGrid. }
  destruct (SolvePressureRedBlack_run cv ha va h1 Hsol1)
    as (h2 & Hrun2 & Hsol2 & Hfr2 & HP2).
  rewrite Hc1, HH1, HV1, redBlackSweep_zero in HP2.
  destruct (CalculateVelocities_run cv ha va h2 Hsol2)
    as (h3 & Hrun3 & _ & Hfr3 & HV3 & HH3).
  rewrite HP2, !Hfr2 in HV3, HH3 by done.
  rewrite HV1, projectV_zero in HV3. rewrite HH1, projectH_zero in HH3.
  exists h3. unfold tick.
  rewrite (bind_Some _ _ _ _ _ Hrun1), (bind_Some _ _ _ _ _ Hrun2).
  split_and!; try done. by rewrite Hfr3.
Qed.

Lemma tick_zero_is_fixed_point_witness :
  ∃ h' : heap,
    tick 0 1 2 3 4 zeroHeap = Some (tt, h') ∧
    h' 0%nat = constGrid 8 8 0%Qc ∧
    h' 1%nat = constGrid 8 9 0%Qc ∧
    h' 3%nat = constGrid 9 8 0%Qc.
Proof.
  apply (tick_zero_is_fixed_point 0 1 2 3 4 zeroHeap).
  - repeat constructor.
  - repeat constructor.
  - lia.
  - lia.
  - reflexivity.
  - reflexivity.
  - reflexivity.
Defined.

(** ** Boundary faces *)

(** At an integer abscissa the sampler of the horizontal arrows reads one
    column only; where that column is zero the sample is zero. *)
Lemma sampleX_zero_column (H : grid) localPos n :
  localPos.1 = ofZ n →
  (∀ r, 0 ≤ r ≤ 7 → getd H r (Z.max 0 (Z.min 8 n)) = 0%Qc) →
  sampleX H localPos = 0%Qc.
Proof.
  intros Hpos Hcol.
  pose proof (indicesX_bounds localPos) as Hb. cbv zeta in Hb.
  unfold sampleX. cbv zeta.
  replace (localPos.1 - ofZ (Math_floor localPos.1))%Qc with 0%Qc
    by (rewrite Hpos, floor_ofZ; ring).
  rewrite !lerp_zero.
  replace (iLeft (indicesX localPos)) with (Z.max 0 (Z.min 8 n))
    by (unfold indicesX; simpl; by rewrite Hpos, floor_ofZ).
  rewrite !Hcol by lia. apply lerp_same.
Qed.

(** At an integer ordinate the sampler of the vertical arrows reads one row
    only; where that row is zero the sample is zero. *)
Lemma sampleY_zero_row (V : grid) localPos n :
  localPos.2 = ofZ n →
  (∀ c, 0 ≤ c ≤ 7 → getd V (Z.max 0 (Z.min 8 n)) c = 0%Qc) →
  sampleY V localPos = 0%Qc.
Proof.
  intros Hpos Hrow.
  pose proof (indicesY_bounds localPos) as Hb. cbv zeta in Hb.
  unfold sampleY. cbv zeta.
  replace (localPos.2 - ofZ (Math_floor localPos.2))%Qc with 0%Qc
    by (rewrite Hpos, floor_ofZ; ring).
  rewrite lerp_zero.
  replace (iBottom (indicesY localPos)) with (Z.max 0 (Z.min 8 n))
    by (unfold indicesY; simpl; by rewrite Hpos, floor_ofZ).
  rewrite !Hrow by lia. apply lerp_same.
Qed.

Lemma newHorizontal_boundary (H V : grid) row col :
  col = 0 ∨ col = 8 →
  (∀ r, 0 ≤ r ≤ 7 → getd H r col = 0%Qc) →
  newHorizontal H V row col = 0%Qc.
Proof.
  intros Hcol Hzero. unfold newHorizontal. cbv zeta.
  assert (Hclamp : Z.max 0 (Z.min 8 col) = col) by lia.
  rewrite (sampleX_zero_column H (ofZ col, _) col); [|done|by rewrite Hclamp].
  apply (sampleX_zero_column H _ col); [simpl; ring|by rewrite Hclamp].
Qed.

Lemma newVertical_boundary (H V : grid) row col :
  row = 0 ∨ row = 8 →
  (∀ c, 0 ≤ c ≤ 7 → getd V row c = 0%Qc) →
  newVertical H V row col = 0%Qc.
Proof.
  intros Hrow Hzero. unfold newVertical. cbv zeta.
  assert (Hclamp : Z.max 0 (Z.min 8 row) = row) by lia.
  rewrite (sampleY_zero_row V (_, ofZ row) row); [|done|by rewrite Hclamp].
  apply (sampleY_zero_row V _ row); [simpl; ring|by rewrite Hclamp].
Qed.

Lemma boundaryZero_project (P H V : grid) :
  boundaryZero (projectH P H) (projectV P V).
Proof.
  unfold boundaryZero, projectH, projectV, gridSize. split.
  - intros row Hr. rewrite !getd_tabulate by (unfold inside; lia). simpl.
    by rewrite num_zero.
  - intros col Hc. rewrite !getd_tabulate by (unfold inside; lia). simpl.
    by rewrite num_zero.
Qed.

Lemma boundaryZero_advect (H V : grid) :
  boundaryZero H V → boundaryZero (advectH H V) (advectV H V).
Proof.
  unfold boundaryZero, advectH, advectV, gridSize. intros [HH HV]. split.
  - intros row Hr. rewrite !getd_tabulate by (unfold inside; lia).
    split; apply newHorizontal_boundary; try lia; intros r Hr';
      apply (HH r); lia.
  - intros col Hc. rewrite !getd_tabulate by (unfold inside; lia).
    split; apply newVertical_boundary; try lia; intros c Hc';
      apply (HV c); lia.
Qed.

(** After [AdvectVelocities] a boundary face velocity need not be zero: the
    flow through the walls is advected onto itself. *)
Lemma AdvectVelocities_keeps_wall_flow :
  ∃ h' : heap,
    AdvectVelocities 1 2 3 4 wallFlow = Some (tt, h') ∧
    getd (h' 1%nat) 0 0 ≠ 0%Qc.
Proof.
  destruct (AdvectVelocities_run 1 2 3 4 wallFlow)
    as (h' & Hrun & _ & _ & HH & _); [by repeat constructor|lia|lia|].
  exists h'. split; [done|]. rewrite HH.
  intros Heq. apply (f_equal this) in Heq. vm_compute in Heq. discriminate.
Qed.

(** C2, as the code has it.  After [CalculateVelocities] every boundary face
    velocity is zero, from whatever state it starts.  [AdvectVelocities]
    does not zero the boundary; it keeps it zero: where every boundary face
    velocity is zero before the call and no velocity sample exceeds
    [moderate] in magnitude, every boundary face velocity is zero after
    it. *)
Theorem boundary_zero_after_projection cv ha va (h : heap) :
  shaped (solverShapes cv ha va) h →
  (∃ h' : heap,
     CalculateVelocities cv ha va h = Some (tt, h') ∧
     boundaryZero (h' ha) (h' va)) ∧
  (∀ ht vt,
     shaped (advectShapes ha ht va vt) h → ht ≠ ha → vt ≠ va →
     bounded 8 9 (h ha) → bounded 9 8 (h va) →
     boundaryZero (h ha) (h va) →
     ∃ h' : heap,
       AdvectVelocities ha ht va vt h = Some (tt, h') ∧
       boundaryZero (h' ha) (h' va)).
Proof.
  intros Hsol. split.
  - destruct (CalculateVelocities_run cv ha va h Hsol)
      as (h' & Hrun & _ & _ & HV & HH).
    exists h'. split; [done|]. rewrite HV, HH. apply boundaryZero_project.
  - intros ht vt Hadv Hh Hv _ _ Hzero.
    destruct (AdvectVelocities_run ha ht va vt h Hadv Hh Hv)
      as (h' & Hrun & _ & _ & HH & HV & _).
    exists h'. split; [done|]. rewrite HH, HV. by apply boundaryZero_advect.
Qed.

Lemma boundaryZero_sampleHeap :
  boundaryZero (sampleHeap 1%nat) (sampleHeap 3%nat).
Proof.
  unfold boundaryZero, gridSize.
  split; intros i Hi;
    assert (Hcases : i = 0 ∨ i = 1 ∨ i = 2 ∨ i = 3 ∨ i = 4 ∨ i = 5 ∨ i = 6 ∨ i = 7)
      by lia;
    destruct Hcases as [->|[->|[->|[->|[->|[->|[->| ->]]]]]]];
    split; apply this_inj; vm_compute; reflexivity.
Defined.

Lemma boundary_zero_after_projection_witness :
  (∃ h' : heap,
     CalculateVelocities 0 1 3 sampleHeap = Some (tt, h') ∧
     boundaryZero (h' 1%nat) (h' 3%nat)) ∧
  (∃ h' : heap,
     AdvectVelocities 1 2 3 4 sampleHeap = Some (tt, h') ∧
     boundaryZero (h' 1%nat) (h' 3%nat)).
Proof.
  destruct (boundary_zero_after_projection 0 1 3 sampleHeap) as [Hproj Hadv].
  - repeat constructor.
  - split; [exact Hproj|]. apply (Hadv 2%nat 4%nat).
    + repeat constructor.
    + lia.
    + lia.
    + apply withinb_true. by vm_compute.
    + apply withinb_true. by vm_compute.
    + exact boundaryZero_sampleHeap.
Defined.

(** ** Response to a single face velocity *)

Lemma shape_scaleGrid rows cols v g :
  shape rows cols g → shape rows cols (scaleGrid v g).
Proof.
  intros [Hlen Hall]. unfold scaleGrid. split; [by rewrite length_map|].
  apply Forall_fmap. eapply Forall_impl; [|exact Hall].
  intros rw Hrw. simpl. by rewrite length_map.
Qed.

Lemma getd_scaleGrid v g r c : getd (scaleGrid v g) r c = (v * getd g r c)%Qc.
Proof.
  unfold getd, at2, idx, scaleGrid.
  destruct (decide (0 ≤ r)); [|simpl; ring].
  change (map (map (Qcmult v)) g) with (map (Qcmult v) <$> g).
  rewrite list_lookup_fmap.
  destruct (g !! Z.to_nat r) as [rw|]; [|simpl; ring]. simpl.
  destruct (decide (0 ≤ c)); [|simpl; ring].
  change (map (Qcmult v) rw) with (Qcmult v <$> rw).
  rewrite list_lookup_fmap.
  destruct (rw !! Z.to_nat c) as [x|]; simpl; [done|ring].
Qed.

(** The stored pressure is linear in the three arrays. *)
Lemma relaxCell_scale v (P H V : grid) row col :
  relaxCell (scaleGrid v P) (scaleGrid v H) (scaleGrid v V) row col
  = (v * relaxCell P H V row col)%Qc.
Proof.
  unfold relaxCell. rewrite !getd_scaleGrid.
  pose proof DELTA_TIME_nonzero. pose proof four_nonzero.
  destruct ((col =? 0) || (col =? 7)), ((row =? 0) || (row =? 7)),
    (col =? 7), (row =? 7); cbv zeta; by field.
Qed.

Lemma halfSweep_scale parity v (P H V : grid) :
  halfSweep parity (scaleGrid v P) (scaleGrid v H) (scaleGrid v V)
  = scaleGrid v (halfSweep parity P H V).
Proof.
  apply (grid_ext 8 8);
    [apply shape_tabulate|apply shape_scaleGrid, shape_tabulate|].
  intros r c Hin. rewrite getd_scaleGrid. unfold halfSweep.
  rewrite !getd_tabulate by done.
  destruct (isColor parity (r, c)); [apply relaxCell_scale|apply getd_scaleGrid].
Qed.

Lemma redBlackSweep_scale v (P H V : grid) :
  redBlackSweep (scaleGrid v P) (scaleGrid v H) (scaleGrid v V)
  = scaleGrid v (redBlackSweep P H V).
Proof. unfold redBlackSweep. by rewrite !halfSweep_scale. Qed.

Lemma constGrid_zero_scale rows cols v :
  constGrid rows cols 0%Qc = scaleGrid v (constGrid rows cols 0%Qc).
Proof.
  apply (grid_ext rows cols);
    [apply shape_constGrid|apply shape_scaleGrid, shape_constGrid|].
  intros r c Hin. rewrite getd_scaleGrid, getd_constGrid by done. ring.
Qed.

Lemma put2_zero_scale rows cols r c v :
  inside rows cols r c →
  put2 (constGrid rows cols 0%Qc) r c v
  = scaleGrid v (put2 (constGrid rows cols 0%Qc) r c 1%Qc).
Proof.
  intros Hin. apply (grid_ext rows cols).
  - apply shape_put2, shape_constGrid.
  - apply shape_scaleGrid, shape_put2, shape_constGrid.
  - intros r' c' Hin'. rewrite getd_scaleGrid.
    destruct (decide ((r, c) = (r', c'))) as [[= <- <-]|Hne].
    + rewrite !(getd_put2_eq rows cols) by (done || apply shape_constGrid). ring.
    + rewrite !getd_put2_ne, getd_constGrid by done. ring.
Qed.

Lemma Qc_ltb_true x y : Qc_ltb x y = true → (x < y)%Qc.
Proof. unfold Qc_ltb, Qclt, Qlt. apply Z.ltb_lt. Qed.

(** For each of the 56 interior faces: the cell on the left of the face ends
    negative, the cell on its right positive. *)
Lemma unitResponse_signs r c :
  0 ≤ r < 8 → 0 < c < 8 →
  (getd (unitResponse r c) r (c - 1) < 0)%Qc ∧
  (0 < getd (unitResponse r c) r c)%Qc.
Proof.
  intros Hr Hc.
  assert (Hall : forallb (λ rc,
            Qc_ltb (getd (unitResponse rc.1 rc.2) rc.1 (rc.2 - 1)) 0%Qc
            && Qc_ltb 0%Qc (getd (unitResponse rc.1 rc.2) rc.1 rc.2))
            (list_prod (seqZ 0 8) (seqZ 1 7)) = true) by (by vm_compute).
  assert (Hin : In (r, c) (list_prod (seqZ 0 8) (seqZ 1 7))).
  { apply in_prod_iff. rewrite <- !list_elem_of_In, !elem_of_seqZ. lia. }
  rewrite forallb_forall in Hall. specialize (Hall (r, c) Hin).
  cbn [fst snd] in Hall. apply andb_true_iff in Hall as [H1 H2].
  split; by apply Qc_ltb_true.
Qed.

(** C7, as the code has it.  From the all-zero state with one interior
    horizontal face velocity [hVel[r][c] = v], [v > 0] and at most
    [moderate], one call of [SolvePressureRedBlack] leaves a negative
    pressure in the cell [(r, c - 1)] on the left of the face and a positive
    one in the cell [(r, c)] on its right. *)
Theorem single_face_divergence_response cv ha va (h : heap) r c (v : Qc) :
  shaped (solverShapes cv ha va) h →
  0 ≤ r < gridSize → 0 < c < gridSize → (0 < v)%Qc → (v ≤ moderate)%Qc →
  h cv = constGrid 8 8 0%Qc →
  h ha = put2 (constGrid 8 9 0%Qc) r c v →
  h va = constGrid 9 8 0%Qc →
  ∃ h' : heap,
    SolvePressureRedBlack cv ha va h = Some (tt, h') ∧
    (getd (h' cv) r (c - 1) < 0)%Qc ∧ (0 < getd (h' cv) r c)%Qc.
Proof.
  unfold gridSize. intros Hsh Hr Hc Hv _ HP HH HV.
  destruct (SolvePressureRedBlack_run cv ha va h Hsh) as (h' & Hrun & _ & _ & Hval).
  exists h'. split; [done|].
  rewrite Hval, HP, HH, HV.
  rewrite (constGrid_zero_scale 8 8 v), (constGrid_zero_scale 9 8 v),
    (put2_zero_scale 8 9 r c v) by (unfold inside; lia).
  rewrite redBlackSweep_scale, !getd_scaleGrid.
  destruct (unitResponse_signs r c Hr Hc) as [Hneg Hpos].
  unfold unitResponse in Hneg, Hpos. split.
  - pose proof (proj1 (Qcmult_lt_mono_pos_l _ _ v Hv) Hneg) as Hlt.
    by rewrite (Qcmult_0_r v) in Hlt.
  - pose proof (proj1 (Qcmult_lt_mono_pos_l _ _ v Hv) Hpos) as Hlt.
    by rewrite (Qcmult_0_r v) in Hlt.
Qed.

Lemma single_face_divergence_response_witness :
  ∃ h' : heap,
    SolvePressureRedBlack 0 1 3 oneArrow = Some (tt, h') ∧
    (getd (h' 0%nat) 0 (1 - 1) < 0)%Qc ∧ (0 < getd (h' 0%nat) 0 1)%Qc.
Proof.
  apply (single_face_divergence_response 0 1 3 oneArrow 0 1 1%Qc).
  - repeat constructor.
  - unfold gridSize. lia.
  - unfold gridSize. lia.
  - reflexivity.
  - by vm_compute.
  - reflexivity.
  - reflexivity.
  - reflexivity.
Defined.

(** * Further properties *)

(** ** Order on the numbers *)

Lemma this_plus (x y : Qc) : (this (x + y)%Qc == this x + this y)%Q.
Proof. apply Qred_correct. Qed.

Lemma this_mult (x y : Qc) : (this (x * y)%Qc == this x * this y)%Q.
Proof. apply Qred_correct. Qed.

Lemma this_opp (x : Qc) : (this (- x)%Qc == - this x)%Q.
Proof. apply Qred_correct. Qed.

Lemma this_minus (x y : Qc) : (this (x - y)%Qc == this x - this y)%Q.
Proof. unfold Qcminus. rewrite this_plus, this_opp. reflexivity. Qed.

(** An interpolation weight between 0 and 1 keeps the value between the
    two ends. *)
Lemma lerp_between (lo hi a b t : Qc) :
  (lo ≤ a ≤ hi)%Qc → (lo ≤ b ≤ hi)%Qc → (0 ≤ t ≤ 1)%Qc →
  (lo ≤ lerp a b t ≤ hi)%Qc.
Proof.
  unfold Qcle, lerp. rewrite this_plus, this_mult, this_minus.
  change (this 0%Qc) with 0%Q. change (this 1%Qc) with 1%Q.
  intros [? ?] [? ?] [? ?]. split; nra.
Qed.

(** [x - Math.floor(x)] lies in [0, 1). *)
Lemma frac_between (x : Qc) :
  (0 ≤ x - ofZ (Math_floor x))%Qc ∧ (x - ofZ (Math_floor x) < 1)%Qc.
Proof.
  unfold Qcle, Qclt. rewrite this_minus.
  change (this 0%Qc) with 0%Q. change (this 1%Qc) with 1%Q.
  unfold Math_floor, ofZ, Qc_of_Z. cbn [this].
  pose proof (Qfloor_le x). pose proof (Qlt_floor x).
  rewrite inject_Z_plus in *. change (inject_Z 1) with 1%Q in *. split; lra.
Qed.

Lemma frac_weight (x : Qc) : (0 ≤ x - ofZ (Math_floor x) ≤ 1)%Qc.
Proof.
  destruct (frac_between x) as [H0 H1]. split; [done|by apply Qclt_le_weak].
Qed.

(** ** The samplers on the sample positions and between the samples *)

Lemma sampleX_at_sample (H : grid) row col :
  0 ≤ row ≤ 7 → 0 ≤ col ≤ 8 →
  sampleX H (ofZ col, (ofZ row + num 0.5)%Qc) = getd H row col.
Proof.
  intros Hr Hc. unfold sampleX, indicesX. cbn [fst snd iLeft iRight iBottom iTop].
  replace (ofZ row + num 0.5 - num 0.5)%Qc with (ofZ row) by ring.
  rewrite !floor_ofZ.
  replace (ofZ col - ofZ col)%Qc with 0%Qc by ring.
  replace (ofZ row - ofZ row)%Qc with 0%Qc by ring.
  rewrite !lerp_zero. f_equal; lia.
Qed.

Lemma sampleY_at_sample (V : grid) row col :
  0 ≤ row ≤ 8 → 0 ≤ col ≤ 7 →
  sampleY V ((ofZ col + num 0.5)%Qc, ofZ row) = getd V row col.
Proof.
  intros Hr Hc. unfold sampleY, indicesY. cbn [fst snd iLeft iRight iBottom iTop].
  replace (ofZ col + num 0.5 - num 0.5)%Qc with (ofZ col) by ring.
  rewrite !floor_ofZ.
  replace (ofZ col - ofZ col)%Qc with 0%Qc by ring.
  replace (ofZ row - ofZ row)%Qc with 0%Qc by ring.
  rewrite !lerp_zero. f_equal; lia.
Qed.

(** X1. In a field of samples up to [moderate], each sampler returns at
    the position of a stored sample that sample: the sampler of the
    horizontal arrows at [(col, row + 0.5)] returns [hVel[row][col]], the
    sampler of the vertical arrows at [(col + 0.5, row)] returns
    [vVel[row][col]]. *)
Theorem samplers_reproduce_samples ha va (h : heap) row col :
  shape 8 9 (h ha) → shape 9 8 (h va) →
  bounded 8 9 (h ha) → bounded 9 8 (h va) →
  (inside 8 9 row col →
   GetVelocityXAtLocalPos (ofZ col, (ofZ row + num 0.5)%Qc) ha h
   = Some (getd (h ha) row col, h)) ∧
  (inside 9 8 row col →
   GetVelocityYAtLocalPos ((ofZ col + num 0.5)%Qc, ofZ row) va h
   = Some (getd (h va) row col, h)).
Proof.
  intros Hh Hv _ _. split; intros [Hr Hc].
  - rewrite GetVelocityXAtLocalPos_run by done.
    by rewrite sampleX_at_sample by lia.
  - rewrite GetVelocityYAtLocalPos_run by done.
    by rewrite sampleY_at_sample by lia.
Qed.

Lemma samplers_reproduce_samples_witness :
  GetVelocityXAtLocalPos (ofZ 4, (ofZ 3 + num 0.5)%Qc) 1 sampleHeap
  = Some (getd (sampleHeap 1%nat) 3 4, sampleHeap) ∧
  GetVelocityYAtLocalPos ((ofZ 0 + num 0.5)%Qc, ofZ 2) 3 sampleHeap
  = Some (getd (sampleHeap 3%nat) 2 0, sampleHeap).
Proof.
  destruct (samplers_reproduce_samples 1 3 sampleHeap 3 4) as [HX _].
  - repeat constructor.
  - repeat constructor.
  - apply withinb_true. by vm_compute.
  - apply withinb_true. by vm_compute.
  - destruct (samplers_reproduce_samples 1 3 sampleHeap 2 0) as [_ HY].
    + repeat constructor.
    + repeat constructor.
    + apply withinb_true. by vm_compute.
    + apply withinb_true. by vm_compute.
    + split; [apply HX|apply HY]; unfold inside; lia.
Defined.

Lemma sampleX_within lo hi (H : grid) localPos :
  within 8 9 lo hi H → (lo ≤ sampleX H localPos ≤ hi)%Qc.
Proof.
  intros Hw. pose proof (indicesX_bounds localPos) as Hb. cbv zeta in Hb.
  unfold sampleX. cbv zeta.
  apply lerp_between; [apply lerp_between|apply lerp_between|];
    try apply frac_weight; apply Hw; unfold inside; lia.
Qed.

Lemma sampleY_within lo hi (V : grid) localPos :
  within 9 8 lo hi V → (lo ≤ sampleY V localPos ≤ hi)%Qc.
Proof.
  intros Hw. pose proof (indicesY_bounds localPos) as Hb. cbv zeta in Hb.
  unfold sampleY. cbv zeta.
  apply lerp_between; [apply lerp_between|apply lerp_between|];
    try apply frac_weight; apply Hw; unfold inside; lia.
Qed.

(** X2. Sampling keeps the sign.  In a field without a negative sample, of
    samples up to [moderate], a sample taken anywhere, inside or outside the
    grid, is not negative; in a field without a positive sample, of samples
    down to [- moderate], it is not positive. *)
Theorem samplers_keep_sign ha va (h : heap) localPos :
  shape 8 9 (h ha) → shape 9 8 (h va) →
  (within 8 9 0 moderate (h ha) →
   ∃ x, GetVelocityXAtLocalPos localPos ha h = Some (x, h) ∧ (0 ≤ x)%Qc) ∧
  (within 8 9 (- moderate) 0 (h ha) →
   ∃ x, GetVelocityXAtLocalPos localPos ha h = Some (x, h) ∧ (x ≤ 0)%Qc) ∧
  (within 9 8 0 moderate (h va) →
   ∃ y, GetVelocityYAtLocalPos localPos va h = Some (y, h) ∧ (0 ≤ y)%Qc) ∧
  (within 9 8 (- moderate) 0 (h va) →
   ∃ y, GetVelocityYAtLocalPos localPos va h = Some (y, h) ∧ (y ≤ 0)%Qc).
Proof.
  intros Hh Hv. split_and!; intros Hw; eexists; split.
  - by apply GetVelocityXAtLocalPos_run.
  - by apply (sampleX_within _ _ _ localPos Hw).
  - by apply GetVelocityXAtLocalPos_run.
  - by apply (sampleX_within _ _ _ localPos Hw).
  - by apply GetVelocityYAtLocalPos_run.
  - by apply (sampleY_within _ _ _ localPos Hw).
  - by apply GetVelocityYAtLocalPos_run.
  - by apply (sampleY_within _ _ _ localPos Hw).
Qed.

Lemma samplers_keep_sign_witness :
  ((∃ x, GetVelocityXAtLocalPos midPosition 1 forwardFlow = Some (x, forwardFlow) ∧
         (0 ≤ x)%Qc) ∧
   (∃ y, GetVelocityYAtLocalPos midPosition 3 forwardFlow = Some (y, forwardFlow) ∧
         (0 ≤ y)%Qc)) ∧
  ((∃ x, GetVelocityXAtLocalPos midPosition 1 reverseFlow = Some (x, reverseFlow) ∧
         (x ≤ 0)%Qc) ∧
   (∃ y, GetVelocityYAtLocalPos midPosition 3 reverseFlow = Some (y, reverseFlow) ∧
         (y ≤ 0)%Qc)).
Proof.
  split.
  - destruct (samplers_keep_sign 1 3 forwardFlow midPosition)
      as (HX & _ & HY & _).
    + repeat constructor.
    + repeat constructor.
    + split; [apply HX|apply HY]; apply withinb_true; by vm_compute.
  - destruct (samplers_keep_sign 1 3 reverseFlow midPosition)
      as (_ & HX & _ & HY).
    + repeat constructor.
    + repeat constructor.
    + split; [apply HX|apply HY]; apply withinb_true; by vm_compute.
Defined.

(** X3. [AdvectVelocities] keeps the sign.  In a state whose velocity
    samples are at most [moderate] in magnitude, a velocity array without a
    negative sample has none after the call, and one without a positive
    sample has none after the call. *)
Theorem AdvectVelocities_keeps_sign ha ht va vt (h : heap) :
  shaped (advectShapes ha ht va vt) h → ht ≠ ha → vt ≠ va →
  bounded 8 9 (h ha) → bounded 9 8 (h va) →
  ∃ h' : heap,
    AdvectVelocities ha ht va vt h = Some (tt, h') ∧
    (within 8 9 0 moderate (h ha) →
     ∀ r c, inside 8 9 r c → (0 ≤ getd (h' ha) r c)%Qc) ∧
    (within 8 9 (- moderate) 0 (h ha) →
     ∀ r c, inside 8 9 r c → (getd (h' ha) r c ≤ 0)%Qc) ∧
    (within 9 8 0 moderate (h va) →
     ∀ r c, inside 9 8 r c → (0 ≤ getd (h' va) r c)%Qc) ∧
    (within 9 8 (- moderate) 0 (h va) →
     ∀ r c, inside 9 8 r c → (getd (h' va) r c ≤ 0)%Qc).
Proof.
  intros Hsh Hh Hv _ _.
  destruct (AdvectVelocities_run ha ht va vt h Hsh Hh Hv)
    as (h' & Hrun & _ & _ & HH & HV & _).
  exists h'. split; [done|]. rewrite HH, HV.
  split_and!; intros Hw r c Hin; unfold advectH, advectV;
    rewrite getd_tabulate by done.
  - by apply (sampleX_within _ _ _ _ Hw).
  - by apply (sampleX_within _ _ _ _ Hw).
  - by apply (sampleY_within _ _ _ _ Hw).
  - by apply (sampleY_within _ _ _ _ Hw).
Qed.

Lemma AdvectVelocities_keeps_sign_witness :
  (∃ h' : heap,
     AdvectVelocities 1 2 3 4 forwardFlow = Some (tt, h') ∧
     (∀ r c, inside 8 9 r c → (0 ≤ getd (h' 1%nat) r c)%Qc) ∧
     (∀ r c, inside 9 8 r c → (0 ≤ getd (h' 3%nat) r c)%Qc)) ∧
  (∃ h' : heap,
     AdvectVelocities 1 2 3 4 reverseFlow = Some (tt, h') ∧
     (∀ r c, inside 8 9 r c → (getd (h' 1%nat) r c ≤ 0)%Qc) ∧
     (∀ r c, inside 9 8 r c → (getd (h' 3%nat) r c ≤ 0)%Qc)).
Proof.
  split.
  - destruct (AdvectVelocities_keeps_sign 1 2 3 4 forwardFlow)
      as (h' & Hrun & HX & _ & HY & _).
    + repeat constructor.
    + lia.
    + lia.
    + apply withinb_true. by vm_compute.
    + apply withinb_true. by vm_compute.
    + exists h'. split; [exact Hrun|].
      split; [apply HX|apply HY]; apply withinb_true; by vm_compute.
  - destruct (AdvectVelocities_keeps_sign 1 2 3 4 reverseFlow)
      as (h' & Hrun & _ & HX & _ & HY).
    + repeat constructor.
    + lia.
    + lia.
    + apply withinb_true. by vm_compute.
    + apply withinb_true. by vm_compute.
    + exists h'. split; [exact Hrun|].
      split; [apply HX|apply HY]; apply withinb_true; by vm_compute.
Defined.

(** ** Fixed points of the relaxation sweep *)

Lemma isColor_cases rc :
  (isColor 0 rc = true ∧ isColor 1 rc = false) ∨
  (isColor 0 rc = false ∧ isColor 1 rc = true).
Proof.
  unfold isColor. rewrite land_one.
  destruct (Z.eqb_spec ((rc.1 + rc.2) mod 2) 0),
    (Z.eqb_spec ((rc.1 + rc.2) mod 2) 1); try (by left); try (by right);
    Z.div_mod_to_equations; lia.
Qed.

Lemma halfSweep_fixed parity (P H V : grid) :
  shape 8 8 P →
  (∀ r c, inside 8 8 r c → isColor parity (r, c) = true →
     relaxCell P H V r c = getd P r c) →
  halfSweep parity P H V = P.
Proof.
  intros Hs Heq. apply (grid_ext 8 8); [apply shape_tabulate|done|].
  intros r c Hin. unfold halfSweep. rewrite getd_tabulate by done.
  destruct (isColor parity (r, c)) eqn:Hcol; [by apply Heq|done].
Qed.

(** The sweep returns the pressures it was given exactly when every cell
    already holds the value [CalculatePressure] would store. *)
Lemma redBlackSweep_fixed_iff (P H V : grid) :
  shape 8 8 P →
  redBlackSweep P H V = P ↔
  ∀ r c, inside 8 8 r c → getd P r c = relaxCell P H V r c.
Proof.
  intros Hs. unfold redBlackSweep. split.
  - intros Hfix.
    assert (Hred : ∀ r c, inside 8 8 r c → isColor 0 (r, c) = true →
                          relaxCell P H V r c = getd P r c).
    { intros r c Hin Hcol. rewrite <- Hfix at 2. unfold halfSweep.
      rewrite !getd_tabulate by done.
      destruct (isColor_cases (r, c)) as [[_ ->]|[? _]]; [|congruence].
      by rewrite Hcol. }
    rewrite (halfSweep_fixed 0 P H V Hs Hred) in Hfix.
    intros r c Hin. destruct (isColor_cases (r, c)) as [[Hc _]|[_ Hc]].
    + symmetry. by apply Hred.
    + rewrite <- Hfix at 1. unfold halfSweep.
      rewrite getd_tabulate by done. by rewrite Hc.
  - intros Heq. rewrite (halfSweep_fixed 0 P H V Hs);
      [apply (halfSweep_fixed 1 P H V Hs)|]; intros r c Hin _;
      symmetry; by apply Heq.
Qed.

(** X4. [SolvePressureRedBlack] leaves the pressure array as it found it
    exactly when every cell already holds the value [CalculatePressure]
    stores for it: the fixed points of the sweep are the solutions of the
    pressure equation of the code. *)
Theorem SolvePressureRedBlack_fixed_points cv ha va (h : heap) :
  shaped (solverShapes cv ha va) h →
  ∃ h' : heap,
    SolvePressureRedBlack cv ha va h = Some (tt, h') ∧
    (h' cv = h cv ↔
     ∀ row col, inside 8 8 row col →
       getd (h cv) row col = relaxCell (h cv) (h ha) (h va) row col).
Proof.
  intros Hsh.
  destruct (SolvePressureRedBlack_run cv ha va h Hsh) as (h' & Hrun & _ & _ & Hval).
  exists h'. split; [done|]. rewrite Hval.
  apply redBlackSweep_fixed_iff. shape_of cv.
Qed.

Lemma SolvePressureRedBlack_fixed_points_witness :
  ∃ h' : heap,
    SolvePressureRedBlack 0 1 3 sampleHeap = Some (tt, h') ∧
    (h' 0%nat = sampleHeap 0%nat ↔
     ∀ row col, inside 8 8 row col →
       getd (sampleHeap 0%nat) row col
       = relaxCell (sampleHeap 0%nat) (sampleHeap 1%nat) (sampleHeap 3%nat)
                   row col).
Proof.
  apply (SolvePressureRedBlack_fixed_points 0 1 3 sampleHeap).
  repeat constructor.
Defined.

Lemma getd_zero rows cols r c : getd (constGrid rows cols 0%Qc) r c = 0%Qc.
Proof.
  unfold getd, at2, idx, constGrid.
  destruct (decide (0 ≤ r)); [|done].
  destruct (replicate rows (replicate cols 0%Qc) !! Z.to_nat r) as [rw|] eqn:Hrw;
    [|done].
  apply lookup_replicate in Hrw as [-> _]. simpl.
  destruct (decide (0 ≤ c)); [|done].
  destruct (replicate cols 0%Qc !! Z.to_nat c) as [x|] eqn:Hx; [|done].
  by apply lookup_replicate in Hx as [-> _].
Qed.

(** From zero pressure a cell is relaxed to a fixed non-zero multiple of
    its net outflow. *)
Lemma relaxCell_zero_pressure (H V : grid) row col :
  relaxCell (constGrid 8 8 0%Qc) H V row col
  = (- (DENSITY * DELTA_X / DELTA_TIME / num 4.0)
     * cellDivergence H V row col)%Qc.
Proof.
  unfold relaxCell, cellDivergence. rewrite !getd_zero.
  pose proof DELTA_TIME_nonzero. pose proof four_nonzero.
  destruct ((col =? 0) || (col =? 7)), ((row =? 0) || (row =? 7)); cbv zeta;
    by field.
Qed.

Lemma relax_factor_nonzero :
  (- (DENSITY * DELTA_X / DELTA_TIME / num 4.0))%Qc ≠ 0%Qc.
Proof. intros Heq. by apply (f_equal this) in Heq. Qed.

(** X6. From an all-zero pressure array [SolvePressureRedBlack] leaves the
    pressure all zero exactly when no cell has a net outflow, the outflow
    being the [velocity] that [CalculatePressure] computes. *)
Theorem zero_pressure_iff_divergence_free cv ha va (h : heap) :
  shaped (solverShapes cv ha va) h →
  h cv = constGrid 8 8 0%Qc →
  ∃ h' : heap,
    SolvePressureRedBlack cv ha va h = Some (tt, h') ∧
    (h' cv = constGrid 8 8 0%Qc ↔
     ∀ row col, inside 8 8 row col →
       cellDivergence (h ha) (h va) row col = 0%Qc).
Proof.
  intros Hsh HP.
  destruct (SolvePressureRedBlack_run cv ha va h Hsh) as (h' & Hrun & _ & _ & Hval).
  exists h'. split; [done|]. rewrite Hval, HP.
  rewrite redBlackSweep_fixed_iff by apply shape_constGrid.
  split; intros Hall row col Hin; specialize (Hall row col Hin);
    rewrite getd_zero, relaxCell_zero_pressure in *.
  - symmetry in Hall. apply Qcmult_integral in Hall as [Hf|Hd]; [|done].
    by destruct relax_factor_nonzero.
  - rewrite Hall. ring.
Qed.

Lemma zero_pressure_iff_divergence_free_witness :
  ∃ h' : heap,
    SolvePressureRedBlack 0 1 3 oneArrow = Some (tt, h') ∧
    (h' 0%nat = constGrid 8 8 0%Qc ↔
     ∀ row col, inside 8 8 row col →
       cellDivergence (oneArrow 1%nat) (oneArrow 3%nat) row col = 0%Qc).
Proof.
  apply (zero_pressure_iff_divergence_free 0 1 3 oneArrow).
  - repeat constructor.
  - reflexivity.
Defined.

Lemma shaped_solver cv ha va (h : heap) :
  shape 8 8 (h cv) → shape 8 9 (h ha) → shape 9 8 (h va) →
  shaped (solverShapes cv ha va) h.
Proof.
  intros Hc Hh Hv. unfold shaped, solverShapes.
  constructor; [done|]. constructor; [done|]. constructor; [done|].
  constructor.
Qed.

(** ** Pressure offsets and scalings *)

Lemma shape_shiftGrid rows cols p g :
  shape rows cols g → shape rows cols (shiftGrid p g).
Proof.
  intros [Hlen Hall]. unfold shiftGrid. split; [by rewrite length_map|].
  apply Forall_fmap. eapply Forall_impl; [|exact Hall].
  intros rw Hrw. simpl. by rewrite length_map.
Qed.

Lemma getd_shiftGrid rows cols p g r c :
  shape rows cols g → inside rows cols r c →
  getd (shiftGrid p g) r c = (p + getd g r c)%Qc.
Proof.
  intros Hs Hin. pose proof (at2_inside _ _ _ _ _ Hs Hin) as Hat.
  destruct Hin as [Hr Hc]. unfold getd at 1. unfold at2, idx in *.
  rewrite decide_True in * by lia.
  unfold shiftGrid. change (map (map (Qcplus p)) g) with (map (Qcplus p) <$> g).
  rewrite list_lookup_fmap.
  destruct (g !! Z.to_nat r) as [rw|]; [|done]. simpl in *.
  rewrite decide_True in * by lia.
  change (map (Qcplus p) rw) with (Qcplus p <$> rw).
  rewrite list_lookup_fmap, Hat. done.
Qed.

(** X7. [CalculateVelocities] uses pressure differences only: with the
    same constant added to every pressure it leaves the same two velocity
    arrays. *)
Theorem projection_ignores_pressure_offset cv ha va (h1 h2 : heap) (p : Qc) :
  shaped (solverShapes cv ha va) h1 →
  h2 cv = shiftGrid p (h1 cv) → h2 ha = h1 ha → h2 va = h1 va →
  ∃ h1' h2' : heap,
    CalculateVelocities cv ha va h1 = Some (tt, h1') ∧
    CalculateVelocities cv ha va h2 = Some (tt, h2') ∧
    h2' ha = h1' ha ∧ h2' va = h1' va.
Proof.
  intros Hsh1 HP HH HV.
  assert (Hc : shape 8 8 (h1 cv)) by shape_of cv.
  assert (Hsh2 : shaped (solverShapes cv ha va) h2).
  { apply shaped_solver; rewrite ?HP, ?HH, ?HV;
      [by apply shape_shiftGrid|shape_of ha|shape_of va]. }
  destruct (CalculateVelocities_run cv ha va h1 Hsh1)
    as (h1' & Hrun1 & _ & _ & HV1 & HH1).
  destruct (CalculateVelocities_run cv ha va h2 Hsh2)
    as (h2' & Hrun2 & _ & _ & HV2 & HH2).
  exists h1', h2'. split_and!; try done.
  - rewrite HH1, HH2, HP, HH. unfold projectH. apply tabulate_ext.
    intros r c [Hr Hc']. destruct (Z.eqb_spec c 0), (Z.eqb_spec c 8); try done.
    rewrite !(getd_shiftGrid 8 8) by (done || unfold inside; lia).
    simpl. ring.
  - rewrite HV1, HV2, HP, HV. unfold projectV. apply tabulate_ext.
    intros r c [Hr Hc']. destruct (Z.eqb_spec r 0), (Z.eqb_spec r 8); try done.
    rewrite !(getd_shiftGrid 8 8) by (done || unfold inside; lia).
    simpl. ring.
Qed.

Lemma projection_ignores_pressure_offset_witness :
  ∃ h1' h2' : heap,
    CalculateVelocities 0 1 3 sampleHeap = Some (tt, h1') ∧
    CalculateVelocities 0 1 3
      (<[0%nat := shiftGrid (num 7) (sampleHeap 0%nat)]> sampleHeap)
    = Some (tt, h2') ∧
    h2' 1%nat = h1' 1%nat ∧ h2' 3%nat = h1' 3%nat.
Proof.
  apply (projection_ignores_pressure_offset 0 1 3 sampleHeap _ (num 7)).
  - repeat constructor.
  - reflexivity.
  - reflexivity.
  - reflexivity.
Defined.

(** X8. [SolvePressureRedBlack] is odd: with every pressure and every face
    velocity of a state negated it leaves the negated pressures, for states
    whose numbers are at most [moderate] in magnitude. *)
Theorem SolvePressureRedBlack_is_odd cv ha va (h1 h2 : heap) :
  shaped (solverShapes cv ha va) h1 →
  bounded 8 8 (h1 cv) → bounded 8 9 (h1 ha) → bounded 9 8 (h1 va) →
  h2 cv = scaleGrid (-1) (h1 cv) → h2 ha = scaleGrid (-1) (h1 ha) →
  h2 va = scaleGrid (-1) (h1 va) →
  ∃ h1' h2' : heap,
    SolvePressureRedBlack cv ha va h1 = Some (tt, h1') ∧
    SolvePressureRedBlack cv ha va h2 = Some (tt, h2') ∧
    h2' cv = scaleGrid (-1) (h1' cv).
Proof.
  intros Hsh1 _ _ _ HP HH HV.
  assert (Hsh2 : shaped (solverShapes cv ha va) h2).
  { apply shaped_solver; rewrite ?HP, ?HH, ?HV; apply shape_scaleGrid;
      [shape_of cv|shape_of ha|shape_of va]. }
  destruct (SolvePressureRedBlack_run cv ha va h1 Hsh1)
    as (h1' & Hrun1 & _ & _ & Hval1).
  destruct (SolvePressureRedBlack_run cv ha va h2 Hsh2)
    as (h2' & Hrun2 & _ & _ & Hval2).
  exists h1', h2'. split_and!; try done.
  by rewrite Hval2, Hval1, HP, HH, HV, redBlackSweep_scale.
Qed.

Lemma SolvePressureRedBlack_is_odd_witness :
  ∃ h1' h2' : heap,
    SolvePressureRedBlack 0 1 3 sampleHeap = Some (tt, h1') ∧
    SolvePressureRedBlack 0 1 3
      (mkHeap (scaleGrid (-1) (sampleHeap 0%nat))
              (scaleGrid (-1) (sampleHeap 1%nat)) (constGrid 8 9 0%Qc)
              (scaleGrid (-1) (sampleHeap 3%nat)) (constGrid 9 8 0%Qc))
    = Some (tt, h2') ∧
    h2' 0%nat = scaleGrid (-1) (h1' 0%nat).
Proof.
  apply (SolvePressureRedBlack_is_odd 0 1 3 sampleHeap).
  - repeat constructor.
  - apply withinb_true. by vm_compute.
  - apply withinb_true. by vm_compute.
  - apply withinb_true. by vm_compute.
  - reflexivity.
  - reflexivity.
  - reflexivity.
Defined.

(** ** Response to a single vertical face velocity *)

Lemma unitResponseV_signs r c :
  0 < r < 8 → 0 ≤ c < 8 →
  (getd (unitResponseV r c) (r - 1) c < 0)%Qc ∧
  (0 < getd (unitResponseV r c) r c)%Qc.
Proof.
  intros Hr Hc.
  assert (Hall : forallb (λ rc,
            Qc_ltb (getd (unitResponseV rc.1 rc.2) (rc.1 - 1) rc.2) 0%Qc
            && Qc_ltb 0%Qc (getd (unitResponseV rc.1 rc.2) rc.1 rc.2))
            (list_prod (seqZ 1 7) (seqZ 0 8)) = true) by (by vm_compute).
  assert (Hin : In (r, c) (list_prod (seqZ 1 7) (seqZ 0 8))).
  { apply in_prod_iff. rewrite <- !list_elem_of_In, !elem_of_seqZ. lia. }
  rewrite forallb_forall in Hall. specialize (Hall (r, c) Hin).
  cbn [fst snd] in Hall. apply andb_true_iff in Hall as [H1 H2].
  split; by apply Qc_ltb_true.
Qed.

(** X9. From the all-zero state with one interior vertical face velocity
    [vVel[r][c] = v], [v > 0] and at most [moderate], one call of
    [SolvePressureRedBlack] leaves a negative pressure in the cell
    [(r - 1, c)] above the face and a positive one in the cell [(r, c)]
    below it. *)
Theorem single_vertical_face_response cv ha va (h : heap) r c (v : Qc) :
  shaped (solverShapes cv ha va) h →
  0 < r < gridSize → 0 ≤ c < gridSize → (0 < v)%Qc → (v ≤ moderate)%Qc →
  h cv = constGrid 8 8 0%Qc →
  h ha = constGrid 8 9 0%Qc →
  h va = put2 (constGrid 9 8 0%Qc) r c v →
  ∃ h' : heap,
    SolvePressureRedBlack cv ha va h = Some (tt, h') ∧
    (getd (h' cv) (r - 1) c < 0)%Qc ∧ (0 < getd (h' cv) r c)%Qc.
Proof.
  unfold gridSize. intros Hsh Hr Hc Hv _ HP HH HV.
  destruct (SolvePressureRedBlack_run cv ha va h Hsh) as (h' & Hrun & _ & _ & Hval).
  exists h'. split; [done|].
  rewrite Hval, HP, HH, HV.
  rewrite (constGrid_zero_scale 8 8 v), (constGrid_zero_scale 8 9 v),
    (put2_zero_scale 9 8 r c v) by (unfold inside; lia).
  rewrite redBlackSweep_scale, !getd_scaleGrid.
  destruct (unitResponseV_signs r c Hr Hc) as [Hneg Hpos].
  unfold unitResponseV in Hneg, Hpos. split.
  - pose proof (proj1 (Qcmult_lt_mono_pos_l _ _ v Hv) Hneg) as Hlt.
    by rewrite (Qcmult_0_r v) in Hlt.
  - pose proof (proj1 (Qcmult_lt_mono_pos_l _ _ v Hv) Hpos) as Hlt.
    by rewrite (Qcmult_0_r v) in Hlt.
Qed.

Lemma single_vertical_face_response_witness :
  ∃ h' : heap,
    SolvePressureRedBlack 0 1 3
      (<[3%nat := put2 (constGrid 9 8 0%Qc) 4 2 (num 5)]> zeroHeap)
    = Some (tt, h') ∧
    (getd (h' 0%nat) (4 - 1) 2 < 0)%Qc ∧ (0 < getd (h' 0%nat) 4 2)%Qc.
Proof.
  apply (single_vertical_face_response 0 1 3 _ 4 2 (num 5)).
  - repeat constructor.
  - unfold gridSize. lia.
  - unfold gridSize. lia.
  - reflexivity.
  - by vm_compute.
  - reflexivity.
  - reflexivity.
  - reflexivity.
Defined.

(** ** Reset *)

(** An invariant of the iterations, indexed by the elements already
    visited, holds after the loop. *)
Lemma foldl_invariant {A} (step : heap → A → heap) (ok : A → Prop)
    (Q : list A → heap → Prop) (l : list A) :
  (∀ done x (h : heap), Q done h → ok x → Q (done ++ [x]) (step h x)) →
  Forall ok l →
  ∀ done (h : heap), Q done h → Q (done ++ l) (foldl step h l).
Proof.
  intros Hstep. induction l as [|x l IH]; intros Hok done h HQ.
  { by rewrite app_nil_r. }
  apply Forall_cons_1 in Hok as [Hx Hok]. simpl.
  replace (done ++ x :: l) with ((done ++ [x]) ++ l)
    by (by rewrite <- app_assoc).
  apply IH; [done|]. by apply Hstep.
Qed.

Lemma inb_snoc rc done x :
  inb rc (done ++ [x]) = inb rc done || bool_decide (x = rc).
Proof.
  unfold inb. rewrite existsb_app. simpl. rewrite orb_false_r. f_equal.
  destruct x as [a b], rc as [r c]. simpl.
  destruct (Z.eqb_spec a r), (Z.eqb_spec b c); subst; simpl;
    symmetry; (by apply bool_decide_eq_true) || (apply bool_decide_eq_false; congruence).
Qed.

Lemma getd_put2 rows cols (g : grid) i j x r c :
  shape rows cols g → inside rows cols i j →
  getd (put2 g i j x) r c = if bool_decide ((i, j) = (r, c)) then x else getd g r c.
Proof.
  intros Hs Hin. destruct (decide ((i, j) = (r, c))) as [[= <- <-]|Hne].
  - rewrite bool_decide_eq_true_2 by done. by apply (getd_put2_eq rows cols).
  - rewrite bool_decide_eq_false_2 by done. by apply getd_put2_ne.
Qed.

Lemma Forall_inside_cells rows cols :
  Forall (λ rc : Z * Z, inside rows cols rc.1 rc.2)
         (cells (Z.of_nat rows) (Z.of_nat cols)).
Proof. apply Forall_forall. intros [r c] Hin%list_elem_of_In. by apply elem_of_cells. Qed.

Lemma tabulate_const rows cols x :
  tabulate rows cols (λ _ _, x) = constGrid rows cols x.
Proof.
  apply (grid_ext rows cols); [apply shape_tabulate|apply shape_constGrid|].
  intros r c Hin. by rewrite getd_tabulate, getd_constGrid.
Qed.

(** [ResetPressure] runs without a fault; it leaves the pressures and the
    vertical arrows all zero and the horizontal arrows zero in the columns 0
    to 7, and it does not touch their last column. *)
Lemma ResetPressure_run cv ha va (h : heap) :
  shaped (solverShapes cv ha va) h →
  ∃ h' : heap,
    ResetPressure cv ha va h = Some (tt, h') ∧
    shaped (solverShapes cv ha va) h' ∧
    (∀ l, l ≠ cv → l ≠ ha → l ≠ va → h' l = h l) ∧
    h' cv = constGrid 8 8 0%Qc ∧
    h' va = constGrid 9 8 0%Qc ∧
    h' ha = tabulate 8 9 (λ row col,
              if col <? 8 then 0%Qc else getd (h ha) row col).
Proof.
  intros Hsh. destruct (solver_distinct _ _ _ _ Hsh) as (Hch & Hcv & Hhv).
  destruct (write_loop cv 8 8 (λ _ _, num 0) (λ _, [])
              (solverShapes cv ha va)
              (λ rc, wr cv rc.1 rc.2 (num 0))) with
    (h := h) (cs := cells 8 8) as (h1 & Hrun1 & Hsh1 & Hfr1 & Hval1).
  { done. }
  { by repeat constructor. }
  { intros h1 [r c] Hsh1 Hin. eapply wr_inside; [shape_of cv|done]. }
  { done. }
  { by vm_compute. }
  { by vm_compute. }
  assert (Hc1 : h1 cv = constGrid 8 8 0%Qc).
  { rewrite Hval1, <- tabulate_const. apply tabulate_ext. intros r c Hin.
    by rewrite (inb_cells 8 8). }
  destruct (for_foldl (shaped (solverShapes cv ha va))
              (λ ij : Z * Z,
                 let* _ := (if ij.1 <? gridSize + 1
                            then wr va ij.1 ij.2 (num 0) else ret tt) in
                 if (ij.1 <? gridSize) && (ij.2 <=? gridSize)
                 then wr ha ij.1 ij.2 (num 0) else ret tt)
              (resetStep ha va) (cells 9 8) h1) as [Hrun2 Hsh2].
  { intros [i j] h2 Hin%(elem_of_cells 9 8) Hsh2. pose proof Hin as [Hi Hj].
    unfold resetStep, gridSize. cbn [fst snd].
    assert (Hv2 : shape 9 8 (h2 va)) by shape_of va.
    assert (Hh2 : shape 8 9 (h2 ha)) by shape_of ha.
    destruct (Z.ltb_spec i (8 + 1)); [|lia].
    erewrite bind_Some by (by eapply wr_inside).
    assert (Hsh3 : shaped (solverShapes cv ha va)
                     (<[va := put2 (h2 va) i j (num 0)]> h2)).
    { eapply shaped_insert; [done|done|by apply shape_put2]. }
    destruct (Z.ltb_spec i 8), (Z.leb_spec j 8); cbn [andb]; try lia.
    - split.
      + eapply wr_inside; [shape_of ha|unfold inside; lia].
      + eapply shaped_insert; [done|shape_of ha|apply shape_put2; shape_of ha].
    - done. }
  { done. }
  set (h2 := foldl (resetStep ha va) h1 (cells 9 8)) in *.
  pose (Q := λ (done : list (Z * Z)) (h' : heap),
          shaped (solverShapes cv ha va) h' ∧
          (∀ l, l ≠ ha → l ≠ va → h' l = h1 l) ∧
          (∀ r c, getd (h' va) r c
                  = if inb (r, c) done then 0%Qc else getd (h1 va) r c) ∧
          (∀ r c, getd (h' ha) r c
                  = if inb (r, c) done && (r <? 8) then 0%Qc
                    else getd (h1 ha) r c)).
  assert (HQ : Q ([] ++ cells 9 8) h2).
  { apply (foldl_invariant (resetStep ha va)
             (λ rc, inside 9 8 rc.1 rc.2) Q).
    - intros done [i j] h' (Hs' & Hfr' & Hva' & Hha') [Hi Hj].
      unfold resetStep, gridSize. cbn [fst snd] in *.
      assert (Hv' : shape 9 8 (h' va)) by shape_of va.
      assert (Hh' : shape 8 9 (h' ha)) by shape_of ha.
      assert (Hs1 : shaped (solverShapes cv ha va)
                      (<[va := put2 (h' va) i j (num 0)]> h')).
      { eapply shaped_insert; [done|done|by apply shape_put2]. }
      destruct (Z.ltb_spec i 8), (Z.leb_spec j 8); cbn [andb]; try lia.
      + split_and!.
        * eapply shaped_insert; [done|shape_of ha|apply shape_put2; shape_of ha].
        * intros l Hlh Hlv. rewrite !fn_lookup_insert_ne by done. by apply Hfr'.
        * intros r c. rewrite fn_lookup_insert_ne, fn_lookup_insert by done.
          rewrite (getd_put2 9 8), inb_snoc, Hva' by (done || unfold inside; lia).
          by destruct (bool_decide _), (inb (r, c) done).
        * intros r c. rewrite fn_lookup_insert, fn_lookup_insert_ne by done.
          rewrite (getd_put2 8 9), inb_snoc, Hha' by (done || unfold inside; lia).
          destruct (decide ((i, j) = (r, c))) as [[= <- <-]|Hne].
          -- rewrite !bool_decide_eq_true_2 by done.
             destruct (Z.ltb_spec i 8); [|lia]. by rewrite orb_true_r.
          -- rewrite !bool_decide_eq_false_2 by done. by rewrite orb_false_r.
      + split_and!.
        * done.
        * intros l Hlh Hlv. rewrite !fn_lookup_insert_ne by done. by apply Hfr'.
        * intros r c. rewrite fn_lookup_insert.
          rewrite (getd_put2 9 8), inb_snoc, Hva' by (done || unfold inside; lia).
          by destruct (bool_decide _), (inb (r, c) done).
        * intros r c. rewrite fn_lookup_insert_ne by done.
          rewrite inb_snoc, Hha'.
          destruct (decide ((i, j) = (r, c))) as [[= <- <-]|Hne].
          -- destruct (Z.ltb_spec i 8); [lia|]. by rewrite !andb_false_r.
          -- rewrite bool_decide_eq_false_2 by done. by rewrite orb_false_r.
    - apply (Forall_inside_cells 9 8).
    - unfold Q. split_and!; try done. }
  destruct HQ as (_ & Hfr2 & Hva2 & Hha2). simpl app in *.
  exists h2. split_and!.
  - unfold ResetPressure.
    erewrite bind_Some; [|rewrite for_nested; exact Hrun1].
    rewrite for_nested. exact Hrun2.
  - done.
  - intros l Hlc Hlh Hlv. by rewrite Hfr2, Hfr1.
  - by rewrite Hfr2.
  - apply (grid_ext 9 8); [shape_of va|apply shape_constGrid|].
    intros r c Hin. by rewrite Hva2, (inb_cells 9 8), getd_constGrid.
  - apply (grid_ext 8 9); [shape_of ha|apply shape_tabulate|].
    intros r c Hin. rewrite Hha2, getd_tabulate, Hfr1 by done.
    destruct Hin as [Hr Hc].
    destruct (Z.ltb_spec r 8); [|lia]. rewrite andb_true_r.
    destruct (Z.ltb_spec c 8).
    + by rewrite (inb_cells 9 8) by (unfold inside; lia).
    + replace (inb (r, c) (cells 9 8)) with false; [done|].
      symmetry. apply inb_false. intros Hel%(elem_of_cells 9 8).
      destruct Hel. simpl in *. lia.
Qed.

(** X10. [ResetPressure] zeroes the pressure array, the vertical arrows and
    the columns 0 to 7 of the horizontal arrows; its inner loop stops at
    column 7, so the last column of the horizontal arrows,
    [horizontalArrows[row][8]], keeps the values it had. *)
Theorem ResetPressure_skips_last_column cv ha va (h : heap) :
  shaped (solverShapes cv ha va) h →
  ∃ h' : heap,
    ResetPressure cv ha va h = Some (tt, h') ∧
    h' cv = constGrid 8 8 0%Qc ∧
    h' va = constGrid 9 8 0%Qc ∧
    (∀ row col, 0 ≤ row < 8 → 0 ≤ col < 8 → getd (h' ha) row col = 0%Qc) ∧
    (∀ row, 0 ≤ row < 8 → getd (h' ha) row 8 = getd (h ha) row 8).
Proof.
  intros Hsh.
  destruct (ResetPressure_run cv ha va h Hsh)
    as (h' & Hrun & _ & _ & HP & HV & HH).
  exists h'. split_and!; try done.
  - intros row col Hr Hc. rewrite HH, getd_tabulate by (unfold inside; lia).
    by destruct (Z.ltb_spec col 8); [|lia].
  - intros row Hr. by rewrite HH, getd_tabulate by (unfold inside; lia).
Qed.

Lemma ResetPressure_skips_last_column_witness :
  ∃ h' : heap,
    ResetPressure 0 1 3 wallFlow = Some (tt, h') ∧
    h' 0%nat = constGrid 8 8 0%Qc ∧
    h' 3%nat = constGrid 9 8 0%Qc ∧
    (∀ row col, 0 ≤ row < 8 → 0 ≤ col < 8 → getd (h' 1%nat) row col = 0%Qc) ∧
    (∀ row, 0 ≤ row < 8 → getd (h' 1%nat) row 8 = getd (wallFlow 1%nat) row 8).
Proof.
  apply (ResetPressure_skips_last_column 0 1 3 wallFlow).
  repeat constructor.
Defined.

(** A horizontal sample that is zero in a field without vertical flow is
    not moved by the advection. *)
Lemma newHorizontal_at_rest (H : grid) row col :
  inside 8 9 row col → getd H row col = 0%Qc →
  newHorizontal H (constGrid 9 8 0%Qc) row col = 0%Qc.
Proof.
  intros [Hr Hc] Hzero. unfold newHorizontal. cbv zeta.
  rewrite sampleX_at_sample, sampleY_const, Hzero by lia. cbn [fst snd].
  replace (ofZ col - DELTA_TIME * 0)%Qc with (ofZ col) by ring.
  replace (ofZ row + num 0.5 - DELTA_TIME * 0)%Qc with (ofZ row + num 0.5)%Qc
    by ring.
  by rewrite sampleX_at_sample by lia.
Qed.

Lemma advectV_no_vertical_flow (H : grid) :
  advectV H (constGrid 9 8 0%Qc) = constGrid 9 8 0%Qc.
Proof.
  apply (grid_ext 9 8); [apply shape_tabulate|apply shape_constGrid|].
  intros r c Hin. unfold advectV. rewrite getd_tabulate, getd_constGrid by done.
  unfold newVertical. cbv zeta. apply sampleY_const.
Qed.

(** X11. After [ResetPressure] one tick (advection, relaxation sweep,
    projection) leaves the pressures and both velocity arrays all zero,
    whatever the arrays held before the reset: the last column of the
    horizontal arrows, which the reset skips, is read by no cell of the
    sweep and is zeroed by the projection. *)
Theorem reset_then_tick_is_zero cv ha ht va vt (h : heap) :
  shaped (solverShapes cv ha va) h →
  shaped (advectShapes ha ht va vt) h → ht ≠ ha → vt ≠ va →
  ∃ h' : heap,
    (let* _ := ResetPressure cv ha va in tick cv ha ht va vt) h
    = Some (tt, h') ∧
    h' cv = constGrid 8 8 0%Qc ∧
    h' ha = constGrid 8 9 0%Qc ∧
    h' va = constGrid 9 8 0%Qc.
Proof.
  intros Hsol Hadv Hh Hv.
  destruct (solver_distinct _ _ _ _ Hsol) as (Hch & Hcv & Hhv).
  destruct (advect_distinct _ _ _ _ _ Hadv) as (_ & Havt & Htv & _).
  assert (Hct : cv ≠ ht).
  { intros ->. assert (H1 : shape 8 8 (h ht)) by shape_of ht.
    assert (H2 : shape 8 9 (h ht)) by shape_of ht.
    destruct (shape_inj 8 8 8 9 _ ltac:(lia) H1 H2). lia. }
  assert (Hcvt : cv ≠ vt).
  { intros ->. assert (H1 : shape 8 8 (h vt)) by shape_of vt.
    assert (H2 : shape 9 8 (h vt)) by shape_of vt.
    destruct (shape_inj 8 8 9 8 _ ltac:(lia) H1 H2). lia. }
  destruct (ResetPressure_run cv ha va h Hsol)
    as (h0 & Hrun0 & Hsol0 & Hfr0 & HP0 & HV0 & HH0).
  assert (Hadv0 : shaped (advectShapes ha ht va vt) h0).
  { unfold shaped, advectShapes.
    constructor; [shape_of ha|]. constructor.
    { simpl. rewrite Hfr0 by done. shape_of ht. }
    constructor; [shape_of va|]. constructor; [|constructor].
    simpl. rewrite Hfr0 by done. shape_of vt. }
  destruct (AdvectVelocities_run ha ht va vt h0 Hadv0 Hh Hv)
    as (h1 & Hrun1 & Hadv1 & Hfr1 & HH1 & HV1 & _).
  rewrite HV0 in HH1, HV1. rewrite advectV_no_vertical_flow in HV1.
  assert (Hcols : ∀ r c, 0 ≤ r < 8 → 0 ≤ c < 8 → getd (h1 ha) r c = 0%Qc).
  { intros r c Hr Hc. rewrite HH1. unfold advectH.
    rewrite getd_tabulate by (unfold inside; lia).
    apply newHorizontal_at_rest; [unfold inside; lia|].
    rewrite HH0, getd_tabulate by (unfold inside; lia).
    by destruct (Z.ltb_spec c 8); [|lia]. }
  assert (Hc1 : h1 cv = constGrid 8 8 0%Qc) by (by rewrite Hfr1).
  assert (Hsol1 : shaped (solverShapes cv ha va) h1).
  { apply shaped_solver; [rewrite Hc1; apply shape_constGrid|shape_of ha|shape_of va]. }
  destruct (SolvePressureRedBlack_run cv ha va h1 Hsol1)
    as (h2 & Hrun2 & Hsol2 & Hfr2 & HP2).
  assert (Hc2 : h2 cv = constGrid 8 8 0%Qc).
  { rewrite HP2, Hc1, HV1. apply redBlackSweep_fixed_iff; [apply shape_constGrid|].
    intros r c [Hr Hc]. rewrite getd_zero, relaxCell_zero_pressure.
    unfold cellDivergence. rewrite !getd_zero.
    destruct (Z.eqb_spec c 7), (r =? 7);
      rewrite ?(Hcols r c), ?(Hcols r (c + 1)) by lia; ring. }
  destruct (CalculateVelocities_run cv ha va h2 Hsol2)
    as (h3 & Hrun3 & _ & Hfr3 & HV3 & HH3).
  rewrite Hc2, !Hfr2 in HV3, HH3 by done.
  rewrite HV1, projectV_zero in HV3.
  exists h3. split_and!.
  - rewrite (bind_Some _ _ _ _ _ Hrun0). unfold tick.
    by rewrite (bind_Some _ _ _ _ _ Hrun1), (bind_Some _ _ _ _ _ Hrun2).
  - by rewrite Hfr3.
  - rewrite HH3. unfold projectH. rewrite <- (tabulate_const 8 9 0%Qc).
    apply tabulate_ext. intros r c [Hr Hc].
    destruct (Z.eqb_spec c 0), (Z.eqb_spec c 8); cbn [orb];
      try apply num_zero.
    rewrite (Hcols r c), !getd_zero by lia. ring.
  - done.
Qed.

Lemma reset_then_tick_is_zero_witness :
  ∃ h' : heap,
    (let* _ := ResetPressure 0 1 3 in tick 0 1 2 3 4) sampleHeap
    = Some (tt, h') ∧
    h' 0%nat = constGrid 8 8 0%Qc ∧
    h' 1%nat = constGrid 8 9 0%Qc ∧
    h' 3%nat = constGrid 9 8 0%Qc.
Proof.
  apply (reset_then_tick_is_zero 0 1 2 3 4 sampleHeap).
  - repeat constructor.
  - repeat constructor.
  - lia.
  - lia.
Defined.

(** ** The variant with positions in pixels *)

Lemma at2_outside rows cols (g : grid) r c :
  shape rows cols g → ¬ inside rows cols r c → at2 g r c = None.
Proof.
  intros Hs Hout. unfold at2, idx.
  destruct (decide (0 ≤ r)); [|done].
  destruct (g !! Z.to_nat r) as [rw|] eqn:Hrw; [|done]. simpl.
  destruct (decide (0 ≤ c)); [|done].
  apply lookup_ge_None_2.
  pose proof (shape_row _ _ _ _ _ Hs Hrw) as Hlen.
  apply lookup_lt_Some in Hrw. destruct Hs as [Hrows _].
  unfold inside in Hout. lia.
Qed.

Lemma rd_outside rows cols a r c (h : heap) :
  shape rows cols (h a) → ¬ inside rows cols r c → rd a r c h = None.
Proof. intros Hs Hout. unfold rd. by erewrite at2_outside. Qed.

Lemma bind_None {A B} (m : M A) (k : A → M B) (h : heap) :
  m h = None → bind m k h = None.
Proof. intros Hm. unfold bind. by rewrite Hm. Qed.

Lemma GetVelocityXAtWorldPos_run worldPos cellSize ha (h : heap) :
  shape 8 9 (h ha) →
  Math_trunc (worldToGrid cellSize worldPos.2) < 7 →
  WorldVariant.GetVelocityXAtWorldPos worldPos cellSize ha h
  = Some (worldSample (h ha) cellSize worldPos, h).
Proof.
  intros Hs Hlt. unfold WorldVariant.GetVelocityXAtWorldPos, worldSample.
  fold (worldToGrid cellSize worldPos.1). fold (worldToGrid cellSize worldPos.2).
  unfold gridSize in *. cbv zeta. by repeat run_rd.
Qed.

Lemma GetVelocityYAtWorldPos_run worldPos cellSize va (h : heap) :
  shape 9 8 (h va) →
  Math_trunc (worldToGrid cellSize worldPos.1) < 7 →
  WorldVariant.GetVelocityYAtWorldPos worldPos cellSize va h
  = Some (worldSample (h va) cellSize worldPos, h).
Proof.
  intros Hs Hlt. unfold WorldVariant.GetVelocityYAtWorldPos, worldSample.
  fold (worldToGrid cellSize worldPos.1). fold (worldToGrid cellSize worldPos.2).
  unfold gridSize in *. cbv zeta. by repeat run_rd.
Qed.

Section RunWriteLoopInv.
Variables (a : loc) (rows cols : nat).
Variable f : heap → Z * Z → Qc.
Variable deps : Z * Z → list (Z * Z).
Variable req : list (loc * nat * nat).
Variable Inv : heap → Prop.
Variable body : Z * Z → M unit.

Hypothesis f_frame : ∀ (h h' : heap) rc,
  (∀ l, l ≠ a → h' l = h l) →
  (∀ d, d ∈ deps rc → getd (h' a) d.1 d.2 = getd (h a) d.1 d.2) →
  f h' rc = f h rc.
Hypothesis req_a : (a, rows, cols) ∈ req.
Hypothesis Inv_insert : ∀ (h : heap) g, Inv h → Inv (<[a := g]> h).
Hypothesis body_run : ∀ (h : heap) rc,
  shaped req h → Inv h → inside rows cols rc.1 rc.2 →
  body rc h = Some (tt, wstep a f h rc).

(** [write_loop] for a body that needs, beside the shapes, a property of
    the heap that no store to the array at [a] can break. *)
Lemma write_loop_inv (h : heap) cs :
  shaped req h → Inv h →
  ordered deps [] cs = true →
  forallb (insideb rows cols) cs = true →
  ∃ h' : heap,
    for_ cs body h = Some (tt, h') ∧ shaped req h' ∧ Inv h' ∧
    (∀ l, l ≠ a → h' l = h l) ∧
    h' a = tabulate rows cols
             (λ r c, if inb (r, c) cs then f h (r, c) else getd (h a) r c).
Proof.
  intros Hsh Hinv Hord Hin. exists (foldl (wstep a f) h cs).
  destruct (for_foldl (λ h, shaped req h ∧ Inv h) body (wstep a f) cs h)
    as [Hrun [Hsh' Hinv']].
  - intros rc h1 Hel [Hsh1 Hinv1].
    assert (Hrc : inside rows cols rc.1 rc.2).
    { apply insideb_true. rewrite forallb_forall in Hin.
      by apply Hin, list_elem_of_In. }
    split; [by apply body_run|]. unfold wstep. split.
    + eapply shaped_insert; [done| |].
      * by eapply shaped_lookup.
      * apply shape_put2. by eapply shaped_lookup.
    + by apply Inv_insert.
  - done.
  - destruct (foldl_wstep a rows cols f deps f_frame h cs) as [Hfr Hval];
      try done.
    by eapply shaped_lookup.
Qed.
End RunWriteLoopInv.

Lemma this_inv (x : Qc) : (this (/ x)%Qc == / this x)%Q.
Proof. apply Qred_correct. Qed.

Lemma this_div (x y : Qc) : (this (x / y)%Qc == this x / this y)%Q.
Proof. unfold Qcdiv. rewrite this_mult, this_inv. reflexivity. Qed.

(** With cells of 9 pixels or more, a coordinate between 0 and 8.5 pixels
    lies in the cell with index 4. *)
Lemma trunc_worldToGrid (cellSize x : Qc) :
  (num 9 ≤ cellSize)%Qc → (0 ≤ x)%Qc → (x ≤ num 8.5)%Qc →
  Math_trunc (worldToGrid cellSize x) = 4.
Proof.
  unfold Qcle. change (this 0%Qc) with 0%Q. change (this (num 9)) with 9%Q.
  change (this (num 8.5)) with (17 # 2)%Q. intros Hc H0 H8.
  assert (Hy : (4 <= this (worldToGrid cellSize x) < 5)%Q).
  { unfold worldToGrid. rewrite this_div, this_plus, this_div, this_mult.
    change (this (ofZ gridSize)) with 8%Q. change (this (num 2.0)) with 2%Q.
    assert (Hhalf : (8 * this cellSize / 2 == 4 * this cellSize)%Q) by field.
    rewrite Hhalf. split.
    - apply Qle_shift_div_l; lra.
    - apply Qlt_shift_div_r; lra. }
  destruct Hy as [Hlo Hhi]. unfold Math_trunc.
  replace (Qle_bool 0 (this (worldToGrid cellSize x))) with true
    by (symmetry; apply Qle_bool_iff; lra).
  apply Z.le_antisymm.
  - apply Z.lt_succ_r. rewrite Zlt_Qlt.
    eapply Qle_lt_trans; [apply Qfloor_le|]. exact Hhi.
  - rewrite <- (Qfloor_Z 4). by apply Qfloor_resp_le.
Qed.

Lemma ofZ_le (m n : Z) : m ≤ n → (ofZ m ≤ ofZ n)%Qc.
Proof. intros Hmn. unfold Qcle, ofZ, Qc_of_Z. cbn [this]. by rewrite <- Zle_Qle. Qed.

Lemma trunc_sample_coordinate (cellSize : Qc) n :
  (num 9 ≤ cellSize)%Qc → 0 ≤ n ≤ 8 →
  Math_trunc (worldToGrid cellSize (ofZ n)) = 4 ∧
  Math_trunc (worldToGrid cellSize (ofZ n + num 0.5)) = 4.
Proof.
  intros Hc Hn.
  pose proof (ofZ_le 0 n ltac:(lia)) as H0.
  pose proof (ofZ_le n 8 ltac:(lia)) as H8.
  unfold Qcle in H0, H8. change (this (ofZ 0)) with 0%Q in H0.
  change (this (ofZ 8)) with 8%Q in H8.
  split; apply trunc_worldToGrid; try done; unfold Qcle;
    rewrite ?this_plus; change (this 0%Qc) with 0%Q;
    change (this (num 8.5)) with (17 # 2)%Q;
    change (this (num 0.5)) with (1 # 2)%Q; lra.
Qed.

(** In the cell with index 4 the sampler interpolates the four entries with
    indices 4 and 5. *)
Lemma worldSample_centre (g : grid) (cellSize : Qc) worldPos :
  Math_trunc (worldToGrid cellSize worldPos.1) = 4 →
  Math_trunc (worldToGrid cellSize worldPos.2) = 4 →
  centreZero g → worldSample g cellSize worldPos = 0%Qc.
Proof.
  intros Hx Hy (H44 & H45 & H54 & H55). unfold worldSample. cbv zeta.
  rewrite Hx, Hy. unfold gridSize.
  change (Z.min (Z.max 0 4) (8 - 1)) with 4. change (4 + 1) with 5.
  rewrite H44, H45, H54, H55. by rewrite !lerp_same.
Qed.

(** With cells of 9 pixels or more and nothing stored at the indices 4 and
    5, the value computed for any sample is zero. *)
Lemma world_body_zero (cellSize : Qc) ha va (h : heap) (pos : Qc * Qc) :
  shape 8 9 (h ha) → shape 9 8 (h va) →
  centreZero (h ha) → centreZero (h va) →
  Math_trunc (worldToGrid cellSize pos.1) = 4 →
  Math_trunc (worldToGrid cellSize pos.2) = 4 →
  (let* velX := WorldVariant.GetVelocityXAtWorldPos pos cellSize ha in
   let* velY := WorldVariant.GetVelocityYAtWorldPos pos cellSize va in
   ret (velX, velY)) h = Some ((0%Qc, 0%Qc), h) ∧
  WorldVariant.GetVelocityXAtWorldPos pos cellSize ha h = Some (0%Qc, h) ∧
  WorldVariant.GetVelocityYAtWorldPos pos cellSize va h = Some (0%Qc, h).
Proof.
  intros Hh Hv Hch Hcv Hx Hy.
  assert (HX : WorldVariant.GetVelocityXAtWorldPos pos cellSize ha h
               = Some (0%Qc, h)).
  { rewrite GetVelocityXAtWorldPos_run by (done || lia).
    by rewrite worldSample_centre. }
  assert (HY : WorldVariant.GetVelocityYAtWorldPos pos cellSize va h
               = Some (0%Qc, h)).
  { rewrite GetVelocityYAtWorldPos_run by (done || lia).
    by rewrite worldSample_centre. }
  split_and!; try done.
  by rewrite (bind_Some _ _ _ _ _ HX), (bind_Some _ _ _ _ _ HY).
Qed.

Lemma pos_unmoved (x y : Qc) :
  ((x - DELTA_TIME * 0)%Qc, (y - DELTA_TIME * 0)%Qc) = (x, y).
Proof. f_equal; ring. Qed.

(** X13. In the variant with positions in pixels the sample positions are
    the bare indices, so with cells of 9 pixels or more (and at most
    [moderate]) every sample is taken in the cell with index 4: if the four
    entries with indices 4 and 5 of both velocity arrays are zero,
    [AdvectVelocities] leaves both arrays all zero, whatever the other
    samples were. *)
Theorem world_advection_erases_the_flow (cellSize : Qc) ha ht va vt
    (h : heap) :
  shaped (advectShapes ha ht va vt) h → ht ≠ ha → vt ≠ va →
  (num 9 ≤ cellSize)%Qc → (cellSize ≤ moderate)%Qc →
  centreZero (h ha) → centreZero (h va) →
  ∃ h' : heap,
    WorldVariant.AdvectVelocities cellSize ha ht va vt h = Some (tt, h') ∧
    h' ha = constGrid 8 9 0%Qc ∧ h' va = constGrid 9 8 0%Qc.
Proof.
  intros Hsh Hh Hv Hc _ Hch Hcv.
  destruct (advect_distinct _ _ _ _ _ Hsh) as (Hav & Havt & Htv & Htt).
  pose (Inv := λ h' : heap, centreZero (h' ha) ∧ centreZero (h' va)).
  destruct (write_loop_inv vt 9 8 (λ _ _, 0%Qc) (λ _, [])
              (advectShapes ha ht va vt) Inv
              (λ rc,
                 let pos := (ofZ rc.1, (ofZ rc.2 + num 0.5)%Qc) in
                 let* velX := WorldVariant.GetVelocityXAtWorldPos pos cellSize ha in
                 let* velY := WorldVariant.GetVelocityYAtWorldPos pos cellSize va in
                 let pos := ((pos.1 - DELTA_TIME * velX)%Qc,
                             (pos.2 - DELTA_TIME * velY)%Qc) in
                 let* newVel := WorldVariant.GetVelocityYAtWorldPos pos cellSize va in
                 wr vt rc.1 rc.2 newVel)) with
    (h := h) (cs := cells 9 8) as (h1 & Hrun1 & Hsh1 & Hinv1 & Hfr1 & Hval1).
  { done. }
  { by repeat constructor. }
  { intros h0 g [? ?]. unfold Inv. by rewrite !fn_lookup_insert_ne. }
  { intros h0 [r c] Hsh0 [Hc0 Hc0'] [Hr Hcc]. cbn [fst snd] in *.
    assert (Hh0 : shape 8 9 (h0 ha)) by shape_of ha.
    assert (Hv0 : shape 9 8 (h0 va)) by shape_of va.
    destruct (trunc_sample_coordinate cellSize r Hc ltac:(lia)) as [Hx _].
    destruct (trunc_sample_coordinate cellSize c Hc ltac:(lia)) as [_ Hy].
    destruct (world_body_zero cellSize ha va h0 (ofZ r, (ofZ c + num 0.5)%Qc))
      as (_ & HX & HY); try done.
    cbv zeta. rewrite (bind_Some _ _ _ _ _ HX), (bind_Some _ _ _ _ _ HY).
    cbn [fst snd]. rewrite pos_unmoved, (bind_Some _ _ _ _ _ HY).
    eapply wr_inside; [shape_of vt|done]. }
  { done. }
  { done. }
  { by vm_compute. }
  { by vm_compute. }
  destruct (write_loop_inv ht 8 9 (λ _ _, 0%Qc) (λ _, [])
              (advectShapes ha ht va vt) Inv
              (λ rc,
                 let pos := ((ofZ rc.1 + num 0.5)%Qc, ofZ rc.2) in
                 let* velX := WorldVariant.GetVelocityXAtWorldPos pos cellSize ha in
                 let* velY := WorldVariant.GetVelocityYAtWorldPos pos cellSize va in
                 let pos := ((pos.1 - DELTA_TIME * velX)%Qc,
                             (pos.2 - DELTA_TIME * velY)%Qc) in
                 let* newVel := WorldVariant.GetVelocityXAtWorldPos pos cellSize ha in
                 wr ht rc.1 rc.2 newVel)) with
    (h := h1) (cs := cells 8 9) as (h2 & Hrun2 & Hsh2 & Hinv2 & Hfr2 & Hval2).
  { done. }
  { by repeat constructor. }
  { intros h0 g [? ?]. unfold Inv. by rewrite !fn_lookup_insert_ne. }
  { intros h0 [r c] Hsh0 [Hc0 Hc0'] [Hr Hcc]. cbn [fst snd] in *.
    assert (Hh0 : shape 8 9 (h0 ha)) by shape_of ha.
    assert (Hv0 : shape 9 8 (h0 va)) by shape_of va.
    destruct (trunc_sample_coordinate cellSize r Hc ltac:(lia)) as [_ Hx].
    destruct (trunc_sample_coordinate cellSize c Hc ltac:(lia)) as [Hy _].
    destruct (world_body_zero cellSize ha va h0 ((ofZ r + num 0.5)%Qc, ofZ c))
      as (_ & HX & HY); try done.
    cbv zeta. rewrite (bind_Some _ _ _ _ _ HX), (bind_Some _ _ _ _ _ HY).
    cbn [fst snd]. rewrite pos_unmoved, (bind_Some _ _ _ _ _ HX).
    eapply wr_inside; [shape_of ht|done]. }
  { done. }
  { done. }
  { by vm_compute. }
  { by vm_compute. }
  destruct (write_loop va 9 8
              (λ (h : heap) rc, getd (h vt) rc.1 rc.2)
              (λ _, []) (advectShapes ha ht va vt)
              (λ rc, let* x := rd vt rc.1 rc.2 in wr va rc.1 rc.2 x)) with
    (h := h2) (cs := cells 9 8) as (h3 & Hrun3 & Hsh3 & Hfr3 & Hval3).
  { intros h3 h4 rc Hother _. by rewrite (Hother vt). }
  { by repeat constructor. }
  { intros h3 [r c] Hsh3 Hin. simpl in *.
    erewrite bind_Some by (eapply rd_inside; [shape_of vt|done]).
    eapply wr_inside; [shape_of va|done]. }
  { done. }
  { by vm_compute. }
  { by vm_compute. }
  destruct (write_loop ha 8 9
              (λ (h : heap) rc, getd (h ht) rc.1 rc.2)
              (λ _, []) (advectShapes ha ht va vt)
              (λ rc, let* x := rd ht rc.1 rc.2 in wr ha rc.1 rc.2 x)) with
    (h := h3) (cs := cells 8 9) as (h4 & Hrun4 & Hsh4 & Hfr4 & Hval4).
  { intros h5 h6 rc Hother _. by rewrite (Hother ht). }
  { by repeat constructor. }
  { intros h5 [r c] Hsh5 Hin. simpl in *.
    erewrite bind_Some by (eapply rd_inside; [shape_of ht|done]).
    eapply wr_inside; [shape_of ha|done]. }
  { done. }
  { by vm_compute. }
  { by vm_compute. }
  assert (Hvt1 : h1 vt = constGrid 9 8 0%Qc).
  { rewrite Hval1, <- tabulate_const. apply tabulate_ext. intros r c Hin.
    by rewrite (inb_cells 9 8). }
  assert (Hht2 : h2 ht = constGrid 8 9 0%Qc).
  { rewrite Hval2, <- tabulate_const. apply tabulate_ext. intros r c Hin.
    by rewrite (inb_cells 8 9). }
  exists h4. split_and!.
  - unfold WorldVariant.AdvectVelocities.
    erewrite bind_Some; [|rewrite for_nested; exact Hrun1].
    erewrite bind_Some; [|rewrite for_nested; exact Hrun2].
    erewrite bind_Some; [|rewrite for_nested; exact Hrun3].
    rewrite for_nested. exact Hrun4.
  - rewrite Hval4, Hfr3, Hht2 by done. rewrite <- tabulate_const.
    apply tabulate_ext. intros r c Hin.
    rewrite (inb_cells 8 9) by done. cbn [fst snd].
    by rewrite getd_tabulate.
  - rewrite Hfr4, Hval3, Hfr2, Hvt1 by done. rewrite <- tabulate_const.
    apply tabulate_ext. intros r c Hin.
    rewrite (inb_cells 9 8) by done. cbn [fst snd].
    by rewrite getd_tabulate.
Qed.

Lemma world_advection_erases_the_flow_witness :
  ∃ h' : heap,
    WorldVariant.AdvectVelocities (num 50) 1 2 3 4 rimFlow = Some (tt, h') ∧
    h' 1%nat = constGrid 8 9 0%Qc ∧ h' 3%nat = constGrid 9 8 0%Qc.
Proof.
  apply (world_advection_erases_the_flow (num 50) 1 2 3 4 rimFlow).
  - repeat constructor.
  - lia.
  - lia.
  - discriminate.
  - by vm_compute.
  - repeat split; apply this_inj; vm_compute; reflexivity.
  - repeat split; apply this_inj; vm_compute; reflexivity.
Defined.

(** ** Random velocities *)

(** The loop of [RandomiseVelocities] over elements that name samples of
    the arrays: every sample holds the velocity drawn at the last element
    that stands for it, and keeps its value if there is none. *)
Lemma randomise_loop Math_random cv ha va ls (h : heap) :
  shaped (solverShapes cv ha va) h →
  forallb lineInside ls = true →
  ∃ h' : heap,
    for_ ls (randomiseLine Math_random ha va) h = Some (tt, h') ∧
    shaped (solverShapes cv ha va) h' ∧
    (∀ l, l ≠ ha → l ≠ va → h' l = h l) ∧
    (∀ r c, inside 9 8 r c →
       getd (h' va) r c =
       match lastIndex (isVertical r c) ls with
       | Some k => magnitudeOf (Math_random k)
       | None => getd (h va) r c
       end) ∧
    (∀ r c, inside 8 9 r c →
       getd (h' ha) r c =
       match lastIndex (isHorizontal r c) ls with
       | Some k => magnitudeOf (Math_random k)
       | None => getd (h ha) r c
       end).
Proof.
  revert h. induction ls as [|[k l] ls IH]; intros h Hsh Hin.
  { exists h. by split_and!. }
  destruct (solver_distinct _ _ _ _ Hsh) as (Hch & Hcv & Hhv).
  assert (Hv : shape 9 8 (h va)) by shape_of va.
  assert (Hh : shape 8 9 (h ha)) by shape_of ha.
  simpl in Hin. apply andb_true_iff in Hin as [Hl Hls].
  destruct l as [r c|r c]; unfold lineInside in Hl; cbn [snd] in Hl;
    apply insideb_true in Hl; cbn [fst snd] in Hl.
  - destruct (IH (<[va := put2 (h va) r c (magnitudeOf (Math_random k))]> h))
      as (h' & Hrun & Hsh' & Hfr & HV & HH); [|done|].
    { eapply shaped_insert; [done|done|by apply shape_put2]. }
    exists h'. split_and!; [|done| | |].
    + cbn [for_]. erewrite bind_Some; [exact Hrun|].
      unfold randomiseLine. cbn [fst snd]. by eapply wr_inside.
    + intros l0 ? ?. by rewrite Hfr, fn_lookup_insert_ne.
    + intros r' c' Hin'. rewrite HV by done. cbn [lastIndex fst snd isVertical].
      destruct (lastIndex (isVertical r' c') ls); [done|].
      rewrite fn_lookup_insert, (getd_put2 9 8) by done.
      by destruct (bool_decide _).
    + intros r' c' Hin'. rewrite HH by done. cbn [lastIndex fst snd isHorizontal].
      destruct (lastIndex (isHorizontal r' c') ls); [done|].
      by rewrite fn_lookup_insert_ne.
  - destruct (IH (<[ha := put2 (h ha) r c (magnitudeOf (Math_random k))]> h))
      as (h' & Hrun & Hsh' & Hfr & HV & HH); [|done|].
    { eapply shaped_insert; [done|done|by apply shape_put2]. }
    exists h'. split_and!; [|done| | |].
    + cbn [for_]. erewrite bind_Some; [exact Hrun|].
      unfold randomiseLine. cbn [fst snd]. by eapply wr_inside.
    + intros l0 ? ?. by rewrite Hfr, fn_lookup_insert_ne.
    + intros r' c' Hin'. rewrite HV by done. cbn [lastIndex fst snd isVertical].
      destruct (lastIndex (isVertical r' c') ls); [done|].
      by rewrite fn_lookup_insert_ne.
    + intros r' c' Hin'. rewrite HH by done. cbn [lastIndex fst snd isHorizontal].
      destruct (lastIndex (isHorizontal r' c') ls); [done|].
      rewrite fn_lookup_insert, (getd_put2 8 9) by done.
      by destruct (bool_decide _).
Qed.

(** [RandomiseVelocities] on a drawing whose elements name samples of the
    arrays. *)
Lemma RandomiseVelocities_run Math_random cv ha va svg (h : heap) :
  shaped (solverShapes cv ha va) h →
  forallb lineInside (imap pair svg) = true →
  ∃ h1 h' : heap,
    ResetPressure cv ha va h = Some (tt, h1) ∧
    RandomiseVelocities Math_random cv ha va svg h = Some (tt, h') ∧
    shaped (solverShapes cv ha va) h' ∧
    h' cv = constGrid 8 8 0%Qc ∧
    (∀ r c, inside 9 8 r c →
       getd (h' va) r c =
       match lastIndex (isVertical r c) (imap pair svg) with
       | Some k => magnitudeOf (Math_random k)
       | None => 0%Qc
       end) ∧
    (∀ r c, inside 8 9 r c →
       getd (h' ha) r c =
       match lastIndex (isHorizontal r c) (imap pair svg) with
       | Some k => magnitudeOf (Math_random k)
       | None => if c <? 8 then 0%Qc else getd (h ha) r c
       end).
Proof.
  intros Hsh Hin.
  destruct (ResetPressure_run cv ha va h Hsh)
    as (h1 & Hrun1 & Hsh1 & Hfr1 & Hc1 & Hv1 & Hh1).
  destruct (solver_distinct _ _ _ _ Hsh) as (Hch & Hcv & Hhv).
  destruct (randomise_loop Math_random cv ha va (imap pair svg) h1 Hsh1 Hin)
    as (h' & Hrun & Hsh' & Hfr & HV & HH).
  exists h1, h'. split_and!; try done.
  - unfold RandomiseVelocities. by rewrite (bind_Some _ _ _ _ _ Hrun1).
  - by rewrite Hfr.
  - intros r c Hrc. rewrite HV, Hv1 by done. by rewrite getd_constGrid.
  - intros r c Hrc. rewrite HH, Hh1 by done. by rewrite getd_tabulate.
Qed.

(** X14. On the drawing that [ConfigureSVG] fills, [RandomiseVelocities]
    gives every sample of both velocity arrays, the faces on the walls
    included, the velocity drawn at the hit area of its arrow (the second of
    the two elements of the arrow), and clears the pressure: nothing of the
    arrays' old values is left. *)
Theorem RandomiseVelocities_overwrites_every_sample Math_random cv ha va
    (h : heap) :
  shaped (solverShapes cv ha va) h →
  ∃ h' : heap,
    RandomiseVelocities Math_random cv ha va ConfigureSVG h = Some (tt, h') ∧
    h' cv = constGrid 8 8 0%Qc ∧
    h' va = tabulate 9 8 (λ r c,
              magnitudeOf (Math_random (Z.to_nat (2 * (8 * r + c) + 1)))) ∧
    h' ha = tabulate 8 9 (λ r c,
              magnitudeOf (Math_random (Z.to_nat (144 + 2 * (9 * r + c) + 1)))).
Proof.
  intros Hsh.
  destruct (RandomiseVelocities_run Math_random cv ha va ConfigureSVG h Hsh)
    as (h1 & h' & _ & Hrun & Hsh' & Hc & HV & HH); [by vm_compute|].
  exists h'. split_and!; [done|done| |].
  - apply (grid_ext 9 8); [shape_of va|apply shape_tabulate|].
    intros r c Hrc. rewrite HV, getd_tabulate by done.
    assert (Hall : forallb (λ rc : Z * Z,
              bool_decide (lastIndex (isVertical rc.1 rc.2) (imap pair ConfigureSVG)
                           = Some (Z.to_nat (2 * (8 * rc.1 + rc.2) + 1))))
              (cells 9 8) = true) by (by vm_compute).
    rewrite forallb_forall in Hall.
    assert (Hel : In (r, c) (cells 9 8))
      by (by apply list_elem_of_In, (elem_of_cells 9 8)).
    apply Hall in Hel. cbn [fst snd] in Hel.
    apply bool_decide_eq_true_1 in Hel. by rewrite Hel.
  - apply (grid_ext 8 9); [shape_of ha|apply shape_tabulate|].
    intros r c Hrc. rewrite HH, getd_tabulate by done.
    assert (Hall : forallb (λ rc : Z * Z,
              bool_decide (lastIndex (isHorizontal rc.1 rc.2) (imap pair ConfigureSVG)
                           = Some (Z.to_nat (144 + 2 * (9 * rc.1 + rc.2) + 1))))
              (cells 8 9) = true) by (by vm_compute).
    rewrite forallb_forall in Hall.
    assert (Hel : In (r, c) (cells 8 9))
      by (by apply list_elem_of_In, (elem_of_cells 8 9)).
    apply Hall in Hel. cbn [fst snd] in Hel.
    apply bool_decide_eq_true_1 in Hel. by rewrite Hel.
Qed.

Lemma RandomiseVelocities_overwrites_every_sample_witness :
  ∃ h' : heap,
    RandomiseVelocities twoDraws 0 1 3 ConfigureSVG wallFlow = Some (tt, h') ∧
    h' 0%nat = constGrid 8 8 0%Qc ∧
    h' 3%nat = tabulate 9 8 (λ r c,
                 magnitudeOf (twoDraws (Z.to_nat (2 * (8 * r + c) + 1)))) ∧
    h' 1%nat = tabulate 8 9 (λ r c,
                 magnitudeOf (twoDraws (Z.to_nat (144 + 2 * (9 * r + c) + 1)))).
Proof.
  apply (RandomiseVelocities_overwrites_every_sample twoDraws 0 1 3 wallFlow).
  repeat constructor.
Defined.

Lemma magnitudeOf_range (random : Qc) :
  (0 ≤ random)%Qc → (random < 1)%Qc →
  (num (-0.4) ≤ magnitudeOf random)%Qc ∧ (magnitudeOf random < num 0.4)%Qc.
Proof.
  unfold Qcle, Qclt, magnitudeOf. rewrite this_mult, this_minus.
  change (this 0%Qc) with 0%Q. change (this 1%Qc) with 1%Q.
  change (this (num 0.5)) with (1 # 2)%Q. change (this (num 0.8)) with (4 # 5)%Q.
  change (this (num (-0.4))) with (-2 # 5)%Q.
  change (this (num 0.4)) with (2 # 5)%Q. intros H0 H1. split; lra.
Qed.

(** X15. With random numbers from 0 up to, not including, 1, every sample
    of both velocity arrays lies from -0.4 up to, not including, 0.4 after
    [RandomiseVelocities] on the drawing that [ConfigureSVG] fills. *)
Theorem RandomiseVelocities_range Math_random cv ha va (h : heap) :
  shaped (solverShapes cv ha va) h →
  (∀ k, (0 ≤ Math_random k)%Qc ∧ (Math_random k < 1)%Qc) →
  ∃ h' : heap,
    RandomiseVelocities Math_random cv ha va ConfigureSVG h = Some (tt, h') ∧
    (∀ r c, inside 9 8 r c →
       (num (-0.4) ≤ getd (h' va) r c)%Qc ∧ (getd (h' va) r c < num 0.4)%Qc) ∧
    (∀ r c, inside 8 9 r c →
       (num (-0.4) ≤ getd (h' ha) r c)%Qc ∧ (getd (h' ha) r c < num 0.4)%Qc).
Proof.
  intros Hsh Hrand.
  destruct (RandomiseVelocities_run Math_random cv ha va ConfigureSVG h Hsh)
    as (h1 & h' & _ & Hrun & Hsh' & Hc & HV & HH); [by vm_compute|].
  exists h'. split_and!; [done| |].
  - intros r c Hrc. rewrite HV by done.
    assert (Hall : forallb (λ rc : Z * Z,
              bool_decide (is_Some (lastIndex (isVertical rc.1 rc.2)
                                      (imap pair ConfigureSVG))))
              (cells 9 8) = true) by (by vm_compute).
    rewrite forallb_forall in Hall.
    assert (Hel : In (r, c) (cells 9 8))
      by (by apply list_elem_of_In, (elem_of_cells 9 8)).
    apply Hall in Hel. cbn [fst snd] in Hel.
    apply bool_decide_eq_true_1 in Hel as [k ->].
    apply magnitudeOf_range; apply Hrand.
  - intros r c Hrc. rewrite HH by done.
    assert (Hall : forallb (λ rc : Z * Z,
              bool_decide (is_Some (lastIndex (isHorizontal rc.1 rc.2)
                                      (imap pair ConfigureSVG))))
              (cells 8 9) = true) by (by vm_compute).
    rewrite forallb_forall in Hall.
    assert (Hel : In (r, c) (cells 8 9))
      by (by apply list_elem_of_In, (elem_of_cells 8 9)).
    apply Hall in Hel. cbn [fst snd] in Hel.
    apply bool_decide_eq_true_1 in Hel as [k ->].
    apply magnitudeOf_range; apply Hrand.
Qed.

Lemma RandomiseVelocities_range_witness :
  ∃ h' : heap,
    RandomiseVelocities twoDraws 0 1 3 ConfigureSVG wallFlow = Some (tt, h') ∧
    (∀ r c, inside 9 8 r c →
       (num (-0.4) ≤ getd (h' 3%nat) r c)%Qc ∧ (getd (h' 3%nat) r c < num 0.4)%Qc) ∧
    (∀ r c, inside 8 9 r c →
       (num (-0.4) ≤ getd (h' 1%nat) r c)%Qc ∧ (getd (h' 1%nat) r c < num 0.4)%Qc).
Proof.
  apply (RandomiseVelocities_range twoDraws 0 1 3 wallFlow).
  - repeat constructor.
  - intros k. unfold twoDraws. destruct (Nat.even k); split; by vm_compute.
Defined.

(** ** Small cells in the variant with positions in pixels *)

Lemma rd_pure a r c (h : heap) :
  rd a r c h = None ∨ ∃ v, rd a r c h = Some (v, h).
Proof. unfold rd. destruct (at2 (h a) r c); eauto. Qed.

(** The samplers read and do not write. *)
Lemma GetVelocityXAtWorldPos_pure worldPos cellSize ha (h : heap) :
  WorldVariant.GetVelocityXAtWorldPos worldPos cellSize ha h = None ∨
  ∃ v, WorldVariant.GetVelocityXAtWorldPos worldPos cellSize ha h = Some (v, h).
Proof.
  unfold WorldVariant.GetVelocityXAtWorldPos. cbv zeta.
  repeat match goal with
  | |- bind (rd ?a ?r ?c) _ ?h = None ∨ _ =>
      destruct (rd_pure a r c h) as [Hrd|[? Hrd]];
        [left; by apply bind_None|rewrite (bind_Some _ _ _ _ _ Hrd); clear Hrd]
  end.
  right. by eexists.
Qed.

Lemma GetVelocityYAtWorldPos_pure worldPos cellSize va (h : heap) :
  WorldVariant.GetVelocityYAtWorldPos worldPos cellSize va h = None ∨
  ∃ v, WorldVariant.GetVelocityYAtWorldPos worldPos cellSize va h = Some (v, h).
Proof.
  unfold WorldVariant.GetVelocityYAtWorldPos. cbv zeta.
  repeat match goal with
  | |- bind (rd ?a ?r ?c) _ ?h = None ∨ _ =>
      destruct (rd_pure a r c h) as [Hrd|[? Hrd]];
        [left; by apply bind_None|rewrite (bind_Some _ _ _ _ _ Hrd); clear Hrd]
  end.
  right. by eexists.
Qed.

(** A loop fails if one of its iterations fails in every state that the
    iterations before it can leave. *)
Lemma for_faults {A} (Inv : heap → Prop) (body : A → M unit) (l : list A)
    (i : A) (h : heap) :
  (∀ j h, j ∈ l → Inv h →
     body j h = None ∨ ∃ h', body j h = Some (tt, h') ∧ Inv h') →
  i ∈ l → (∀ h, Inv h → body i h = None) →
  Inv h → for_ l body h = None.
Proof.
  revert h. induction l as [|j l IH]; intros h Hstep Hi Hfault Hinv.
  { by apply elem_of_nil in Hi. }
  cbn [for_]. apply elem_of_cons in Hi as [->|Hi].
  - apply bind_None. by apply Hfault.
  - destruct (Hstep j h) as [Hnone|(h' & Hrun & Hinv')]; [left|done| |].
    + by apply bind_None.
    + rewrite (bind_Some _ _ _ _ _ Hrun). apply IH; try done.
      intros j' h0 Hj'. apply Hstep. by right.
Qed.

(** With cells of 2.5 pixels or less, the sample position of the vertical
    arrow of column 7 lies, in cells, at 7 or beyond. *)
Lemma trunc_small_cells (cellSize : Qc) :
  (0 < cellSize)%Qc → (cellSize ≤ num 2.5)%Qc →
  7 ≤ Math_trunc (worldToGrid cellSize (ofZ 7 + num 0.5)).
Proof.
  unfold Qclt, Qcle. change (this 0%Qc) with 0%Q.
  change (this (num 2.5)) with (5 # 2)%Q. intros H0 Hc.
  assert (Hy : (7 <= this (worldToGrid cellSize (ofZ 7 + num 0.5)))%Q).
  { unfold worldToGrid. rewrite this_div, !this_plus, this_div, this_mult.
    change (this (ofZ gridSize)) with 8%Q. change (this (num 2.0)) with 2%Q.
    change (this (ofZ 7)) with 7%Q. change (this (num 0.5)) with (1 # 2)%Q.
    assert (Hhalf : (8 * this cellSize / 2 == 4 * this cellSize)%Q) by field.
    rewrite Hhalf. apply Qle_shift_div_l; lra. }
  unfold Math_trunc.
  replace (Qle_bool 0 (this (worldToGrid cellSize (ofZ 7 + num 0.5)))) with true
    by (symmetry; apply Qle_bool_iff; lra).
  rewrite <- (Qfloor_Z 7). by apply Qfloor_resp_le.
Qed.

Lemma GetVelocityXAtWorldPos_outside worldPos cellSize ha (h : heap) :
  shape 8 9 (h ha) →
  7 ≤ Math_trunc (worldToGrid cellSize worldPos.2) →
  WorldVariant.GetVelocityXAtWorldPos worldPos cellSize ha h = None.
Proof.
  intros Hs Hge. unfold WorldVariant.GetVelocityXAtWorldPos.
  fold (worldToGrid cellSize worldPos.1).
  fold (worldToGrid cellSize worldPos.2). unfold gridSize. cbv zeta.
  apply bind_None. apply (rd_outside 8 9); [done|]. unfold inside. lia.
Qed.

(** X16. In the variant with positions in pixels, [AdvectVelocities] with
    cells of 2.5 pixels or less reads outside the arrays in every state: at
    the latest for the vertical arrow of row 0 and column 7, whose sample
    position lies beyond the last row of the horizontal arrows. *)
Theorem world_advection_fails_on_small_cells (cellSize : Qc) ha ht va vt
    (h : heap) :
  shaped (advectShapes ha ht va vt) h →
  (0 < cellSize)%Qc → (cellSize ≤ num 2.5)%Qc →
  WorldVariant.AdvectVelocities cellSize ha ht va vt h = None.
Proof.
  intros Hsh H0 Hc. unfold WorldVariant.AdvectVelocities.
  apply bind_None. rewrite for_nested.
  apply (for_faults (shaped (advectShapes ha ht va vt)) _ _ (0, 7)); [| | |done].
  - intros [r c] h0 Hin%(elem_of_cells 9 8) Hsh0. cbn [fst snd]. cbv zeta.
    destruct (GetVelocityXAtWorldPos_pure (ofZ r, (ofZ c + num 0.5)%Qc)
                cellSize ha h0) as [HX|[vx HX]]; [left; by apply bind_None|].
    rewrite (bind_Some _ _ _ _ _ HX).
    destruct (GetVelocityYAtWorldPos_pure (ofZ r, (ofZ c + num 0.5)%Qc)
                cellSize va h0) as [HY|[vy HY]]; [left; by apply bind_None|].
    rewrite (bind_Some _ _ _ _ _ HY).
    match goal with
    | |- bind (WorldVariant.GetVelocityYAtWorldPos ?p _ _) _ _ = None ∨ _ =>
        destruct (GetVelocityYAtWorldPos_pure p cellSize va h0)
          as [HN|[vn HN]]; [left; by apply bind_None|];
        rewrite (bind_Some _ _ _ _ _ HN)
    end.
    right. eexists. split.
    + eapply wr_inside; [shape_of vt|done].
    + eapply shaped_insert; [done|shape_of vt|apply shape_put2; shape_of vt].
  - apply (elem_of_cells 9 8). unfold inside. lia.
  - intros h0 Hsh0. cbn [fst snd]. cbv zeta. apply bind_None.
    apply GetVelocityXAtWorldPos_outside; [shape_of ha|].
    cbn [snd]. by apply trunc_small_cells.
Qed.

Lemma world_advection_fails_on_small_cells_witness :
  WorldVariant.AdvectVelocities (num 2) 1 2 3 4 sampleHeap = None.
Proof.
  apply (world_advection_fails_on_small_cells (num 2) 1 2 3 4 sampleHeap).
  - repeat constructor.
  - by vm_compute.
  - by vm_compute.
Defined.

(** ** Sampling near the last row in the variant with positions in pixels *)




